(** * firefily-snek: the toroidal movement, growth and collision engine

    A shallow embedding of [main.go]: the snake's segment chain, the
    direction controller, the collision detector, the apple, the score and
    hunger counters, and the per-frame orchestrator, followed by the
    properties established about them.

    Conventions.
    - Go's [int] is a 32-bit two's-complement integer on the wasm32 target
      the game is built for; it is a [Z] and every arithmetic operation is
      followed by [wrapInt].
    - A [float32] value is a rational, an infinity or NaN.  The direction
      controller, where the angle accumulates from call to call, rounds
      every sum and difference to 24 bits of mantissa, to nearest with ties
      to even ([round32], subnormals included); overflow to an infinity is
      not modelled, the angle staying within one turn.  Elsewhere (the
      projection of the head, the eye's offset, the reach of the apple) a
      result is converted to [int] or compared at once, and the arithmetic
      before that is exact.  A negative zero is not told from zero.
    - The host library ([firefly]) and the math library ([tinymath]) are not
      part of the repository.  The playfield size, the trigonometric
      functions, [Hypot], the random device and the pads are variables of
      the section that holds the program. *)

From Stdlib Require Import ZArith QArith Qabs Qround Qpower List Bool Lia Lqa Permutation.
Import ListNotations.
Local Open Scope Z_scope.
Set Warnings "-register-all".

(** ** Machine integers *)

Definition intMin : Z := - 2 ^ 31.
Definition intMax : Z := 2 ^ 31 - 1.

(** The value a 32-bit signed register holds after computing [z]. *)
Definition wrapInt (z : Z) : Z := (z + 2 ^ 31) mod 2 ^ 32 - 2 ^ 31.

(** [z] is representable as an [int]. *)
Definition inInt (z : Z) : Prop := intMin <= z <= intMax.

(** A [uint32], as [firefly.GetRandom] returns. *)
Definition wrapUint32 (z : Z) : Z := z mod 2 ^ 32.

(** ** Floating point values *)

Inductive float32 : Type :=
| NaN
| Inf (positive : bool)
| Fin (q : Q).

Definition IsNaN (f : float32) : bool :=
  match f with NaN => true | _ => false end.

(** 2^e. *)
Definition Qpow2 (e : Z) : Q := (2 ^ e)%Q.

(** The binary exponent of a positive rational: the largest [e] with
    2^e <= a. *)
Definition Qlog2 (a : Q) : Z :=
  let e := Z.log2 (Qnum a) - Z.log2 (Zpos (Qden a)) in
  if Qle_bool (Qpow2 e) a then e else e - 1.

(** The nearest integer, ties to the even one. *)
Definition roundHalfEven (q : Q) : Z :=
  let f := Qfloor q in
  match (q - inject_Z f ?= 1 # 2)%Q with
  | Lt => f
  | Gt => f + 1
  | Eq => if Z.even f then f else f + 1
  end.

(** The exponent a positive value is rounded at: its own, or the smallest
    one of the format for a subnormal. *)
Definition exponent (a : Q) : Z := Z.max (Qlog2 a) (-126).

(** A positive value on the grid of its binade: 24 bits of mantissa. *)
Definition roundPos (a : Q) : Q :=
  let e := exponent a in
  (inject_Z (roundHalfEven (a * Qpow2 (23 - e))) * Qpow2 (e - 23))%Q.

(** The [float32] nearest to [q]. *)
Definition round32 (q : Q) : Q :=
  match (q ?= 0)%Q with
  | Eq => 0%Q
  | Gt => roundPos q
  | Lt => (- roundPos (- q))%Q
  end.

(** [a - b] for a finite [b]. *)
Definition fsub (a : float32) (b : Q) : float32 :=
  match a with
  | NaN => NaN
  | Inf s => Inf s
  | Fin x => Fin (round32 (x - b))
  end.

(** [a > b] and [a < b] against a finite [b]; false on NaN. *)
Definition fgt (a : float32) (b : Q) : bool :=
  match a with
  | NaN => false
  | Inf s => s
  | Fin x => negb (Qle_bool x b)
  end.

Definition flt (a : float32) (b : Q) : bool :=
  match a with
  | NaN => false
  | Inf s => negb s
  | Fin x => negb (Qle_bool b x)
  end.

(** [x / y] on finite operands, [y] never a negative zero: 0/0 is NaN and
    x/0 an infinity of the sign of [x]. *)
Definition fdiv (x y : Q) : float32 :=
  if Qeq_bool y 0 then
    if Qeq_bool x 0 then NaN else Inf (negb (Qle_bool x 0))
  else Fin (x / y).

(** Truncation toward zero of a rational. *)
Definition Qtrunc (q : Q) : Z := Z.quot (Qnum q) (Zpos (Qden q)).

(** The conversion [int(f)].  The Go specification leaves the result open
    when [f] is not representable; the wasm target saturates and maps NaN
    to 0. *)
Definition toInt (f : float32) : Z :=
  match f with
  | NaN => 0
  | Inf true => intMax
  | Inf false => intMin
  | Fin q => Z.max intMin (Z.min intMax (Qtrunc q))
  end.

(** The conversion [float32(z)] of an [int]. *)
Definition ofInt (z : Z) : Q := inject_Z z.

(** ** The host's types *)

Module firefly.

Record Point : Type := mkPoint { X : Z; Y : Z }.

(** A player's identifier, an unsigned integer. *)
Definition Peer : Type := Z.

(** A pad is consulted through [Azimuth().Radians()] only: the heading it
    yields, NaN when the stick is at rest. *)
Record Pad : Type := mkPad { Radians : float32 }.

End firefly.

Import firefly.

(** ** General constants for gameplay mechanics *)

Definition period : Z := 10.
Definition snakeWidth : Z := 7.
Definition segmentLen : Z := 14.
(** 0.1 as a [float32]: 13421773 / 2^27. *)
Definition maxDirDiff : Q := 13421773 # 134217728.
Definition HungerPeriod : Z := 6 * 60.
Definition IFrames : Z := 60.
Definition appleRadius : Z := 5.
Definition appleDiameter : Z := appleRadius * 2.

(** [tinymath.Pi] and [tinymath.Tau] as [float32]: 13176795 / 2^22 and twice
    that. *)
Definition Pi : Q := 13176795 # 4194304.
Definition Tau : Q := 13176795 # 2097152.

(** ** Game states for snake behavior *)

Inductive State : Type :=
| Moving
| Eating
| Growing.

(** ** Segment: one section of the snake's body *)

Module Segment.

Inductive Segment : Type :=
  mk { Head : Point; Tail : option Segment }.

End Segment.

Abbreviation Segment := Segment.Segment.

(** The chain's positions, head first. *)
Fixpoint positions (seg : Segment) : list Point :=
  match seg with
  | Segment.mk h None => [h]
  | Segment.mk h (Some t) => h :: positions t
  end.

(** Induction along the chain of [Tail] pointers. *)
Fixpoint Segment_chain_ind (P : Segment -> Prop)
    (Hlast : forall h, P (Segment.mk h None))
    (Hlink : forall h t, P t -> P (Segment.mk h (Some t)))
    (seg : Segment) : P seg :=
  match seg with
  | Segment.mk h None => Hlast h
  | Segment.mk h (Some t) => Hlink h t (Segment_chain_ind P Hlast Hlink t)
  end.

(** A list read from some position on, wrapping around its end. *)
Definition rotation {A : Type} (l l' : list A) : Prop :=
  exists k : nat, l' = skipn k l ++ firstn k l.

(** ** Snake

    [Dir] is a finite [float32] throughout: it starts at 0 and [setDir]
    keeps it within one turn. *)

Module Snake.

Record Snake : Type := mk {
  Peer : firefly.Peer;
  Head : Segment;
  Mouth : Point;
  Eye : Point;
  BlinkCounter : Z;
  BlinkMaxTime : Z;
  Dir : Q;
  state : State
}.

Definition set_Head (s : Snake) (h : Segment) : Snake :=
  mk (Peer s) h (Mouth s) (Eye s) (BlinkCounter s) (BlinkMaxTime s) (Dir s) (state s).
Definition set_Mouth (s : Snake) (p : Point) : Snake :=
  mk (Peer s) (Head s) p (Eye s) (BlinkCounter s) (BlinkMaxTime s) (Dir s) (state s).
Definition set_Eye (s : Snake) (p : Point) : Snake :=
  mk (Peer s) (Head s) (Mouth s) p (BlinkCounter s) (BlinkMaxTime s) (Dir s) (state s).
Definition set_Blink (s : Snake) (c m : Z) : Snake :=
  mk (Peer s) (Head s) (Mouth s) (Eye s) c m (Dir s) (state s).
Definition set_Dir (s : Snake) (d : Q) : Snake :=
  mk (Peer s) (Head s) (Mouth s) (Eye s) (BlinkCounter s) (BlinkMaxTime s) d (state s).
Definition set_state (s : Snake) (st : State) : Snake :=
  mk (Peer s) (Head s) (Mouth s) (Eye s) (BlinkCounter s) (BlinkMaxTime s) (Dir s) st.

End Snake.

Abbreviation Snake := Snake.Snake.

(** ** Bounding box, apple, score *)

Module BBox.
Record BBox : Type := mk { left : Point; right : Point }.
End BBox.
Abbreviation BBox := BBox.BBox.

Module Apple.
Record Apple : Type := mk { Pos : Point }.
End Apple.
Abbreviation Apple := Apple.Apple.

Module Score.
Record Score : Type := mk { val : Z; iframes : Z; hunger : Z }.
End Score.
Abbreviation Score := Score.Score.

(** Global variables for game entities ([font] is a rendering concern).
    [rng] counts the values drawn from the random device so far. *)
Module Game.
Record Game : Type := mk {
  frame : Z;
  apple : Apple;
  snakes : list Snake;
  score : Score;
  rng : nat
}.
End Game.
Abbreviation Game := Game.Game.

(** ** Drawing

    The calls the program makes to the host's renderer: a line with its
    colour and width, a circle with its bounding square's corner, its
    diameter and its fill colour. *)

Inductive Color : Type :=
| ColorWhite
| ColorRed
| ColorBlue
| ColorLightBlue
| ColorBlack
| ColorGreen.

Inductive DrawCall : Type :=
| DrawLine (a b : Point) (color : Color) (width : Z)
| DrawCircle (p : Point) (diameter : Z) (fill : Color).

(** ** A concrete platform to run the program on *)

(** The screen of the Firefly Zero console. *)
Definition fireflyWidth : Z := 240.
Definition fireflyHeight : Z := 160.

(** Bhaskara's rational approximation of the sine on a half turn, extended
    to every angle by periodicity; the cosine is the sine a quarter turn
    ahead. *)
Definition sinHalfTurn (x : Q) : Q :=
  (16 * x * (Pi - x) / (5 * Pi * Pi - 4 * x * (Pi - x)))%Q.

Definition turnReduce (x : Q) : Q :=
  (x - Tau * inject_Z (Qfloor (x / Tau)))%Q.

Definition approxSin (x : Q) : Q :=
  let r := turnReduce x in
  if Qle_bool r Pi then sinHalfTurn r else (- sinHalfTurn (r - Pi))%Q.

Definition approxCos (x : Q) : Q := approxSin (x + Pi / 2)%Q.

(** The Euclidean norm rounded up to a multiple of 1/256. *)
Definition approxHypot (x y : Q) : Q :=
  (inject_Z (Z.sqrt_up (Qceiling ((x * x + y * y) * 65536))) / 256)%Q.

(** A linear congruential generator as the random device. *)
Fixpoint lcgRandom (n : nat) : Z :=
  match n with
  | O => 2463534242
  | S k => (1664525 * lcgRandom k + 1013904223) mod 2 ^ 32
  end.

(** A device whose first two values place the apple at (20, 17). *)
Definition riggedRandom (n : nat) : Z :=
  match n with
  | O => 15
  | S O => 12
  | _ => lcgRandom n
  end.

(** A snake of three segments along row 17, its mouth at the head at column
    42: the first player's snake after one growth. *)
Definition grownSnake : Snake :=
  Snake.mk 0
    (Segment.mk (mkPoint 42 17)
       (Some (Segment.mk (mkPoint 28 17)
          (Some (Segment.mk (mkPoint 14 17) None)))))
    (mkPoint 42 17) (mkPoint 0 0) 0 0 0%Q Moving.

(** No pad is touched. *)
Definition idlePads (_ : Peer) : Pad * bool := (mkPad NaN, false).

(** ** The program *)

Section Program.

(** [firefly.Width] and [firefly.Height]. *)
Variables Width Height : Z.

(** [tinymath.Cos], [tinymath.Sin] and [tinymath.Hypot] on finite
    arguments. *)
Variables Cos Sin : Q -> Q.
Variable Hypot : Q -> Q -> Q.

(** The random device: its [n]-th value. *)
Variable randomSource : nat -> Z.

(** [firefly.GetRandom()]: the next value and the advanced device. *)
Definition GetRandom (r : nat) : Z * nat :=
  (wrapUint32 (randomSource r), S r).

(** *** Toroidal geometry *)

(** Helper: Normalize the X coordinate to stay within screen bounds. *)
Definition normalizeX (x : Z) : Z :=
  if x >=? Width then wrapInt (x - Width)
  else if x <? 0 then wrapInt (x + Width)
  else x.

(** Helper: Normalize the Y coordinate to stay within screen bounds. *)
Definition normalizeY (y : Z) : Z :=
  if y >=? Height then wrapInt (y - Height)
  else if y <? 0 then wrapInt (y + Height)
  else y.

(** Helper: Denormalize X coordinates for rendering across edges. *)
Definition denormalizeX (start end_ : Z) : Z * Z :=
  if wrapInt (start - end_) >? 30 then (start, wrapInt (end_ + Width))
  else if wrapInt (end_ - start) >? 30 then (wrapInt (start + Width), end_)
  else (start, end_).

(** Helper: Denormalize Y coordinates for rendering across edges. *)
Definition denormalizeY (start end_ : Z) : Z * Z :=
  if wrapInt (start - end_) >? 30 then (start, wrapInt (end_ + Height))
  else if wrapInt (end_ - start) >? 30 then (wrapInt (start + Height), end_)
  else (start, end_).

(** *** Bounding box for collision detection *)

(** [firefly.Point.ComponentMin] and [ComponentMax] of the host library:
    the componentwise minimum and maximum of two points. *)
Definition ComponentMin (a b : Point) : Point :=
  mkPoint (Z.min (X a) (X b)) (Z.min (Y a) (Y b)).
Definition ComponentMax (a b : Point) : Point :=
  mkPoint (Z.max (X a) (X b)) (Z.max (Y a) (Y b)).

(** Create a new bounding box with margins. *)
Definition NewBBox (start end_ : Point) (margin : Z) : BBox :=
  let left := ComponentMin start end_ in
  let right := ComponentMax start end_ in
  BBox.mk (mkPoint (wrapInt (X left - margin)) (wrapInt (Y left - margin)))
          (mkPoint (wrapInt (X right + margin)) (wrapInt (Y right + margin))).

(** Check if a point lies within the bounding box. *)
Definition BBox_Contains (b : BBox) (p : Point) : bool :=
  negb ((X p <? X (BBox.left b)) || (X p >? X (BBox.right b))
        || (Y p <? Y (BBox.left b)) || (Y p >? Y (BBox.right b))).

(** *** Snake *)

(** Create a new snake for a given peer. *)
Definition NewSnake (peer : Peer) : Snake :=
  let shift := wrapInt (10 + snakeWidth + wrapInt (wrapInt peer * 20)) in
  Snake.mk peer
    (Segment.mk (mkPoint (segmentLen * 2) shift)
       (Some (Segment.mk (mkPoint segmentLen shift) None)))
    (mkPoint 0 0) (mkPoint 0 0) 0 0 0%Q Moving.

(** Adjust the snake's direction based on player input. *)
Definition Snake_setDir (s : Snake) (pad : Pad) : Snake :=
  let dirDiff := fsub (Radians pad) (Snake.Dir s) in
  if IsNaN dirDiff then s
  else
    (* Ensure the snake takes the shortest turn direction. *)
    let dirDiff :=
      if fgt dirDiff Pi then Fin (- maxDirDiff)
      else if flt dirDiff (- Pi) then Fin maxDirDiff
      else dirDiff in
    (* Smooth the turn within the allowed angular change. *)
    let dir :=
      if fgt dirDiff maxDirDiff then round32 (Snake.Dir s + maxDirDiff)
      else if flt dirDiff (- maxDirDiff) then round32 (Snake.Dir s - maxDirDiff)
      else match dirDiff with
           | Fin d => round32 (Snake.Dir s + d)
           | _ => Snake.Dir s
           end in
    (* Keep the direction within the 0-360 degree range. *)
    let dir := if negb (Qle_bool 0 dir) then round32 (dir + Tau) else dir in
    let dir := if negb (Qle_bool dir Tau) then round32 (dir - Tau) else dir in
    Snake.set_Dir s dir.

(** The point one step of length [len] ahead of [from] along [dir]
    (screen Y grows downward). *)
Definition project (from : Point) (dir len : Q) : Point :=
  let shiftX := (Cos dir * len)%Q in
  let shiftY := (Sin dir * len)%Q in
  mkPoint (normalizeX (wrapInt (X from + toInt (Fin shiftX))))
          (normalizeY (wrapInt (Y from - toInt (Fin shiftY)))).

(** The loop of [shift]: every segment takes its predecessor's old
    position, the first one takes [head]. *)
Fixpoint shiftChain (head : Point) (segment : Segment) : Segment :=
  match segment with
  | Segment.mk oldHead None => Segment.mk head None
  | Segment.mk oldHead (Some tail) =>
      Segment.mk head (Some (shiftChain oldHead tail))
  end.

(** Move the snake's segments forward. *)
Definition Snake_shift (s : Snake) : Snake :=
  let head := project (Segment.Head (Snake.Head s)) (Snake.Dir s) (ofInt segmentLen) in
  match Snake.state s with
  | Growing =>
      Snake.set_state (Snake.set_Head s (Segment.mk head (Some (Snake.Head s)))) Moving
  | _ =>
      let s :=
        match Snake.state s with
        | Eating => Snake.set_state s Growing
        | _ => s
        end in
      Snake.set_Head s (shiftChain head (Snake.Head s))
  end.

(** Update the position of the snake's mouth. *)
Definition Snake_updateMouth (s : Snake) (frame : Z) : Snake :=
  let neck := Segment.Head (Snake.Head s) in
  let headLen := (ofInt segmentLen * ofInt frame / ofInt period)%Q in
  Snake.set_Mouth s (project neck (Snake.Dir s) headLen).

(** Update the snake's "eye" to look at the apple. *)
Definition Snake_updateEye (s : Snake) (apple : Point) (r : nat) : Snake * nat :=
  let lookX := ofInt (wrapInt (X apple - X (Snake.Mouth s))) in
  let lookY := ofInt (wrapInt (Y apple - Y (Snake.Mouth s))) in
  let lookLen := Hypot lookX lookY in
  let dX := fdiv (lookX * 3) lookLen in
  let dY := fdiv (lookY * 3) lookLen in
  let s := Snake.set_Eye s
             (mkPoint (wrapInt (X (Snake.Mouth s) + toInt dX))
                      (wrapInt (Y (Snake.Mouth s) + toInt dY))) in
  let (r1, r) := GetRandom r in
  let counter := wrapInt (Snake.BlinkCounter s + r1 mod 5) in
  if counter >? Snake.BlinkMaxTime s then
    let (r2, r) := GetRandom r in
    (Snake.set_Blink s 0 (wrapInt (wrapUint32 (100 + r2 mod 100))), r)
  else (Snake.set_Blink s counter (Snake.BlinkMaxTime s), r).

(** Update handles all snake logic for each frame.  [ReadPad] is the state
    of the pads during this frame. *)
Definition Snake_Update (ReadPad : Peer -> Pad * bool)
    (s : Snake) (frame : Z) (apple : Apple) (r : nat) : Snake * nat :=
  let frame := Z.rem frame period in
  let (pad, pressed) := ReadPad (Snake.Peer s) in
  let s := if pressed then Snake_setDir s pad else s in
  let s := if frame =? 0 then Snake_shift s else s in
  let s := Snake_updateMouth s frame in
  Snake_updateEye s (Apple.Pos apple) r.

(** The loop of [Collides] from [segment] on: a segment with a successor is
    tested against the box around the two. *)
Fixpoint collidesFrom (segment : Segment) (p : Point) : bool :=
  match segment with
  | Segment.mk ph None => false
  | Segment.mk ph (Some tail) =>
      let pt := Segment.Head tail in
      let (phX, ptX) := denormalizeX (X ph) (X pt) in
      let (phY, ptY) := denormalizeY (Y ph) (Y pt) in
      let bbox := NewBBox (mkPoint phX phY) (mkPoint ptX ptY) (Z.quot snakeWidth 2) in
      if BBox_Contains bbox p then true
      else collidesFrom tail p
  end.

(** Check if a point is within the snake's body. *)
Definition Snake_Collides (s : Snake) (p : Point) : bool :=
  match Segment.Tail (Snake.Head s) with
  | None => false
  | Some segment => collidesFrom segment p
  end.

(** *** Apple *)

(** Move the apple to a new random position. *)
Definition Apple_Move (a : Apple) (r : nat) : Apple * nat :=
  let (rx, r) := GetRandom r in
  let (ry, r) := GetRandom r in
  (Apple.mk
     (mkPoint
        (wrapInt (wrapInt (rx mod wrapUint32 (Width - appleRadius * 2)) + appleRadius))
        (wrapInt (wrapInt (ry mod wrapUint32 (Height - appleRadius * 2)) + appleRadius))),
   r).

(** Create a new apple at a random position. *)
Definition NewApple (r : nat) : Apple * nat :=
  Apple_Move (Apple.mk (mkPoint 0 0)) r.

(** *** Score *)

(** Create a new Score instance. *)
Definition NewScore : Score := Score.mk 0 IFrames HungerPeriod.

(** Increment the score when the snake eats an apple. *)
Definition Score_Inc (s : Score) : Score :=
  Score.mk (wrapInt (Score.val s + 1)) (Score.iframes s) HungerPeriod.

(** Decrement the score on collision or hunger penalty. *)
Definition Score_Dec (s : Score) : Score :=
  if Score.iframes s >? 0 then s
  else
    let val :=
      if Score.val s >? 0
      then wrapInt (Score.val s - wrapInt (Z.quot (Score.val s) 5 + 1))
      else Score.val s in
    Score.mk val IFrames (Score.hunger s).

(** Update the score and handle hunger or collisions. *)
Definition Score_Update (s : Score) (snake : Snake) : Score :=
  let s :=
    if Score.iframes s >? 0
    then Score.mk (Score.val s) (wrapInt (Score.iframes s - 1)) (Score.hunger s)
    else s in
  let s :=
    if Score.hunger s =? 0 then
      let s := Score_Dec s in
      Score.mk (Score.val s) (Score.iframes s) HungerPeriod
    else Score.mk (Score.val s) (Score.iframes s) (wrapInt (Score.hunger s - 1)) in
  if Snake_Collides snake (Snake.Mouth snake) then Score_Dec s else s.

(** The retry loop of [TryEat]: move the apple while it lies within the
    snake.  [fuel] bounds the number of moves; [None] when it is used up. *)
Fixpoint relocate (fuel : nat) (s : Snake) (a : Apple) (r : nat) : option (Apple * nat) :=
  if Snake_Collides s (Apple.Pos a) then
    match fuel with
    | O => None
    | S fuel => let (a, r) := Apple_Move a r in relocate fuel s a r
    end
  else Some (a, r).

(** Check if the snake eats the apple and grow if it does. *)
Definition Snake_TryEat (fuel : nat) (s : Snake) (a : Apple) (sc : Score) (r : nat)
  : option (Snake * Apple * Score * nat) :=
  let x := wrapInt (X (Apple.Pos a) - X (Snake.Mouth s)) in
  let y := wrapInt (Y (Apple.Pos a) - Y (Snake.Mouth s)) in
  let distance := Hypot (ofInt x) (ofInt y) in
  if negb (Qle_bool distance (ofInt (appleRadius + Z.quot snakeWidth 2))) then
    Some (s, a, sc, r)
  else
    let s := Snake.set_state s Eating in
    let (a, r) := Apple_Move a r in
    let sc := Score_Inc sc in
    match relocate fuel s a r with
    | None => None
    | Some (a, r) => Some (s, a, sc, r)
    end.

(** *** Main game functions: boot, update *)

Definition boot (peers : list Peer) : Game :=
  let (a, r) := NewApple O in
  Game.mk 0 a (map NewSnake peers) NewScore r.

(** The body of [update]'s loop over the snakes, in registration order. *)
Fixpoint updateSnakes (fuel : nat) (ReadPad : Peer -> Pad * bool) (frame : Z)
    (ss : list Snake) (a : Apple) (sc : Score) (r : nat)
  : option (list Snake * Apple * Score * nat) :=
  match ss with
  | [] => Some ([], a, sc, r)
  | snake :: rest =>
      let (snake, r) := Snake_Update ReadPad snake frame a r in
      match Snake_TryEat fuel snake a sc r with
      | None => None
      | Some (snake, a, sc, r) =>
          let sc := Score_Update sc snake in
          match updateSnakes fuel ReadPad frame rest a sc r with
          | None => None
          | Some (rest, a, sc, r) => Some (snake :: rest, a, sc, r)
          end
      end
  end.

Definition update (fuel : nat) (ReadPad : Peer -> Pad * bool) (g : Game) : option Game :=
  let frame := wrapInt (Game.frame g + 1) in
  match updateSnakes fuel ReadPad frame (Game.snakes g) (Game.apple g) (Game.score g) (Game.rng g) with
  | None => None
  | Some (ss, a, sc, r) => Some (Game.mk frame a ss sc r)
  end.

(** Cheat codes for debugging: the game after the cheat and the value
    returned. *)
Definition cheat (c v : Z) (g : Game) : Game * Z :=
  match c with
  | 1 =>
      let (a, r) := Apple_Move (Game.apple g) (Game.rng g) in
      (Game.mk (Game.frame g) a (Game.snakes g) (Game.score g) r, 1)
  | 2 =>
      let sc := Nat.iter (Z.to_nat v) Score_Inc (Game.score g) in
      (Game.mk (Game.frame g) (Game.apple g) (Game.snakes g) sc (Game.rng g), Score.val sc)
  | 3 =>
      let sc := Nat.iter (Z.to_nat v) Score_Dec (Game.score g) in
      (Game.mk (Game.frame g) (Game.apple g) (Game.snakes g) sc (Game.rng g), Score.val sc)
  | _ => (g, 0)
  end.


(** *** Rendering of a snake: the calls made, in order *)

(** Render a segment at a specific position. *)
Definition drawSegmentExactlyAt (start end_ : Point) : list DrawCall :=
  [ DrawLine start end_ ColorBlue snakeWidth;
    DrawCircle (mkPoint (wrapInt (X end_ - Z.quot snakeWidth 2))
                        (wrapInt (Y end_ - Z.quot snakeWidth 2)))
               snakeWidth ColorBlue ].

(** Render the segment and ghost segments if the snake wraps around screen
    edges. *)
Definition drawSegment (start end_ : Point) : list DrawCall :=
  drawSegmentExactlyAt start end_
  ++ drawSegmentExactlyAt
       (mkPoint (wrapInt (X start - Width)) (Y start))
       (mkPoint (wrapInt (X end_ - Width)) (Y end_))
  ++ drawSegmentExactlyAt
       (mkPoint (X start) (wrapInt (Y start - Height)))
       (mkPoint (X end_) (wrapInt (Y end_ - Height)))
  ++ drawSegmentExactlyAt
       (mkPoint (wrapInt (X start - Width)) (wrapInt (Y start - Height)))
       (mkPoint (wrapInt (X end_ - Width)) (wrapInt (Y end_ - Height))).

(** The two ends of the line [Segment.Render] draws for a segment followed
    by [tail]: the endpoints made contiguous, the far one pulled in when the
    segment is the last of a snake that is not Growing. *)
Definition renderEnds (head : Point) (tail : Segment) (frame : Z) (state : State)
  : Point * Point :=
  let (startX, endX) := denormalizeX (X head) (X (Segment.Head tail)) in
  let (startY, endY) := denormalizeY (Y head) (Y (Segment.Head tail)) in
  match Segment.Tail tail, state with
  | Some _, _ | None, Growing => (mkPoint startX startY, mkPoint endX endY)
  | None, _ =>
      (mkPoint startX startY,
       mkPoint
         (wrapInt (startX + wrapInt (Z.quot (wrapInt (wrapInt (endX - startX)
                                                      * wrapInt (period - frame)))
                                            period)))
         (wrapInt (startY + wrapInt (Z.quot (wrapInt (wrapInt (endY - startY)
                                                      * wrapInt (period - frame)))
                                            period))))
  end.

(** Render draws a segment of the snake. *)
Definition Segment_Render (s : Segment) (frame : Z) (state : State) : list DrawCall :=
  match Segment.Tail s with
  | None => []
  | Some tail =>
      let (start, end_) := renderEnds (Segment.Head s) tail frame state in
      drawSegment start end_
  end.

(** Render the snake's eye. *)
Definition Snake_renderEye (s : Snake) : list DrawCall :=
  DrawCircle (mkPoint (wrapInt (X (Snake.Eye s) - Z.quot snakeWidth 8))
                      (wrapInt (Y (Snake.Eye s) - Z.quot snakeWidth 8)))
             (Z.quot snakeWidth 4) ColorBlack
  :: (if Snake.BlinkCounter s <? 20 then
        [ DrawCircle
            (mkPoint (wrapInt (wrapInt (X (Snake.Mouth s) - Z.quot snakeWidth 2) + 1))
                     (wrapInt (wrapInt (Y (Snake.Mouth s) - Z.quot snakeWidth 2) + 1)))
            (snakeWidth - 2) ColorLightBlue ]
      else []).

(** Render the head of the snake. *)
Definition Snake_renderHead (s : Snake) : list DrawCall :=
  let (neckX, mouthX) :=
    denormalizeX (X (Segment.Head (Snake.Head s))) (X (Snake.Mouth s)) in
  let (neckY, mouthY) :=
    denormalizeY (Y (Segment.Head (Snake.Head s))) (Y (Snake.Mouth s)) in
  let style :=
    if Snake_Collides s (mkPoint mouthX mouthY) then ColorRed else ColorWhite in
  drawSegment (mkPoint neckX neckY) (mkPoint mouthX mouthY)
  ++ [ DrawCircle
         (mkPoint (wrapInt (wrapInt (mouthX - Z.quot snakeWidth 2) - 1))
                  (wrapInt (wrapInt (mouthY - Z.quot snakeWidth 2) - 1)))
         (snakeWidth + 2) ColorBlue;
       DrawCircle
         (mkPoint (wrapInt (mouthX - Z.quot snakeWidth 2))
                  (wrapInt (mouthY - Z.quot snakeWidth 2)))
         snakeWidth ColorLightBlue;
       DrawCircle
         (mkPoint (wrapInt (wrapInt (X (Snake.Mouth s) - Z.quot snakeWidth 2) + 1))
                  (wrapInt (wrapInt (Y (Snake.Mouth s) - Z.quot snakeWidth 2) + 1)))
         (snakeWidth - 2) style ]
  ++ Snake_renderEye s.

(** The loop of [Snake.Render] over the chain. *)
Fixpoint renderChain (segment : Segment) (frame : Z) (state : State) : list DrawCall :=
  Segment_Render segment frame state
  ++ match segment with
     | Segment.mk _ None => []
     | Segment.mk _ (Some tail) => renderChain tail frame state
     end.

(** Render the entire snake, including its segments and head. *)
Definition Snake_Render (s : Snake) (frame : Z) : list DrawCall :=
  let frame := Z.rem frame period in
  renderChain (Snake.Head s) frame (Snake.state s) ++ Snake_renderHead s.

(** Render the apple on the screen. *)
Definition Apple_Render (a : Apple) : list DrawCall :=
  [ DrawCircle (mkPoint (wrapInt (X (Apple.Pos a) - appleRadius))
                        (wrapInt (Y (Apple.Pos a) - appleRadius)))
               appleDiameter ColorRed;
    DrawLine (Apple.Pos a)
             (mkPoint (wrapInt (X (Apple.Pos a) + appleRadius))
                      (wrapInt (Y (Apple.Pos a) - appleRadius)))
             ColorGreen 3 ].

(** ** Notions the properties are stated with *)

(** The box [Collides] builds around a segment from [ph] to [pt]: the two
    endpoints made contiguous across the seam, expanded by half the body
    width. *)
Definition segmentBox (ph pt : Point) : BBox :=
  let (phX, ptX) := denormalizeX (X ph) (X pt) in
  let (phY, ptY) := denormalizeY (Y ph) (Y pt) in
  NewBBox (mkPoint phX phY) (mkPoint ptX ptY) (Z.quot snakeWidth 2).

(** [p] lies in the closed box, strictly outside of it, on its border. *)
Definition inBox (b : BBox) (p : Point) : Prop :=
  X (BBox.left b) <= X p <= X (BBox.right b)
  /\ Y (BBox.left b) <= Y p <= Y (BBox.right b).



(** The segments [Collides] tests: from the [i]-th position to the next,
    for every [i] but the first (the head-to-neck segment is left out). *)
Definition qualifying (s : Snake) (ph pt : Point) : Prop :=
  exists i : nat, (1 <= i)%nat
    /\ nth_error (positions (Snake.Head s)) i = Some ph
    /\ nth_error (positions (Snake.Head s)) (S i) = Some pt.

(** The apple after [n] moves. *)
Fixpoint moves (n : nat) (a : Apple) (r : nat) : Apple * nat :=
  match n with
  | O => (a, r)
  | S n => let (a', r') := Apple_Move a r in moves n a' r'
  end.

(** An eat is registered: the mouth is within reach of the apple. *)
Definition eats (s : Snake) (a : Apple) : bool :=
  Qle_bool
    (Hypot (ofInt (wrapInt (X (Apple.Pos a) - X (Snake.Mouth s))))
           (ofInt (wrapInt (Y (Apple.Pos a) - Y (Snake.Mouth s)))))
    (ofInt (appleRadius + Z.quot snakeWidth 2)).

(** A point of the playfield. *)
Definition inField (p : Point) : Prop :=
  0 <= X p < Width /\ 0 <= Y p < Height.

(** What [Apple.Move] yields: a point at least the apple's radius away from
    every edge. *)
Definition inMargin (p : Point) : Prop :=
  appleRadius <= X p < Width - appleRadius
  /\ appleRadius <= Y p < Height - appleRadius.

Definition snakeInField (s : Snake) : Prop :=
  Forall inField (positions (Snake.Head s))
  /\ inField (Snake.Mouth s) /\ inField (Snake.Eye s).

(** Every coordinate the game stores. *)
Definition coordsInField (g : Game) : Prop :=
  Forall snakeInField (Game.snakes g) /\ inField (Apple.Pos (Game.apple g)).

(** The states the game is in after [n] frames: the one [boot] leaves for
    the connected [peers], then [n] invocations of [update], whatever the
    pads and the random device say, with any number of cheat codes in
    between. *)
Inductive AfterFrames (peers : list Peer) : nat -> Game -> Prop :=
| After_boot : AfterFrames peers O (boot peers)
| After_update (n fuel : nat) (ReadPad : Peer -> Pad * bool) (g g' : Game) :
    AfterFrames peers n g -> update fuel ReadPad g = Some g' ->
    AfterFrames peers (S n) g'
| After_cheat (n : nat) (c v : Z) (g : Game) :
    AfterFrames peers n g -> AfterFrames peers n (fst (cheat c v g)).

Definition Reachable (peers : list Peer) (g : Game) : Prop :=
  exists n : nat, AfterFrames peers n g.

(** [n] frames in a row with the pads held as they are. *)
Fixpoint frames (fuel : nat) (ReadPad : Peer -> Pad * bool) (n : nat) (g : Game)
  : option Game :=
  match n with
  | O => Some g
  | S n =>
      match update fuel ReadPad g with
      | None => None
      | Some g' => frames fuel ReadPad n g'
      end
  end.

(** The row a peer's snake is spawned on lies on the playfield. *)
Definition spawnsInField (peer : Peer) : Prop :=
  0 <= peer /\ 10 + snakeWidth + peer * 20 < Height.

(** What holds of every state: the snakes are on the playfield and the
    apple keeps its margin. *)
Definition wrapInvariant (g : Game) : Prop :=
  Forall snakeInField (Game.snakes g) /\ inMargin (Apple.Pos (Game.apple g)).

(** The counters of a score within their ranges. *)
Definition scoreBounded (sc : Score) : Prop :=
  0 <= Score.val sc <= intMax
  /\ 0 <= Score.iframes sc <= IFrames
  /\ 0 <= Score.hunger sc <= HungerPeriod.

(** The blink timer within its range. *)
Definition blinkBounded (s : Snake) : Prop :=
  0 <= Snake.BlinkCounter s <= Snake.BlinkMaxTime s
  /\ Snake.BlinkMaxTime s < 200.

(** Two coordinates at most a segment's length apart on a circle of the
    given size: directly, or across the seam. *)
Definition nearOnTorus (size a b : Z) : Prop :=
  Z.abs (a - b) <= segmentLen \/ size - segmentLen <= Z.abs (a - b).

(** Every position of a chain is near the next one on both axes. *)
Fixpoint linked (l : list Point) : Prop :=
  match l with
  | p :: ((q :: _) as rest) =>
      nearOnTorus Width (X p) (X q) /\ nearOnTorus Height (Y p) (Y q) /\ linked rest
  | _ => True
  end.

(** The two countdowns of a score within their ranges. *)
Definition countersBounded (sc : Score) : Prop :=
  0 <= Score.iframes sc <= IFrames /\ 0 <= Score.hunger sc <= HungerPeriod.

(** A snake as the game keeps it: a head and at least one more segment, the
    blink timer within its range, the direction within one turn. *)
Definition snakeWellFormed (s : Snake) : Prop :=
  (2 <= length (positions (Snake.Head s)))%nat
  /\ blinkBounded s
  /\ (0 <= Snake.Dir s <= Tau)%Q.

(** The mouth is near the head position on both axes. *)
Definition mouthNear (s : Snake) : Prop :=
  nearOnTorus Width (X (Segment.Head (Snake.Head s))) (X (Snake.Mouth s))
  /\ nearOnTorus Height (Y (Segment.Head (Snake.Head s))) (Y (Snake.Mouth s)).

(** A call that draws within the screen: a line between two points of it,
    a circle whose bounding square lies on it. *)
Definition onScreen (call : DrawCall) : Prop :=
  match call with
  | DrawLine a b _ _ =>
      (0 <= X a < Width /\ 0 <= Y a < Height) /\ (0 <= X b < Width /\ 0 <= Y b < Height)
  | DrawCircle p d _ =>
      0 <= X p /\ X p + d <= Width /\ 0 <= Y p /\ Y p + d <= Height
  end.

(** [n] calls of [Score.Update] for the same snake. *)
Definition Score_Updates (n : nat) (sc : Score) (snake : Snake) : Score :=
  Nat.iter n (fun sc => Score_Update sc snake) sc.

(** [n] calls of [setDir] with the pad held still. *)
Definition setDirs (n : nat) (s : Snake) (pad : Pad) : Snake :=
  Nat.iter n (fun s => Snake_setDir s pad) s.

(** ** Properties *)

(** *** Rounding to [float32] *)

Lemma Qpow2_pos (e : Z) : (0 < Qpow2 e)%Q.
Proof. apply Qpower_0_lt. reflexivity. Qed.

Lemma Qpow2_add (a b : Z) : (Qpow2 (a + b) == Qpow2 a * Qpow2 b)%Q.
Proof. apply Qpower_plus. discriminate. Qed.

Lemma Qpow2_le (a b : Z) : a <= b -> (Qpow2 a <= Qpow2 b)%Q.
Proof. intros H. apply Qpower_le_compat_l; [exact H | discriminate]. Qed.

Lemma Qpow2_lt_inv (a b : Z) : (Qpow2 a < Qpow2 b)%Q -> a < b.
Proof. intros H. apply (Qpower_lt_compat_l_inv 2); [exact H | reflexivity]. Qed.

Lemma Qpow2_Z (e : Z) : 0 <= e -> (Qpow2 e == inject_Z (2 ^ e))%Q.
Proof. intros H. unfold Qpow2. now rewrite (Zpower_Qpower 2 e H). Qed.

Lemma Qpow2_S (e : Z) : (Qpow2 (e + 1) == 2 * Qpow2 e)%Q.
Proof. rewrite Qpow2_add. change (Qpow2 1) with 2%Q. ring. Qed.

Lemma Qlog2_spec (a : Q) :
  (0 < a)%Q -> (Qpow2 (Qlog2 a) <= a < Qpow2 (Qlog2 a + 1))%Q.
Proof.
  intros Ha. unfold Qlog2. cbn zeta.
  destruct a as [n d]. assert (Hn : 0 < n) by (unfold Qlt in Ha; simpl in Ha; lia).
  cbn [Qnum Qden].
  pose proof (Z.log2_spec n Hn) as [Hn1 Hn2].
  pose proof (Z.log2_spec (Zpos d) ltac:(lia)) as [Hd1 Hd2].
  pose proof (Z.log2_nonneg n) as Hln. pose proof (Z.log2_nonneg (Zpos d)) as Hld.
  set (ln := Z.log2 n) in *. set (ld := Z.log2 (Zpos d)) in *.
  assert (EP : (Qpow2 (ln - ld) * Qpow2 ld == Qpow2 ln)%Q).
  { rewrite <- Qpow2_add. now replace (ln - ld + ld) with ln by lia. }
  assert (Ea : ((n # d) * inject_Z (Zpos d) == inject_Z n)%Q).
  { unfold Qeq, Qmult, inject_Z. simpl. lia. }
  replace (Z.succ ln) with (ln + 1) in Hn2 by lia.
  replace (Z.succ ld) with (ld + 1) in Hd2 by lia.
  rewrite Zle_Qle in Hn1. rewrite Zle_Qle in Hd1.
  rewrite Zlt_Qlt in Hn2. rewrite Zlt_Qlt in Hd2.
  rewrite <- Qpow2_Z in Hn1, Hn2, Hd1, Hd2 by lia.
  rewrite Qpow2_S in Hn2, Hd2.
  pose proof (Qpow2_pos (ln - ld)) as HE. pose proof (Qpow2_pos ld) as HD.
  assert (Hdd : (0 < inject_Z (Zpos d))%Q) by reflexivity.
  revert EP Ea Hn1 Hn2 Hd1 Hd2 HE HD Hdd.
  generalize (inject_Z n) (inject_Z (Zpos d)) (Qpow2 ld) (Qpow2 ln).
  intros N D PD PN EP Ea Hn1 Hn2 Hd1 Hd2 HE HD Hdd.
  assert (Hlo : (Qpow2 (ln - ld) < 2 * (n # d))%Q).
  { apply Qnot_le_lt. intros Hc. 
    assert (2 * ((n # d) * D) <= Qpow2 (ln - ld) * D)%Q by nra. nra. }
  assert (Hhi : ((n # d) < 2 * Qpow2 (ln - ld))%Q).
  { apply Qnot_le_lt. intros Hc.
    assert (2 * Qpow2 (ln - ld) * D <= (n # d) * D)%Q by nra. nra. }
  destruct (Qle_bool (Qpow2 (ln - ld)) (n # d)) eqn:E.
  - apply Qle_bool_iff in E. split; [exact E|]. now rewrite Qpow2_S.
  - assert (E' : ~ (Qpow2 (ln - ld) <= n # d)%Q)
      by (intros Hc; apply Qle_bool_iff in Hc; congruence).
    apply Qnot_le_lt in E'.
    replace (ln - ld - 1 + 1) with (ln - ld) by lia. split; [|exact E'].
    assert (Es : (Qpow2 (ln - ld) == 2 * Qpow2 (ln - ld - 1))%Q).
    { rewrite <- Qpow2_S. now replace (ln - ld - 1 + 1) with (ln - ld) by lia. }
    lra.
Qed.

Lemma roundHalfEven_floor (q : Q) :
  Qfloor q <= roundHalfEven q <= Qfloor q + 1.
Proof.
  unfold roundHalfEven. cbn zeta.
  destruct (q - inject_Z (Qfloor q) ?= 1 # 2)%Q; [destruct (Z.even _)| |]; lia.
Qed.

Lemma roundHalfEven_error (q : Q) :
  (Qabs (inject_Z (roundHalfEven q) - q) <= 1 # 2)%Q.
Proof.
  pose proof (Qfloor_le q) as Hlo. pose proof (Qlt_floor q) as Hhi.
  rewrite inject_Z_plus in Hhi. change (inject_Z 1) with 1%Q in Hhi.
  unfold roundHalfEven. cbn zeta.
  apply Qabs_Qle_condition.
  destruct (Qcompare_spec (q - inject_Z (Qfloor q)) (1 # 2)) as [E | E | E].
  - destruct (Z.even (Qfloor q)).
    + split; lra.
    + rewrite inject_Z_plus. change (inject_Z 1) with 1%Q. split; lra.
  - split; lra.
  - rewrite inject_Z_plus. change (inject_Z 1) with 1%Q. split; lra.
Qed.

Lemma roundHalfEven_ge (q : Q) (z : Z) :
  (inject_Z z <= q)%Q -> z <= roundHalfEven q.
Proof.
  intros H. pose proof (Qfloor_resp_le _ _ H) as Hf. rewrite Qfloor_Z in Hf.
  pose proof (roundHalfEven_floor q). lia.
Qed.

Lemma roundHalfEven_le (q : Q) (z : Z) :
  (q <= inject_Z z)%Q -> roundHalfEven q <= z.
Proof.
  intros H. pose proof (Qfloor_resp_le _ _ H) as Hf. rewrite Qfloor_Z in Hf.
  pose proof (roundHalfEven_floor q) as Hr.
  destruct (Z.eq_dec (Qfloor q) z) as [E | E]; [|lia].
  unfold roundHalfEven. cbn zeta.
  destruct (Qcompare_spec (q - inject_Z (Qfloor q)) (1 # 2)) as [C | C | C].
  - rewrite E in C. lra.
  - lia.
  - rewrite E in C. lra.
Qed.

Lemma roundHalfEven_mono (p q : Q) :
  (p <= q)%Q -> roundHalfEven p <= roundHalfEven q.
Proof.
  intros H. pose proof (Qfloor_resp_le _ _ H) as Hf.
  pose proof (roundHalfEven_floor p) as Hp. pose proof (roundHalfEven_floor q) as Hq.
  destruct (Z.eq_dec (Qfloor p) (Qfloor q)) as [E | E]; [|lia].
  unfold roundHalfEven. cbn zeta. rewrite E.
  destruct (Qcompare_spec (p - inject_Z (Qfloor q)) (1 # 2)) as [C | C | C];
    destruct (Qcompare_spec (q - inject_Z (Qfloor q)) (1 # 2)) as [D | D | D];
    try destruct (Z.even (Qfloor q)); try lia; lra.
Qed.

Lemma scale_cancel (e : Z) : (Qpow2 (23 - e) * Qpow2 (e - 23) == 1)%Q.
Proof. rewrite <- Qpow2_add. now replace (23 - e + (e - 23)) with 0 by lia. Qed.

Lemma roundPos_bounds (a : Q) :
  (0 < a)%Q ->
  (0 <= roundPos a <= Qpow2 (exponent a + 1))%Q
  /\ (-126 <= Qlog2 a -> (Qpow2 (exponent a) <= roundPos a)%Q).
Proof.
  intros Ha. destruct (Qlog2_spec a Ha) as [Hlo Hhi].
  unfold roundPos. cbn zeta. unfold exponent.
  set (e := Z.max (Qlog2 a) (-126)).
  pose proof (scale_cancel e) as Hc.
  pose proof (Qpow2_pos (23 - e)) as H1. pose proof (Qpow2_pos (e - 23)) as H2.
  assert (Hup : (a < Qpow2 (e + 1))%Q).
  { eapply Qlt_le_trans; [exact Hhi|]. apply Qpow2_le. lia. }
  assert (E24 : (Qpow2 (e + 1) == inject_Z (2 ^ 24) * Qpow2 (e - 23))%Q).
  { rewrite <- (Qpow2_Z 24) by lia. rewrite <- Qpow2_add.
    now replace (24 + (e - 23)) with (e + 1) by lia. }
  assert (E23 : (Qpow2 e == inject_Z (2 ^ 23) * Qpow2 (e - 23))%Q).
  { rewrite <- (Qpow2_Z 23) by lia. rewrite <- Qpow2_add.
    now replace (23 + (e - 23)) with e by lia. }
  assert (Hm0 : (inject_Z 0 <= a * Qpow2 (23 - e))%Q).
  { change (inject_Z 0) with 0%Q. nra. }
  assert (Hm24 : (a * Qpow2 (23 - e) <= inject_Z (2 ^ 24))%Q).
  { rewrite E24 in Hup. 
    assert (a * Qpow2 (23 - e) < inject_Z (2 ^ 24) * (Qpow2 (e - 23) * Qpow2 (23 - e)))%Q
      by nra.
    assert (Hc' : (Qpow2 (e - 23) * Qpow2 (23 - e) == 1)%Q) by (rewrite <- Hc; ring).
    rewrite Hc' in H. lra. }
  pose proof (roundHalfEven_ge _ _ Hm0) as R0.
  pose proof (roundHalfEven_le _ _ Hm24) as R24.
  rewrite Zle_Qle in R0. rewrite Zle_Qle in R24.
  change (inject_Z 0) with 0%Q in R0.
  split; [split|].
  - nra.
  - rewrite E24. nra.
  - intros Hn. assert (Ee : e = Qlog2 a) by (unfold e; lia).
    rewrite <- Ee in Hlo. rewrite E23.
    assert (Hm23 : (inject_Z (2 ^ 23) <= a * Qpow2 (23 - e))%Q).
    { rewrite E23 in Hlo.
      assert (inject_Z (2 ^ 23) * (Qpow2 (e - 23) * Qpow2 (23 - e)) <= a * Qpow2 (23 - e))%Q
        by nra.
      assert (Hc' : (Qpow2 (e - 23) * Qpow2 (23 - e) == 1)%Q) by (rewrite <- Hc; ring).
      rewrite Hc' in H. lra. }
    pose proof (roundHalfEven_ge _ _ Hm23) as R23. rewrite Zle_Qle in R23. nra.
Qed.

Lemma roundPos_error (a : Q) :
  (Qabs (roundPos a - a) <= Qpow2 (exponent a - 24))%Q.
Proof.
  unfold roundPos. cbn zeta. unfold exponent.
  set (e := Z.max (Qlog2 a) (-126)).
  pose proof (scale_cancel e) as Hc.
  pose proof (Qpow2_pos (e - 23)) as H2.
  pose proof (roundHalfEven_error (a * Qpow2 (23 - e))) as Hr.
  assert (E : (Qpow2 (e - 23) == 2 * Qpow2 (e - 24))%Q).
  { rewrite <- Qpow2_S. now replace (e - 24 + 1) with (e - 23) by lia. }
  apply Qabs_Qle_condition in Hr. apply Qabs_Qle_condition.
  revert Hc Hr E H2.
  generalize (inject_Z (roundHalfEven (a * Qpow2 (23 - e)))).
  generalize (Qpow2 (23 - e)) (Qpow2 (e - 23)) (Qpow2 (e - 24)).
  intros u v w n Hc Hr E H2.
  assert (Ea : (a == a * u * v)%Q) by (rewrite <- Qmult_assoc, Hc; ring).
  split; nra.
Qed.

Lemma Qlog2_mono (a b : Q) : (0 < a)%Q -> (a <= b)%Q -> Qlog2 a <= Qlog2 b.
Proof.
  intros Ha Hab. destruct (Qlog2_spec a Ha) as [Hlo _].
  destruct (Qlog2_spec b ltac:(lra)) as [_ Hhi].
  assert (H : (Qpow2 (Qlog2 a) < Qpow2 (Qlog2 b + 1))%Q) by lra.
  apply Qpow2_lt_inv in H. lia.
Qed.

Lemma roundPos_mono (a b : Q) :
  (0 < a)%Q -> (a <= b)%Q -> (roundPos a <= roundPos b)%Q.
Proof.
  intros Ha Hab. assert (Hb : (0 < b)%Q) by lra.
  pose proof (Qlog2_mono a b Ha Hab) as Hl.
  destruct (Z.eq_dec (exponent a) (exponent b)) as [E | E].
  - unfold roundPos. cbn zeta. rewrite E.
    pose proof (Qpow2_pos (23 - exponent b)) as H1.
    pose proof (Qpow2_pos (exponent b - 23)) as H2.
    assert (Hm : (a * Qpow2 (23 - exponent b) <= b * Qpow2 (23 - exponent b))%Q) by nra.
    pose proof (roundHalfEven_mono _ _ Hm) as Hr. rewrite Zle_Qle in Hr. nra.
  - assert (Hlt : exponent a < exponent b) by (unfold exponent in *; lia).
    destruct (roundPos_bounds a Ha) as [[_ Hup] _].
    destruct (roundPos_bounds b Hb) as [_ Hlo].
    assert (Hn : -126 <= Qlog2 b) by (unfold exponent in *; lia).
    specialize (Hlo Hn).
    pose proof (Qpow2_le (exponent a + 1) (exponent b) ltac:(lia)). lra.
Qed.

Lemma round32_0 : round32 0 = 0%Q.
Proof. reflexivity. Qed.

Lemma round32_pos (q : Q) : (0 < q)%Q -> round32 q = roundPos q.
Proof.
  intros H. unfold round32.
  destruct (Qcompare_spec q 0) as [E | E | E]; [lra | lra | reflexivity].
Qed.

Lemma round32_neg (q : Q) : (q < 0)%Q -> round32 q = (- roundPos (- q))%Q.
Proof.
  intros H. unfold round32.
  destruct (Qcompare_spec q 0) as [E | E | E]; [lra | reflexivity | lra].
Qed.

Lemma round32_zero (q : Q) : (q == 0)%Q -> round32 q = 0%Q.
Proof.
  intros H. unfold round32.
  destruct (Qcompare_spec q 0) as [E | E | E]; [reflexivity | lra | lra].
Qed.

(** Rounding is monotone. *)
Lemma round32_le (p q : Q) : (p <= q)%Q -> (round32 p <= round32 q)%Q.
Proof.
  intros H.
  destruct (Q_dec p 0) as [[Hp | Hp] | Hp]; destruct (Q_dec q 0) as [[Hq | Hq] | Hq];
    try (exfalso; lra).
  - rewrite (round32_neg p Hp), (round32_neg q Hq).
    pose proof (roundPos_mono (- q) (- p) ltac:(lra) ltac:(lra)). lra.
  - rewrite (round32_neg p Hp), (round32_pos q Hq).
    destruct (roundPos_bounds (- p) ltac:(lra)) as [[? _] _].
    destruct (roundPos_bounds q Hq) as [[? _] _]. lra.
  - rewrite (round32_neg p Hp), (round32_zero q Hq).
    destruct (roundPos_bounds (- p) ltac:(lra)) as [[? _] _]. lra.
  - rewrite (round32_pos p Hp), (round32_pos q Hq). now apply roundPos_mono.
  - rewrite (round32_zero p Hp), (round32_pos q Hq).
    destruct (roundPos_bounds q Hq) as [[? _] _]. lra.
  - rewrite (round32_zero p Hp), (round32_zero q Hq). lra.
Qed.

(** The rounding error is at most half a unit in the last place. *)
Lemma round32_error (q : Q) (k : Z) :
  -126 <= k -> (Qabs q < Qpow2 (k + 1))%Q ->
  (Qabs (round32 q - q) <= Qpow2 (k - 24))%Q.
Proof.
  intros Hk Hq.
  assert (Hpos : forall a : Q, (0 < a)%Q -> (a < Qpow2 (k + 1))%Q ->
            (Qabs (roundPos a - a) <= Qpow2 (k - 24))%Q).
  { intros a Ha Hlt. eapply Qle_trans; [apply roundPos_error|].
    apply Qpow2_le. destruct (Qlog2_spec a Ha) as [Hlo _].
    assert (H : (Qpow2 (Qlog2 a) < Qpow2 (k + 1))%Q) by lra.
    apply Qpow2_lt_inv in H. unfold exponent. lia. }
  destruct (Q_dec q 0) as [[Hn | Hp] | Hz].
  - rewrite (round32_neg q Hn).
    rewrite (Qabs_neg q) in Hq by lra.
    specialize (Hpos (- q)%Q ltac:(lra) Hq).
    apply Qabs_Qle_condition in Hpos. apply Qabs_Qle_condition. split; lra.
  - rewrite (round32_pos q Hp).
    rewrite (Qabs_pos q) in Hq by lra. exact (Hpos q Hp Hq).
  - rewrite (round32_zero q Hz). pose proof (Qpow2_pos (k - 24)).
    apply Qabs_Qle_condition. split; lra.
Qed.

(** *** Machine integers and conversions *)

Lemma wrapInt_id (z : Z) : inInt z -> wrapInt z = z.
Proof.
  unfold inInt, intMin, intMax, wrapInt. intros Hz.
  rewrite Z.mod_small; lia.
Qed.

Lemma wrapInt_inInt (z : Z) : inInt (wrapInt z).
Proof.
  unfold inInt, intMin, intMax, wrapInt.
  pose proof (Z.mod_pos_bound (z + 2 ^ 31) (2 ^ 32) ltac:(lia)). lia.
Qed.

Lemma positions_head (seg : Segment) :
  exists rest, positions seg = Segment.Head seg :: rest.
Proof.
  destruct seg as [h [t|]]; simpl; eauto.
Qed.

Lemma positions_nonempty (seg : Segment) : positions seg <> [].
Proof.
  destruct (positions_head seg) as [rest ->]. discriminate.
Qed.

(** *** The segment chain: shift *)

Lemma shiftChain_positions (seg : Segment) :
  forall head, positions (shiftChain head seg) = head :: removelast (positions seg).
Proof.
  induction seg as [h | h t IH] using Segment_chain_ind; intros head.
  - reflexivity.
  - simpl positions at 1. rewrite IH.
    change (positions (Segment.mk h (Some t))) with (h :: positions t).
    destruct (positions_head t) as [rest ->]. reflexivity.
Qed.

Lemma shiftChain_length (seg : Segment) (head : Point) :
  length (positions (shiftChain head seg)) = length (positions seg).
Proof.
  rewrite shiftChain_positions. simpl.
  destruct (positions seg) as [|p l] eqn:E.
  - now destruct (positions_nonempty seg).
  - clear E. revert p. induction l as [|q l IH]; intros p; simpl in *; auto.
Qed.

(** C5. A shift in state Growing lengthens the chain by exactly one: the
    projected point becomes the head, the previous positions follow it
    unchanged and in order (the old head is now the second segment), and
    the state becomes Moving. *)
Theorem shift_growing_prepends (s : Snake) :
  Snake.state s = Growing ->
  let head := project (Segment.Head (Snake.Head s)) (Snake.Dir s) (ofInt segmentLen) in
  let s' := Snake_shift s in
  positions (Snake.Head s') = head :: positions (Snake.Head s)
  /\ length (positions (Snake.Head s')) = S (length (positions (Snake.Head s)))
  /\ nth_error (positions (Snake.Head s')) 1 = Some (Segment.Head (Snake.Head s))
  /\ Snake.state s' = Moving.
Proof.
  intros Hst head s'. subst s'. unfold Snake_shift. rewrite Hst. fold head.
  cbn [Snake.Head Snake.state Snake.set_Head Snake.set_state positions].
  repeat split.
  simpl. destruct (positions_head (Snake.Head s)) as [rest ->]. reflexivity.
Qed.

(** C3, as the code has it.  After a shift in a state other than Growing
    the chain has the length it had, the projected point is the first
    position and every other segment holds the previous position of its
    predecessor; the previous tail position is dropped.  A snake that was
    Eating is Growing afterwards, a Moving one stays Moving. *)
Theorem shift_normal_advances (s : Snake) :
  Snake.state s <> Growing ->
  let head := project (Segment.Head (Snake.Head s)) (Snake.Dir s) (ofInt segmentLen) in
  let s' := Snake_shift s in
  length (positions (Snake.Head s')) = length (positions (Snake.Head s))
  /\ positions (Snake.Head s') = head :: removelast (positions (Snake.Head s))
  /\ (forall i p, nth_error (positions (Snake.Head s)) i = Some p ->
        (S i < length (positions (Snake.Head s)))%nat ->
        nth_error (positions (Snake.Head s')) (S i) = Some p)
  /\ Snake.state s' = match Snake.state s with Eating => Growing | st => st end.
Proof.
  intros Hst head s'.
  assert (Hhead : Snake.Head s' = shiftChain head (Snake.Head s)).
  { subst s' head. unfold Snake_shift.
    destruct s as [? ? ? ? ? ? ? []]; try reflexivity. now elim Hst. }
  assert (Hstate : Snake.state s' = match Snake.state s with Eating => Growing | st => st end).
  { subst s'. unfold Snake_shift.
    destruct s as [? ? ? ? ? ? ? []]; try reflexivity. now elim Hst. }
  rewrite Hhead, shiftChain_length, shiftChain_positions.
  repeat split; auto.
  intros i p Hi Hlt. simpl.
  generalize dependent i. generalize (positions (Snake.Head s)).
  induction l as [|q l IH]; intros i Hi Hlt.
  - destruct i; discriminate.
  - destruct l as [|q' l].
    + simpl in Hlt. lia.
    + destruct i as [|i].
      * simpl in *. exact Hi.
      * change (removelast (q :: q' :: l)) with (q :: removelast (q' :: l)).
        simpl nth_error at 1. apply IH; [exact Hi | simpl in *; lia].
Qed.

(** *** The collision detector *)

(** Away from the seam and from the limits of an [int], the box is the
    rectangle spanned by the two endpoints, three units larger on every
    side. *)
Lemma segmentBox_contiguous (ph pt : Point) :
  - 2 ^ 30 < X ph < 2 ^ 30 -> - 2 ^ 30 < X pt < 2 ^ 30 ->
  - 2 ^ 30 < Y ph < 2 ^ 30 -> - 2 ^ 30 < Y pt < 2 ^ 30 ->
  Z.abs (X ph - X pt) <= 30 -> Z.abs (Y ph - Y pt) <= 30 ->
  segmentBox ph pt
  = BBox.mk (mkPoint (Z.min (X ph) (X pt) - 3) (Z.min (Y ph) (Y pt) - 3))
            (mkPoint (Z.max (X ph) (X pt) + 3) (Z.max (Y ph) (Y pt) + 3)).
Proof.
  intros Hxh Hxt Hyh Hyt Hdx Hdy.
  unfold segmentBox, denormalizeX, denormalizeY.
  rewrite (wrapInt_id (X ph - X pt)), (wrapInt_id (X pt - X ph)),
    (wrapInt_id (Y ph - Y pt)), (wrapInt_id (Y pt - Y ph))
    by (unfold inInt, intMin, intMax; lia).
  rewrite !Z.gtb_ltb.
  rewrite (proj2 (Z.ltb_ge 30 (X ph - X pt))), (proj2 (Z.ltb_ge 30 (X pt - X ph))),
    (proj2 (Z.ltb_ge 30 (Y ph - Y pt))), (proj2 (Z.ltb_ge 30 (Y pt - Y ph))) by lia.
  unfold NewBBox, ComponentMin, ComponentMax. cbn [X Y].
  change (Z.quot snakeWidth 2) with 3.
  rewrite !wrapInt_id by (unfold inInt, intMin, intMax; lia).
  reflexivity.
Qed.

Lemma BBox_Contains_inBox (b : BBox) (p : Point) :
  BBox_Contains b p = true <-> inBox b p.
Proof.
  unfold BBox_Contains, inBox.
  rewrite negb_true_iff, !orb_false_iff, !Z.ltb_ge, !Z.gtb_ltb, !Z.ltb_ge. lia.
Qed.


Lemma collidesFrom_link (h : Point) (t : Segment) (p : Point) :
  collidesFrom (Segment.mk h (Some t)) p =
  if BBox_Contains (segmentBox h (Segment.Head t)) p then true
  else collidesFrom t p.
Proof.
  cbn [collidesFrom]. unfold segmentBox.
  destruct (denormalizeX (X h) (X (Segment.Head t))).
  destruct (denormalizeY (Y h) (Y (Segment.Head t))).
  reflexivity.
Qed.

Lemma collidesFrom_iff (seg : Segment) (p : Point) :
  collidesFrom seg p = true <->
  exists i ph pt, nth_error (positions seg) i = Some ph
    /\ nth_error (positions seg) (S i) = Some pt
    /\ inBox (segmentBox ph pt) p.
Proof.
  induction seg as [h | h t IH] using Segment_chain_ind.
  - simpl. split; [discriminate|].
    intros (i & ph & pt & _ & H & _). destruct i; discriminate.
  - rewrite collidesFrom_link.
    change (positions (Segment.mk h (Some t))) with (h :: positions t).
    destruct (BBox_Contains (segmentBox h (Segment.Head t)) p) eqn:Hc.
    + split; [intros _|reflexivity].
      exists O, h, (Segment.Head t). simpl.
      destruct (positions_head t) as [rest ->].
      repeat split; try reflexivity; now apply BBox_Contains_inBox.
    + rewrite IH. split.
      * intros (i & ph & pt & H1 & H2 & H3). now exists (S i), ph, pt.
      * intros (i & ph & pt & H1 & H2 & H3). destruct i as [|i].
        -- simpl in H1, H2. destruct (positions_head t) as [rest E].
           rewrite E in H2. simpl in H2. injection H1 as <-. injection H2 as <-.
           apply BBox_Contains_inBox in H3. congruence.
        -- now exists i, ph, pt.
Qed.

Lemma Snake_Collides_iff (s : Snake) (p : Point) :
  Snake_Collides s p = true <->
  exists ph pt, qualifying s ph pt /\ inBox (segmentBox ph pt) p.
Proof.
  unfold Snake_Collides, qualifying.
  destruct (Snake.Head s) as [h [t|]]; cbn [Segment.Tail].
  - rewrite collidesFrom_iff.
    change (positions (Segment.mk h (Some t))) with (h :: positions t). split.
    + intros (i & ph & pt & H1 & H2 & H3). exists ph, pt. split; [|exact H3].
      exists (S i). repeat split; auto. lia.
    + intros (ph & pt & (i & Hi & H1 & H2) & H3).
      destruct i as [|i]; [lia|]. now exists i, ph, pt.
  - split; [discriminate|].
    intros (ph & pt & (i & Hi & H1 & H2) & _).
    destruct i as [|[|i]]; simpl in *; try lia; discriminate.
Qed.


(** C9. A snake of exactly two segments collides with no point: the only
    segment it has is the head-to-neck one, which is never tested. *)
Theorem two_segments_never_collide (s : Snake) (p : Point) :
  length (positions (Snake.Head s)) = 2%nat ->
  Snake_Collides s p = false.
Proof.
  intros Hlen. apply not_true_is_false. intros Hc.
  apply Snake_Collides_iff in Hc.
  destruct Hc as (ph & pt & (i & Hi & _ & Hnext) & _).
  assert (S i < length (positions (Snake.Head s)))%nat
    by (apply nth_error_Some; congruence).
  lia.
Qed.

Lemma NewSnake_two_segments (peer : Peer) :
  length (positions (Snake.Head (NewSnake peer))) = 2%nat.
Proof. reflexivity. Qed.

(** *** The score *)

(** C6. With invulnerability frames left the penalty changes nothing.
    Otherwise the window is set to [IFrames], the hunger counter is kept, a
    positive value loses floor(value/5)+1 and any other value is kept; a
    value that is not negative stays so.  A value of 12 becomes 9. *)
Theorem Score_Dec_penalty (s : Score) :
  inInt (Score.val s) ->
  (0 < Score.iframes s -> Score_Dec s = s)
  /\ (Score.iframes s <= 0 ->
      Score.iframes (Score_Dec s) = IFrames
      /\ Score.hunger (Score_Dec s) = Score.hunger s
      /\ (0 < Score.val s ->
          Score.val (Score_Dec s) = Score.val s - (Score.val s / 5 + 1))
      /\ (Score.val s <= 0 -> Score.val (Score_Dec s) = Score.val s))
  /\ (0 <= Score.val s -> 0 <= Score.val (Score_Dec s))
  /\ Score_Dec (Score.mk 12 0 (Score.hunger s)) = Score.mk 9 IFrames (Score.hunger s).
Proof.
  intros Hval. unfold inInt, intMin, intMax in Hval.
  assert (Hsub : 0 < Score.val s ->
            wrapInt (Score.val s - wrapInt (Z.quot (Score.val s) 5 + 1))
            = Score.val s - (Score.val s / 5 + 1)
            /\ 0 <= Score.val s - (Score.val s / 5 + 1)).
  { intros Hpos. rewrite Z.quot_div_nonneg by lia.
    pose proof (Z.div_mod (Score.val s) 5 ltac:(lia)) as Hdm.
    pose proof (Z.mod_pos_bound (Score.val s) 5 ltac:(lia)) as Hm.
    rewrite (wrapInt_id (Score.val s / 5 + 1)) by (unfold inInt, intMin, intMax; lia).
    rewrite wrapInt_id by (unfold inInt, intMin, intMax; lia). lia. }
  unfold Score_Dec. repeat split.
  - intros Hi. destruct (Z.gtb_spec (Score.iframes s) 0); [reflexivity | lia].
  - destruct (Z.gtb_spec (Score.iframes s) 0); [lia | reflexivity].
  - destruct (Z.gtb_spec (Score.iframes s) 0); [lia | reflexivity].
  - intros Hpos. destruct (Z.gtb_spec (Score.iframes s) 0); [lia |].
    cbn [Score.val]. destruct (Z.gtb_spec (Score.val s) 0); [|lia].
    now apply Hsub.
  - intros Hle. destruct (Z.gtb_spec (Score.iframes s) 0); [lia |].
    cbn [Score.val]. destruct (Z.gtb_spec (Score.val s) 0); [lia | reflexivity].
  - intros Hnn. destruct (Z.gtb_spec (Score.iframes s) 0); [exact Hnn |].
    cbn [Score.val]. destruct (Z.gtb_spec (Score.val s) 0); [|exact Hnn].
    destruct (Hsub ltac:(lia)) as [-> ?]. assumption.
Qed.

(** One call of [Score.Update] with counters still running and a snake off
    its own body takes one unit off both counters. *)
Lemma Score_Update_counts_down (sc : Score) (snake : Snake) :
  0 < Score.iframes sc -> inInt (Score.iframes sc) ->
  0 < Score.hunger sc -> inInt (Score.hunger sc) ->
  Snake_Collides snake (Snake.Mouth snake) = false ->
  Score_Update sc snake
  = Score.mk (Score.val sc) (Score.iframes sc - 1) (Score.hunger sc - 1).
Proof.
  intros Hi Hii Hh Hhi Hc. unfold inInt, intMin, intMax in *.
  unfold Score_Update. rewrite Hc.
  destruct (Z.gtb_spec (Score.iframes sc) 0); [|lia].
  cbn [Score.hunger Score.iframes Score.val].
  destruct (Z.eqb_spec (Score.hunger sc) 0); [lia|].
  rewrite !wrapInt_id by (unfold inInt, intMin, intMax; lia). reflexivity.
Qed.

(** *** The direction controller *)

Lemma Qle_bool_false (a b : Q) : Qle_bool a b = false -> (b < a)%Q.
Proof.
  intros H. apply Qnot_le_lt. intros Hle.
  apply Qle_bool_iff in Hle. congruence.
Qed.

Lemma maxDirDiff_pos : (0 < maxDirDiff)%Q.
Proof. reflexivity. Qed.

Lemma Tau_pos : (0 < Tau)%Q.
Proof. reflexivity. Qed.

(** [Tau] is a [float32], and rounding keeps a value on its side of 0 and
    of [Tau]. *)
Lemma round32_Tau : (round32 Tau == Tau)%Q.
Proof. vm_compute. reflexivity. Qed.

Lemma round32_nonneg (q : Q) : (0 <= q)%Q -> (0 <= round32 q)%Q.
Proof. intros H. exact (round32_le 0 q H). Qed.

Lemma round32_le_Tau (q : Q) : (q <= Tau)%Q -> (round32 q <= Tau)%Q.
Proof. intros H. apply round32_le in H. now rewrite round32_Tau in H. Qed.

(** Below 8 a rounding moves a value by at most 2^-22. *)
Lemma round32_error_8 (q : Q) :
  (Qabs q < 8)%Q -> (Qabs (round32 q - q) <= 1 # 4194304)%Q.
Proof. intros H. exact (round32_error q 2 ltac:(lia) H). Qed.

(** The angle before the final wrap: the old one plus a step of magnitude at
    most [maxDirDiff], rounded. *)
Lemma setDir_clamped (dir : Q) (f : float32) :
  IsNaN f = false ->
  exists delta : Q, (Qabs delta <= maxDirDiff)%Q /\
    (let dirDiff :=
       if fgt f Pi then Fin (- maxDirDiff)
       else if flt f (- Pi) then Fin maxDirDiff else f in
     if fgt dirDiff maxDirDiff then round32 (dir + maxDirDiff)
     else if flt dirDiff (- maxDirDiff) then round32 (dir - maxDirDiff)
     else match dirDiff with Fin d => round32 (dir + d) | _ => dir end)
    = round32 (dir + delta).
Proof.
  intros Hf. pose proof maxDirDiff_pos as Hm.
  assert (Hsmall : forall d : Q,
    exists delta : Q, (Qabs delta <= maxDirDiff)%Q /\
      (if fgt (Fin d) maxDirDiff then round32 (dir + maxDirDiff)
       else if flt (Fin d) (- maxDirDiff) then round32 (dir - maxDirDiff)
       else round32 (dir + d)) = round32 (dir + delta)).
  { intros d. cbn [fgt flt].
    destruct (Qle_bool d maxDirDiff) eqn:E1; cbn [negb].
    - destruct (Qle_bool (- maxDirDiff) d) eqn:E2; cbn [negb].
      + exists d. split; [|reflexivity].
        apply Qle_bool_iff in E1, E2. apply Qabs_Qle_condition. split; assumption.
      + exists (- maxDirDiff)%Q. split; [|reflexivity].
        apply Qabs_Qle_condition. split; lra.
    - exists maxDirDiff. split; [|reflexivity].
      apply Qabs_Qle_condition. split; lra. }
  destruct f as [|[|]|x]; try discriminate.
  - cbn [fgt]. apply (Hsmall (- maxDirDiff)%Q).
  - cbn [fgt flt negb]. apply (Hsmall maxDirDiff).
  - cbn zeta. destruct (fgt (Fin x) Pi); [apply (Hsmall (- maxDirDiff)%Q)|].
    destruct (flt (Fin x) (- Pi)); [apply (Hsmall maxDirDiff)|].
    apply (Hsmall x).
Qed.

(** C4.  One update of the direction controller, from an angle within one
    turn, moves the angle by at most [maxDirDiff] plus 2^-21 (the two
    [float32] roundings of the update, each of at most 2^-22), up to the
    final wrap by one full turn: whatever the pad's heading (finite,
    infinite or NaN), the new angle is the old one plus a step of magnitude
    at most [maxDirDiff] + 2^-21, plus or minus at most one [Tau]. *)
Theorem setDir_bounded_step (s : Snake) (pad : Pad) :
  (0 <= Snake.Dir s <= Tau)%Q ->
  exists (delta : Q) (k : Z),
    (Qabs delta <= maxDirDiff + (1 # 2097152))%Q
    /\ -1 <= k <= 1
    /\ (Snake.Dir (Snake_setDir s pad) == Snake.Dir s + delta + inject_Z k * Tau)%Q.
Proof.
  intros Hr. pose proof maxDirDiff_pos as Hm. pose proof Tau_pos as Ht.
  assert (HT8 : (Tau + maxDirDiff + (1 # 4194304) < 8)%Q) by reflexivity.
  unfold Snake_setDir.
  destruct (IsNaN (fsub (Radians pad) (Snake.Dir s))) eqn:Hnan.
  - exists 0%Q, 0. split; [|split; [lia|]].
    + apply Qabs_Qle_condition. split; lra.
    + change (inject_Z 0) with 0%Q. lra.
  - destruct (setDir_clamped (Snake.Dir s) _ Hnan) as (delta & Hd & Heq).
    cbn zeta in Heq |- *.
    set (dir1 := if fgt _ maxDirDiff then _ else _) in *.
    cbn [Snake.Dir Snake.set_Dir].
    apply Qabs_Qle_condition in Hd.
    assert (E1 : (Qabs (round32 (Snake.Dir s + delta) - (Snake.Dir s + delta))
                  <= 1 # 4194304)%Q).
    { apply round32_error_8. apply Qabs_Qlt_condition. split; lra. }
    rewrite <- Heq in E1. apply Qabs_Qle_condition in E1.
    clearbody dir1. clear Heq.
    destruct (Qle_bool 0 dir1) eqn:E0; cbn [negb].
    + apply Qle_bool_iff in E0.
      destruct (Qle_bool dir1 Tau) eqn:ET; cbn [negb].
      * exists (dir1 - Snake.Dir s)%Q, 0. split; [|split; [lia|]].
        -- apply Qabs_Qle_condition. split; lra.
        -- change (inject_Z 0) with 0%Q. lra.
      * apply Qle_bool_false in ET.
        assert (E2 : (Qabs (round32 (dir1 - Tau) - (dir1 - Tau)) <= 1 # 4194304)%Q).
        { apply round32_error_8. apply Qabs_Qlt_condition. split; lra. }
        apply Qabs_Qle_condition in E2.
        exists (round32 (dir1 - Tau) + Tau - Snake.Dir s)%Q, (-1).
        split; [|split; [lia|]].
        -- apply Qabs_Qle_condition. split; lra.
        -- change (inject_Z (-1)) with (-1 # 1)%Q. lra.
    + apply Qle_bool_false in E0.
      assert (E2 : (Qabs (round32 (dir1 + Tau) - (dir1 + Tau)) <= 1 # 4194304)%Q).
      { apply round32_error_8. apply Qabs_Qlt_condition. split; lra. }
      apply Qabs_Qle_condition in E2.
      assert (ET : Qle_bool (round32 (dir1 + Tau)) Tau = true).
      { apply Qle_bool_iff. apply round32_le_Tau. lra. }
      rewrite ET. cbn [negb].
      exists (round32 (dir1 + Tau) - Tau - Snake.Dir s)%Q, 1.
      split; [|split; [lia|]].
      * apply Qabs_Qle_condition. split; lra.
      * change (inject_Z 1) with (1 # 1)%Q. lra.
Qed.

(** An angle in the nominal range stays there. *)
Lemma setDir_in_range (s : Snake) (pad : Pad) :
  (0 <= Snake.Dir s <= Tau)%Q ->
  (0 <= Snake.Dir (Snake_setDir s pad) <= Tau)%Q.
Proof.
  intros Hr. pose proof maxDirDiff_pos as Hm.
  assert (HT8 : (Tau + maxDirDiff + (1 # 4194304) < 8)%Q) by reflexivity.
  assert (HmT : (maxDirDiff + (1 # 4194304) <= Tau)%Q) by (unfold Qle; simpl; lia).
  unfold Snake_setDir.
  destruct (IsNaN (fsub (Radians pad) (Snake.Dir s))) eqn:Hnan; [exact Hr|].
  destruct (setDir_clamped (Snake.Dir s) _ Hnan) as (delta & Hd & Heq).
  cbn zeta in Heq |- *.
  set (dir1 := if fgt _ maxDirDiff then _ else _) in *.
  cbn [Snake.Dir Snake.set_Dir].
  apply Qabs_Qle_condition in Hd.
  assert (E1 : (Qabs (round32 (Snake.Dir s + delta) - (Snake.Dir s + delta))
                <= 1 # 4194304)%Q).
  { apply round32_error_8. apply Qabs_Qlt_condition. split; lra. }
  rewrite <- Heq in E1. apply Qabs_Qle_condition in E1.
  clearbody dir1. clear Heq.
  destruct (Qle_bool 0 dir1) eqn:E0; cbn [negb].
  - apply Qle_bool_iff in E0.
    destruct (Qle_bool dir1 Tau) eqn:ET; cbn [negb].
    + apply Qle_bool_iff in ET. split; assumption.
    + apply Qle_bool_false in ET. split.
      * apply round32_nonneg. lra.
      * apply round32_le_Tau. lra.
  - apply Qle_bool_false in E0.
    assert (ET : Qle_bool (round32 (dir1 + Tau)) Tau = true).
    { apply Qle_bool_iff. apply round32_le_Tau. lra. }
    rewrite ET. cbn [negb]. split.
    + apply round32_nonneg. lra.
    + apply round32_le_Tau. lra.
Qed.

(** *** Apple placement *)

Lemma Collides_set_state (s : Snake) (st : State) (p : Point) :
  Snake_Collides (Snake.set_state s st) p = Snake_Collides s p.
Proof. reflexivity. Qed.

Lemma relocate_unfold (fuel : nat) (s : Snake) (a : Apple) (r : nat) :
  relocate fuel s a r =
  if Snake_Collides s (Apple.Pos a) then
    match fuel with
    | O => None
    | S fuel => relocate fuel s (fst (Apple_Move a r)) (snd (Apple_Move a r))
    end
  else Some (a, r).
Proof.
  destruct fuel; simpl; [reflexivity|].
  destruct (Apple_Move a r). reflexivity.
Qed.

Lemma moves_S (n : nat) (a : Apple) (r : nat) :
  moves (S n) a r = moves n (fst (Apple_Move a r)) (snd (Apple_Move a r)).
Proof. cbn [moves]. destruct (Apple_Move a r). reflexivity. Qed.

(** The loop stops on a clear position only. *)
Lemma relocate_clear (s : Snake) (fuel : nat) :
  forall a r a' r',
    relocate fuel s a r = Some (a', r') ->
    Snake_Collides s (Apple.Pos a') = false.
Proof.
  induction fuel as [|fuel IH]; intros a r a' r'; rewrite relocate_unfold;
    destruct (Snake_Collides s (Apple.Pos a)) eqn:Hc; try discriminate.
  - intros [= <- _]. exact Hc.
  - apply IH.
  - intros [= <- _]. exact Hc.
Qed.

(** The loop stops when some position within reach of the fuel is clear. *)
Lemma relocate_finds (s : Snake) (n : nat) :
  forall fuel a r,
    (n <= fuel)%nat ->
    Snake_Collides s (Apple.Pos (fst (moves n a r))) = false ->
    exists k, (k <= n)%nat /\ relocate fuel s a r = Some (moves k a r).
Proof.
  induction n as [|n IH]; intros fuel a r Hfuel Hclear; rewrite relocate_unfold.
  - simpl in Hclear. rewrite Hclear. now exists O.
  - destruct (Snake_Collides s (Apple.Pos a)) eqn:Hc; [|now exists O; split; [lia|]].
    destruct fuel as [|fuel]; [lia|].
    rewrite moves_S in Hclear.
    destruct (IH fuel _ _ ltac:(lia) Hclear) as (k & Hk & Hrel).
    exists (S k). split; [lia|]. rewrite moves_S. exact Hrel.
Qed.

(** C7. When an eat is registered, a result of [TryEat] carries an apple
    that does not collide with the eating snake, whose state is Eating.
    The retry loop has no bound of its own; it does return as soon as one of
    the positions the random device yields is clear. *)
Theorem TryEat_apple_clear (fuel : nat) (s : Snake) (a : Apple) (sc : Score) (r : nat) :
  eats s a = true ->
  (forall s' a' sc' r',
      Snake_TryEat fuel s a sc r = Some (s', a', sc', r') ->
      Snake.state s' = Eating
      /\ Snake_Collides s' (Apple.Pos a') = false
      /\ exists k, (1 <= k <= S fuel)%nat /\ (a', r') = moves k a r)
  /\ (forall n, (n <= fuel)%nat ->
      Snake_Collides s (Apple.Pos (fst (moves (S n) a r))) = false ->
      exists res, Snake_TryEat fuel s a sc r = Some res).
Proof.
  intros Heat. unfold eats in Heat. unfold Snake_TryEat. cbn zeta.
  rewrite Heat. cbn [negb]. split.
  - intros s' a' sc' r'. destruct (Apple_Move a r) as [a1 r1] eqn:Hm.
    destruct (relocate fuel (Snake.set_state s Eating) a1 r1) as [[a2 r2]|] eqn:Hrel;
      [|discriminate].
    intros [= <- <- _ <-]. split; [reflexivity|]. split.
    + apply (relocate_clear _ _ _ _ _ _ Hrel).
    + assert (Hk : exists k, (k <= fuel)%nat /\ (a2, r2) = moves k a1 r1).
      { clear Hm. revert a1 r1 Hrel. induction fuel as [|f IH]; intros a1 r1;
          rewrite relocate_unfold;
          destruct (Snake_Collides _ (Apple.Pos a1)); try discriminate.
        - intros [= <- <-]. now exists O.
        - intros Hrel. destruct (IH _ _ Hrel) as (k & Hk & E).
          exists (S k). split; [lia|]. rewrite moves_S. exact E.
        - intros [= <- <-]. exists O. split; [lia|reflexivity]. }
      destruct Hk as (k & Hk & E). exists (S k). split; [lia|].
      rewrite moves_S, Hm. exact E.
  - intros n Hn Hclear. rewrite moves_S in Hclear.
    destruct (Apple_Move a r) as [a1 r1]. cbn [fst snd] in Hclear.
    destruct (relocate_finds (Snake.set_state s Eating) n fuel a1 r1 Hn Hclear)
      as (k & _ & ->).
    destruct (moves k a1 r1). eauto.
Qed.

(** *** Conversions to [int] *)

Lemma Qtrunc_nonneg (q : Q) (n : Z) :
  (0 <= q)%Q -> (q <= inject_Z n)%Q -> 0 <= Qtrunc q <= n.
Proof.
  destruct q as [a b]. unfold Qle, Qtrunc. simpl. intros H0 Hn.
  rewrite Z.quot_div_nonneg by lia.
  split.
  - apply Z.div_pos; lia.
  - apply Z.div_le_upper_bound; lia.
Qed.

Lemma Qtrunc_nonpos (q : Q) (n : Z) :
  (q <= 0)%Q -> (- inject_Z n <= q)%Q -> - n <= Qtrunc q <= 0.
Proof.
  destruct q as [a b]. unfold Qle, Qtrunc. simpl. intros H0 Hn.
  replace a with (- (- a)) by lia. rewrite Z.quot_opp_l by lia.
  rewrite Z.quot_div_nonneg by lia.
  assert (0 <= - a / Z.pos b) by (apply Z.div_pos; lia).
  assert (- a / Z.pos b <= n) by (apply Z.div_le_upper_bound; lia).
  lia.
Qed.

Lemma Qtrunc_bounds (q : Q) (n : Z) :
  (- inject_Z n <= q)%Q -> (q <= inject_Z n)%Q -> - n <= Qtrunc q <= n.
Proof.
  intros Hlo Hhi. destruct (Qlt_le_dec q 0) as [Hneg | Hpos].
  - pose proof (Qtrunc_nonpos q n (Qlt_le_weak _ _ Hneg) Hlo). lia.
  - pose proof (Qtrunc_nonneg q n Hpos Hhi). lia.
Qed.

Lemma toInt_Fin_small (q : Q) :
  intMin <= Qtrunc q <= intMax -> toInt (Fin q) = Qtrunc q.
Proof. unfold toInt. lia. Qed.

(** *** The wrap invariant *)

Section Playfield.

(** The playfield holds the spawn column and a segment's length, with room
    to spare in an [int]; the trigonometric functions stay within [-1, 1] and
    [Hypot] is at least as large as each of its arguments. *)
Hypothesis Width_range : 2 * segmentLen < Width < 2 ^ 30.
Hypothesis Height_range : segmentLen <= Height < 2 ^ 30.
Hypothesis Cos_range : forall d : Q, (-1 <= Cos d <= 1)%Q.
Hypothesis Sin_range : forall d : Q, (-1 <= Sin d <= 1)%Q.
Hypothesis Hypot_dominates :
  forall x y : Q, (Qabs x <= Hypot x y)%Q /\ (Qabs y <= Hypot x y)%Q.

Lemma inMargin_inField (p : Point) : inMargin p -> inField p.
Proof. unfold inMargin, inField, appleRadius. lia. Qed.

Lemma normalizeX_range (x : Z) :
  - segmentLen <= x < Width + segmentLen -> 0 <= normalizeX x < Width.
Proof.
  unfold normalizeX, segmentLen in *. intros Hx.
  destruct (Z.geb_spec x Width).
  - rewrite wrapInt_id by (unfold inInt, intMin, intMax; lia). lia.
  - destruct (Z.ltb_spec x 0); [|lia].
    rewrite wrapInt_id by (unfold inInt, intMin, intMax; lia). lia.
Qed.

Lemma normalizeY_range (y : Z) :
  - segmentLen <= y < Height + segmentLen -> 0 <= normalizeY y < Height.
Proof.
  unfold normalizeY, segmentLen in *. intros Hy.
  destruct (Z.geb_spec y Height).
  - rewrite wrapInt_id by (unfold inInt, intMin, intMax; lia). lia.
  - destruct (Z.ltb_spec y 0); [|lia].
    rewrite wrapInt_id by (unfold inInt, intMin, intMax; lia). lia.
Qed.

(** A step of at most a segment's length along a unit-bounded direction. *)
Lemma step_bounds (c len : Q) :
  (-1 <= c <= 1)%Q -> (- ofInt segmentLen <= len <= ofInt segmentLen)%Q ->
  - segmentLen <= toInt (Fin (c * len)) <= segmentLen.
Proof.
  intros Hc Hl. unfold ofInt in *.
  assert (Hb : - segmentLen <= Qtrunc (c * len) <= segmentLen).
  { apply Qtrunc_bounds; change (inject_Z segmentLen) with 14%Q in *; nra. }
  rewrite toInt_Fin_small; [exact Hb|].
  unfold intMin, intMax, segmentLen in *. lia.
Qed.

Lemma project_inField (from : Point) (dir len : Q) :
  inField from -> (- ofInt segmentLen <= len <= ofInt segmentLen)%Q ->
  inField (project from dir len).
Proof.
  intros [Hx Hy] Hl. unfold project, inField. cbn [X Y].
  pose proof (step_bounds (Cos dir) len (Cos_range dir) Hl) as Hcx.
  pose proof (step_bounds (Sin dir) len (Sin_range dir) Hl) as Hsy.
  unfold segmentLen in *.
  rewrite !wrapInt_id by (unfold inInt, intMin, intMax; lia).
  split; [apply normalizeX_range | apply normalizeY_range];
    unfold segmentLen; lia.
Qed.

Lemma Forall_removelast {A : Type} (P : A -> Prop) (l : list A) :
  Forall P l -> Forall P (removelast l).
Proof.
  induction 1 as [|x l Hx Hl IH]; [constructor|].
  destruct l as [|y l]; [constructor|].
  change (removelast (x :: y :: l)) with (x :: removelast (y :: l)).
  now constructor.
Qed.

Lemma head_inField (seg : Segment) :
  Forall inField (positions seg) -> inField (Segment.Head seg).
Proof.
  destruct (positions_head seg) as [rest ->]. now inversion 1.
Qed.

Lemma segmentLen_self : (- ofInt segmentLen <= ofInt segmentLen <= ofInt segmentLen)%Q.
Proof. split; [discriminate | apply Qle_refl]. Qed.

Lemma shift_inField (s : Snake) :
  snakeInField s -> snakeInField (Snake_shift s).
Proof.
  intros (Hpos & Hm & He).
  pose proof (project_inField _ (Snake.Dir s) _ (head_inField _ Hpos) segmentLen_self)
    as Hhead.
  unfold snakeInField, Snake_shift.
  destruct (Snake.state s);
    cbn [Snake.Head Snake.Mouth Snake.Eye Snake.set_Head Snake.set_state];
    (split; [|split; assumption]);
    rewrite ?shiftChain_positions; cbn [positions];
    (constructor; [exact Hhead|]); auto using Forall_removelast.
Qed.

(** The mouth is at most nine tenths of a segment ahead of the neck,
    whatever the frame counter holds. *)
Lemma headLen_bounds (frame : Z) :
  (- ofInt segmentLen
   <= ofInt segmentLen * ofInt (Z.rem frame period) / ofInt period
   <= ofInt segmentLen)%Q.
Proof.
  pose proof (Z.rem_bound_abs frame period ltac:(discriminate)) as Hr.
  unfold period, segmentLen, ofInt in *.
  assert (H1 : (inject_Z (-9) <= inject_Z (Z.rem frame 10))%Q)
    by (rewrite <- Zle_Qle; lia).
  assert (H2 : (inject_Z (Z.rem frame 10) <= inject_Z 9)%Q)
    by (rewrite <- Zle_Qle; lia).
  change (inject_Z (-9)) with (-9 # 1)%Q in H1.
  change (inject_Z 9) with 9%Q in H2.
  change (inject_Z 14) with 14%Q. change (inject_Z 10) with 10%Q.
  split.
  - apply Qle_shift_div_l; [reflexivity | lra].
  - apply Qle_shift_div_r; [reflexivity | lra].
Qed.

Lemma updateMouth_inField (s : Snake) (frame : Z) :
  snakeInField s -> snakeInField (Snake_updateMouth s (Z.rem frame period)).
Proof.
  intros (Hpos & Hm & He). unfold snakeInField, Snake_updateMouth.
  cbn [Snake.Head Snake.Mouth Snake.Eye Snake.set_Mouth].
  split; [assumption|]. split; [|assumption].
  apply project_inField; auto using head_inField, headLen_bounds.
Qed.

Lemma setDir_inField (s : Snake) (pad : Pad) :
  snakeInField s -> snakeInField (Snake_setDir s pad).
Proof.
  unfold Snake_setDir.
  destruct (IsNaN (fsub (Radians pad) (Snake.Dir s))); auto.
Qed.

(** The eye's offset along one axis: at most three units toward the apple,
    none when the apple is level with the mouth. *)
Lemma look_offset (look : Z) (len : Q) :
  inInt look -> (Qabs (ofInt look) <= len)%Q ->
  let d := toInt (fdiv (ofInt look * 3) len) in
  (0 < look -> 0 <= d <= 3) /\ (look < 0 -> -3 <= d <= 0) /\ (look = 0 -> d = 0).
Proof.
  intros Hl Hlen. unfold fdiv, ofInt in *.
  assert (Habs := Qabs_nonneg (inject_Z look)).
  apply Qabs_Qle_condition in Hlen. destruct Hlen as [Hlo Hhi].
  destruct (Qeq_bool len 0) eqn:Elen.
  - apply Qeq_bool_iff in Elen.
    assert (Hz : look = 0).
    { rewrite Elen in Hlo, Hhi.
      change 0%Q with (inject_Z 0) in Hlo, Hhi.
      change (- inject_Z 0)%Q with (inject_Z 0) in Hlo.
      rewrite <- Zle_Qle in Hlo, Hhi. lia. }
    subst look. cbn. lia.
  - assert (Hpos : (0 < len)%Q).
    { apply Qeq_bool_neq in Elen.
      destruct (Qlt_le_dec 0 len) as [|Hle]; [assumption|].
      exfalso. apply Elen. lra. }
    assert (Hq : (- inject_Z 3 <= inject_Z look * 3 / len <= inject_Z 3)%Q).
    { change (inject_Z 3) with 3%Q. split.
      - apply Qle_shift_div_l; [assumption | lra].
      - apply Qle_shift_div_r; [assumption | lra]. }
    assert (Hsmall : forall z, -3 <= z <= 3 -> intMin <= z <= intMax)
      by (unfold intMin, intMax; lia).
    cbn zeta. split; [|split]; intros Hsign.
    + assert (H0 : (0 <= inject_Z look * 3 / len)%Q).
      { apply Qle_shift_div_l; [assumption|].
        assert (inject_Z 0 <= inject_Z look)%Q by (rewrite <- Zle_Qle; lia).
        change (inject_Z 0) with 0%Q in *. lra. }
      pose proof (Qtrunc_nonneg _ 3 H0 (proj2 Hq)).
      rewrite toInt_Fin_small by (apply Hsmall; lia). lia.
    + assert (H0 : (inject_Z look * 3 / len <= 0)%Q).
      { apply Qle_shift_div_r; [assumption|].
        assert (inject_Z look <= inject_Z 0)%Q by (rewrite <- Zle_Qle; lia).
        change (inject_Z 0) with 0%Q in *. lra. }
      pose proof (Qtrunc_nonpos _ 3 H0 (proj1 Hq)).
      rewrite toInt_Fin_small by (apply Hsmall; lia). lia.
    + subst look. change (inject_Z 0 * 3 / len)%Q with (0 * 3 / len)%Q.
      assert (E : (0 * 3 / len == 0)%Q) by (unfold Qdiv; ring).
      assert (Qtrunc (0 * 3 / len) = 0).
      { assert (Hlo0 : (0 <= 0 * 3 / len)%Q) by (rewrite E; apply Qle_refl).
        assert (Hhi0 : (0 * 3 / len <= inject_Z 0)%Q) by (rewrite E; apply Qle_refl).
        pose proof (Qtrunc_nonneg _ 0 Hlo0 Hhi0). lia. }
      rewrite toInt_Fin_small by (apply Hsmall; lia). assumption.
Qed.

Lemma updateEye_fields (s : Snake) (apple : Point) (r : nat) :
  let s' := fst (Snake_updateEye s apple r) in
  Snake.Head s' = Snake.Head s
  /\ Snake.Mouth s' = Snake.Mouth s
  /\ Snake.Eye s' =
     mkPoint
       (wrapInt (X (Snake.Mouth s)
                 + toInt (fdiv (ofInt (wrapInt (X apple - X (Snake.Mouth s))) * 3)
                            (Hypot (ofInt (wrapInt (X apple - X (Snake.Mouth s))))
                                   (ofInt (wrapInt (Y apple - Y (Snake.Mouth s))))))))
       (wrapInt (Y (Snake.Mouth s)
                 + toInt (fdiv (ofInt (wrapInt (Y apple - Y (Snake.Mouth s))) * 3)
                            (Hypot (ofInt (wrapInt (X apple - X (Snake.Mouth s))))
                                   (ofInt (wrapInt (Y apple - Y (Snake.Mouth s)))))))).
Proof.
  unfold Snake_updateEye, GetRandom. cbn zeta.
  match goal with |- context [if ?c then _ else _] => destruct c end;
    cbn [fst Snake.Head Snake.Mouth Snake.Eye Snake.set_Blink Snake.set_Eye];
    repeat split.
Qed.

(** The eye stays on the playfield: it moves at most three units from the
    mouth, toward an apple that keeps a margin of five. *)
Lemma updateEye_inField (s : Snake) (apple : Point) (r : nat) :
  snakeInField s -> inMargin apple ->
  snakeInField (fst (Snake_updateEye s apple r)).
Proof.
  intros (Hpos & Hm & He) Ha.
  destruct (updateEye_fields s apple r) as (EH & EM & EE).
  unfold snakeInField. rewrite EH, EM, EE. clear EH EM EE.
  split; [assumption|]. split; [assumption|].
  destruct Hm as [Hmx Hmy]. destruct Ha as [Hax Hay]. unfold appleRadius in *.
  set (lx := wrapInt (X apple - X (Snake.Mouth s))).
  set (ly := wrapInt (Y apple - Y (Snake.Mouth s))).
  assert (Elx : lx = X apple - X (Snake.Mouth s))
    by (apply wrapInt_id; unfold inInt, intMin, intMax; lia).
  assert (Ely : ly = Y apple - Y (Snake.Mouth s))
    by (apply wrapInt_id; unfold inInt, intMin, intMax; lia).
  destruct (Hypot_dominates (ofInt lx) (ofInt ly)) as [Hdx Hdy].
  assert (Hix : inInt lx) by (unfold inInt, intMin, intMax; lia).
  assert (Hiy : inInt ly) by (unfold inInt, intMin, intMax; lia).
  destruct (look_offset lx _ Hix Hdx) as (Hx1 & Hx2 & Hx3).
  destruct (look_offset ly _ Hiy Hdy) as (Hy1 & Hy2 & Hy3).
  cbn zeta in *.
  set (dx := toInt (fdiv (ofInt lx * 3) (Hypot (ofInt lx) (ofInt ly)))) in *.
  set (dy := toInt (fdiv (ofInt ly * 3) (Hypot (ofInt lx) (ofInt ly)))) in *.
  assert (Hdxr : 0 <= X (Snake.Mouth s) + dx < Width) by lia.
  assert (Hdyr : 0 <= Y (Snake.Mouth s) + dy < Height) by lia.
  unfold inField. cbn [X Y].
  rewrite !wrapInt_id by (unfold inInt, intMin, intMax; lia).
  split; assumption.
Qed.

Lemma Snake_Update_inField (ReadPad : Peer -> Pad * bool)
    (s : Snake) (frame : Z) (a : Apple) (r : nat) :
  snakeInField s -> inMargin (Apple.Pos a) ->
  snakeInField (fst (Snake_Update ReadPad s frame a r)).
Proof.
  intros Hs Ha. unfold Snake_Update. cbn zeta.
  destruct (ReadPad (Snake.Peer s)) as [pad pressed].
  apply updateEye_inField; [|assumption].
  apply updateMouth_inField.
  destruct (Z.rem frame period =? 0); destruct pressed;
    auto using shift_inField, setDir_inField.
Qed.

Lemma Apple_Move_inMargin (a : Apple) (r : nat) :
  inMargin (Apple.Pos (fst (Apple_Move a r))).
Proof.
  unfold Apple_Move, GetRandom, inMargin, wrapUint32, appleRadius.
  cbn [fst Apple.Pos X Y].
  rewrite (Z.mod_small (Width - 5 * 2)), (Z.mod_small (Height - 5 * 2))
    by (unfold segmentLen in *; lia).
  pose proof (Z.mod_pos_bound (randomSource r mod 2 ^ 32) (Width - 5 * 2)
                ltac:(unfold segmentLen in *; lia)).
  pose proof (Z.mod_pos_bound (randomSource (S r) mod 2 ^ 32) (Height - 5 * 2)
                ltac:(unfold segmentLen in *; lia)).
  rewrite !wrapInt_id by (unfold inInt, intMin, intMax;
                          rewrite ?wrapInt_id by (unfold inInt, intMin, intMax; lia); lia).
  lia.
Qed.

Lemma moves_inMargin (n : nat) :
  forall a r, inMargin (Apple.Pos a) -> inMargin (Apple.Pos (fst (moves n a r))).
Proof.
  induction n as [|n IH]; intros a r Ha; [exact Ha|].
  rewrite moves_S. apply IH, Apple_Move_inMargin.
Qed.

Lemma relocate_moves (s : Snake) (fuel : nat) :
  forall a r res, relocate fuel s a r = Some res -> exists k, res = moves k a r.
Proof.
  induction fuel as [|fuel IH]; intros a r res; rewrite relocate_unfold;
    destruct (Snake_Collides s (Apple.Pos a)); try discriminate.
  - intros [= <-]. now exists O.
  - intros Hrel. destruct (IH _ _ _ Hrel) as (k & ->).
    exists (S k). now rewrite moves_S.
  - intros [= <-]. now exists O.
Qed.

Lemma TryEat_inField (fuel : nat) (s : Snake) (a : Apple) (sc : Score) (r : nat)
    (s' : Snake) (a' : Apple) (sc' : Score) (r' : nat) :
  snakeInField s -> inMargin (Apple.Pos a) ->
  Snake_TryEat fuel s a sc r = Some (s', a', sc', r') ->
  snakeInField s' /\ inMargin (Apple.Pos a').
Proof.
  intros Hs Ha. unfold Snake_TryEat. cbn zeta.
  match goal with |- context [if ?c then _ else _] => destruct c end.
  - intros [= <- <- _ _]. now split.
  - destruct (Apple_Move a r) as [a1 r1] eqn:Hm.
    destruct (relocate fuel (Snake.set_state s Eating) a1 r1) as [[a2 r2]|] eqn:Hrel;
      [|discriminate].
    intros [= <- <- _ _]. split; [exact Hs|].
    destruct (relocate_moves _ _ _ _ _ Hrel) as (k & E).
    replace a2 with (fst (moves k a1 r1)) by now rewrite <- E.
    apply moves_inMargin.
    replace a1 with (fst (Apple_Move a r)) by now rewrite Hm.
    apply Apple_Move_inMargin.
Qed.

Lemma updateSnakes_inField (fuel : nat) (ReadPad : Peer -> Pad * bool) (frame : Z)
    (ss : list Snake) :
  forall a sc r ss' a' sc' r',
    Forall snakeInField ss -> inMargin (Apple.Pos a) ->
    updateSnakes fuel ReadPad frame ss a sc r = Some (ss', a', sc', r') ->
    Forall snakeInField ss' /\ inMargin (Apple.Pos a').
Proof.
  induction ss as [|s ss IH]; intros a sc r ss' a' sc' r' Hss Ha; cbn [updateSnakes].
  - intros [= <- <- _ _]. now split.
  - inversion Hss as [|? ? Hs Hrest]; subst.
    pose proof (Snake_Update_inField ReadPad s frame a r Hs Ha) as Hs1.
    destruct (Snake_Update ReadPad s frame a r) as [s1 r1]. cbn [fst] in Hs1.
    destruct (Snake_TryEat fuel s1 a sc r1) as [[[[s2 a2] sc2] r2]|] eqn:Heat;
      [|discriminate].
    destruct (TryEat_inField _ _ _ _ _ _ _ _ _ Hs1 Ha Heat) as [Hs2 Ha2].
    destruct (updateSnakes fuel ReadPad frame ss a2 (Score_Update sc2 s2) r2)
      as [[[[ss3 a3] sc3] r3]|] eqn:Hrec; [|discriminate].
    intros [= <- <- _ _].
    destruct (IH _ _ _ _ _ _ _ Hrest Ha2 Hrec) as [Hss3 Ha3].
    split; [constructor|]; assumption.
Qed.

Lemma NewSnake_inField (peer : Peer) :
  spawnsInField peer -> snakeInField (NewSnake peer).
Proof.
  unfold spawnsInField, snakeInField, NewSnake, inField, snakeWidth, segmentLen in *.
  intros [H0 Hrow].
  cbn [Snake.Head Snake.Mouth Snake.Eye positions X Y].
  rewrite (wrapInt_id peer) by (unfold inInt, intMin, intMax; lia).
  rewrite (wrapInt_id (peer * 20)) by (unfold inInt, intMin, intMax; lia).
  rewrite wrapInt_id by (unfold inInt, intMin, intMax; lia).
  repeat constructor; cbn [X Y]; lia.
Qed.

Lemma boot_invariant (peers : list Peer) :
  Forall spawnsInField peers -> wrapInvariant (boot peers).
Proof.
  intros Hp. unfold boot, NewApple.
  pose proof (Apple_Move_inMargin (Apple.mk (mkPoint 0 0)) O) as Ha.
  destruct (Apple_Move (Apple.mk (mkPoint 0 0)) O) as [a r]. cbn [fst] in Ha.
  split; cbn [Game.snakes Game.apple]; [|exact Ha].
  induction Hp; cbn [map]; constructor; auto using NewSnake_inField.
Qed.

Lemma update_invariant (fuel : nat) (ReadPad : Peer -> Pad * bool) (g g' : Game) :
  wrapInvariant g -> update fuel ReadPad g = Some g' -> wrapInvariant g'.
Proof.
  intros [Hs Ha]. unfold update. cbn zeta.
  destruct (updateSnakes _ _ _ _ _ _ _) as [[[[ss a] sc] r]|] eqn:Hu; [|discriminate].
  intros [= <-]. exact (updateSnakes_inField _ _ _ _ _ _ _ _ _ _ _ Hs Ha Hu).
Qed.

Lemma cheat_invariant (c v : Z) (g : Game) :
  wrapInvariant g -> wrapInvariant (fst (cheat c v g)).
Proof.
  intros [Hs Ha]. unfold cheat.
  destruct c as [|[[p|p|]|[p|p|]|]|p]; try (now split).
  pose proof (Apple_Move_inMargin (Game.apple g) (Game.rng g)) as Hm.
  destruct (Apple_Move (Game.apple g) (Game.rng g)). now split.
Qed.

Lemma reachable_invariant (peers : list Peer) (g : Game) :
  Forall spawnsInField peers -> Reachable peers g -> wrapInvariant g.
Proof.
  intros Hp [n Hn]. induction Hn as [|n fuel ReadPad g g' _ IH Hu|n c v g _ IH].
  - now apply boot_invariant.
  - exact (update_invariant _ _ _ _ IH Hu).
  - now apply cheat_invariant.
Qed.

(** C2, as the code has it.  On a playfield that holds the spawn column and
    a segment's length, and with every snake spawned on a row of the
    playfield, every coordinate of every reachable state (the segments'
    positions, the mouth, the eye and the apple) lies within
    [0, Width) x [0, Height). *)
Theorem reachable_coords_in_field (peers : list Peer) (g : Game) :
  Forall spawnsInField peers -> Reachable peers g -> coordsInField g.
Proof.
  intros Hp Hr. destruct (reachable_invariant peers g Hp Hr) as [Hs Ha].
  split; [exact Hs | now apply inMargin_inField].
Qed.

End Playfield.

(** *** The score under the orchestrator *)

Lemma Score_Dec_invulnerable (sc : Score) :
  0 < Score.iframes sc -> Score_Dec sc = sc.
Proof.
  intros Hi. unfold Score_Dec.
  destruct (Z.gtb_spec (Score.iframes sc) 0); [reflexivity | lia].
Qed.

(** One call of [Score.Update] takes one unit off an invulnerability counter
    that holds more than one, whatever the snake. *)
Lemma Score_Update_iframes (sc : Score) (snake : Snake) :
  1 < Score.iframes sc -> inInt (Score.iframes sc) ->
  Score.iframes (Score_Update sc snake) = Score.iframes sc - 1
  /\ Score.val (Score_Update sc snake) = Score.val sc.
Proof.
  intros Hi Hii. unfold inInt, intMin, intMax in Hii. unfold Score_Update.
  destruct (Z.gtb_spec (Score.iframes sc) 0); [|lia].
  cbn [Score.hunger Score.iframes Score.val].
  rewrite wrapInt_id by (unfold inInt, intMin, intMax; lia).
  set (sc1 := Score.mk (Score.val sc) (Score.iframes sc - 1) (Score.hunger sc)).
  assert (Hdec : Score_Dec sc1 = sc1) by (apply Score_Dec_invulnerable; simpl; lia).
  rewrite Hdec.
  destruct (Score.hunger sc =? 0); cbn [Score.iframes Score.val];
    match goal with |- context [if ?c then _ else _] => destruct c end;
    rewrite ?Score_Dec_invulnerable by (simpl; lia); split; reflexivity.
Qed.

Lemma TryEat_iframes (fuel : nat) (s : Snake) (a : Apple) (sc : Score) (r : nat)
    (s' : Snake) (a' : Apple) (sc' : Score) (r' : nat) :
  Snake_TryEat fuel s a sc r = Some (s', a', sc', r') ->
  Score.iframes sc' = Score.iframes sc.
Proof.
  unfold Snake_TryEat. cbn zeta.
  match goal with |- context [if ?c then _ else _] => destruct c end.
  - now intros [= _ _ <- _].
  - destruct (Apple_Move a r) as [a1 r1].
    destruct (relocate fuel _ a1 r1) as [[a2 r2]|]; [|discriminate].
    now intros [= _ _ <- _].
Qed.

(** The loop over the snakes takes one unit off the invulnerability counter
    for every snake. *)
Lemma updateSnakes_iframes (fuel : nat) (ReadPad : Peer -> Pad * bool) (frame : Z)
    (ss : list Snake) :
  forall a sc r ss' a' sc' r',
    Z.of_nat (length ss) < Score.iframes sc -> inInt (Score.iframes sc) ->
    updateSnakes fuel ReadPad frame ss a sc r = Some (ss', a', sc', r') ->
    Score.iframes sc' = Score.iframes sc - Z.of_nat (length ss)
    /\ length ss' = length ss.
Proof.
  induction ss as [|s ss IH]; intros a sc r ss' a' sc' r' Hlen Hint; cbn [updateSnakes].
  - intros [= <- _ <- _]. simpl. split; [lia | reflexivity].
  - destruct (Snake_Update ReadPad s frame a r) as [s1 r1].
    destruct (Snake_TryEat fuel s1 a sc r1) as [[[[s2 a2] sc2] r2]|] eqn:Heat;
      [|discriminate].
    pose proof (TryEat_iframes _ _ _ _ _ _ _ _ _ Heat) as Hi2.
    destruct (updateSnakes fuel ReadPad frame ss a2 (Score_Update sc2 s2) r2)
      as [[[[ss3 a3] sc3] r3]|] eqn:Hrec; [|discriminate].
    intros [= <- _ <- _].
    change (length (s :: ss)) with (S (length ss)) in *.
    destruct (Score_Update_iframes sc2 s2) as [Hi3 _];
      [lia | now rewrite Hi2 |].
    assert (Hlen' : Z.of_nat (length ss) < Score.iframes (Score_Update sc2 s2)) by lia.
    assert (Hint' : inInt (Score.iframes (Score_Update sc2 s2)))
      by (unfold inInt, intMin, intMax in *; lia).
    destruct (IH _ _ _ _ _ _ _ Hlen' Hint' Hrec) as [Hi4 Hl4].
    split; [lia | simpl; congruence].
Qed.

(** C1, as the code has it.  One invocation of [update] takes as many units
    off the shared invulnerability counter as there are snakes: the score is
    advanced once for every snake, not once for the frame. *)
Theorem update_iframes_per_snake (fuel : nat) (ReadPad : Peer -> Pad * bool) (g g' : Game) :
  Z.of_nat (length (Game.snakes g)) < Score.iframes (Game.score g) ->
  inInt (Score.iframes (Game.score g)) ->
  update fuel ReadPad g = Some g' ->
  Score.iframes (Game.score g')
  = Score.iframes (Game.score g) - Z.of_nat (length (Game.snakes g)).
Proof.
  intros Hlen Hint. unfold update. cbn zeta.
  destruct (updateSnakes _ _ _ _ _ _ _) as [[[[ss a] sc] r]|] eqn:Hu; [|discriminate].
  intros [= <-]. cbn [Game.score].
  exact (proj1 (updateSnakes_iframes _ _ _ _ _ _ _ _ _ _ _ Hlen Hint Hu)).
Qed.

Lemma frames_AfterFrames (peers : list Peer) (fuel : nat)
    (ReadPad : Peer -> Pad * bool) (n : nat) :
  forall k g g',
    AfterFrames peers k g -> frames fuel ReadPad n g = Some g' ->
    AfterFrames peers (n + k) g'.
Proof.
  induction n as [|n IH]; intros k g g' Hk; cbn [frames].
  - now intros [= <-].
  - destruct (update fuel ReadPad g) as [g1|] eqn:Hu; [|discriminate].
    intros Hf. rewrite Nat.add_succ_comm.
    apply (IH _ g1); [|exact Hf]. exact (After_update _ _ _ _ _ _ Hk Hu).
Qed.

Lemma iter_Inc_iframes (n : nat) (sc : Score) :
  Score.iframes (Nat.iter n Score_Inc sc) = Score.iframes sc.
Proof. induction n as [|n IH]; [reflexivity | exact IH]. Qed.

Lemma iter_Dec_invulnerable (n : nat) (sc : Score) :
  0 < Score.iframes sc -> Nat.iter n Score_Dec sc = sc.
Proof.
  intros Hi. induction n as [|n IH]; [reflexivity|].
  change (Nat.iter (S n) Score_Dec sc) with (Score_Dec (Nat.iter n Score_Dec sc)).
  rewrite IH. now apply Score_Dec_invulnerable.
Qed.

Lemma cheat_iframes (c v : Z) (g : Game) :
  0 < Score.iframes (Game.score g) ->
  Score.iframes (Game.score (fst (cheat c v g))) = Score.iframes (Game.score g)
  /\ Game.snakes (fst (cheat c v g)) = Game.snakes g.
Proof.
  intros Hi. unfold cheat.
  destruct c as [|[[p|p|]|[p|p|]|]|p]; try (now split);
    cbn [fst Game.score Game.snakes].
  - rewrite iter_Dec_invulnerable by exact Hi. now split.
  - rewrite iter_Inc_iframes. now split.
Qed.

(** While the counter set at boot runs, it has lost one unit for every snake
    and frame: it lasts IFrames frames divided by the number of snakes. *)
Lemma AfterFrames_iframes (peers : list Peer) (n : nat) (g : Game) :
  AfterFrames peers n g ->
  Z.of_nat (n * length peers) < IFrames ->
  Score.iframes (Game.score g) = IFrames - Z.of_nat (n * length peers)
  /\ length (Game.snakes g) = length peers.
Proof.
  induction 1 as [|n fuel ReadPad g g' _ IH Hu|n c v g _ IH]; intros Hlt.
  - unfold boot, NewApple. destruct (Apple_Move _ _).
    cbn [Game.score Game.snakes Score.iframes NewScore]. rewrite length_map.
    split; [lia | reflexivity].
  - destruct IH as [Hi Hl]; [lia|].
    revert Hu. unfold update. cbn zeta.
    destruct (updateSnakes _ _ _ _ _ _ _) as [[[[ss a] sc] r]|] eqn:Hs; [|discriminate].
    intros [= <-]. cbn [Game.score Game.snakes].
    unfold IFrames in *.
    destruct (updateSnakes_iframes _ _ _ _ _ _ _ _ _ _ _
                ltac:(rewrite Hi, Hl; lia)
                ltac:(rewrite Hi; unfold inInt, intMin, intMax; lia) Hs) as [Hi' Hl'].
    split; [lia | congruence].
  - destruct IH as [Hi Hl]; [lia|].
    destruct (cheat_iframes c v g) as [Hi' Hs']; [unfold IFrames in *; lia|].
    split; congruence.
Qed.

(** With a single snake, no penalty takes a point off the value before the
    sixtieth frame. *)
Lemma single_snake_boot_invulnerable (peer : Peer) (n : nat) (g : Game) :
  AfterFrames [peer] n g -> (n < 60)%nat ->
  Score_Dec (Game.score g) = Game.score g.
Proof.
  intros Hr Hn. apply Score_Dec_invulnerable.
  destruct (AfterFrames_iframes _ _ _ Hr) as [Hi _];
    cbn [length] in *; unfold IFrames in *; lia.
Qed.

(** *** More on the score *)

(** A second penalty right after a first one changes nothing: the first
    opens the invulnerability window. *)
Lemma Score_Dec_twice (sc : Score) :
  Score_Dec (Score_Dec sc) = Score_Dec sc.
Proof.
  destruct (Z.lt_ge_cases 0 (Score.iframes sc)) as [Hi | Hi].
  - rewrite (Score_Dec_invulnerable sc Hi). exact (Score_Dec_invulnerable sc Hi).
  - apply Score_Dec_invulnerable. unfold Score_Dec.
    destruct (Z.gtb_spec (Score.iframes sc) 0); [lia|]. reflexivity.
Qed.

Lemma iter_Dec_once (n : nat) (sc : Score) :
  Nat.iter (S n) Score_Dec sc = Score_Dec sc.
Proof.
  induction n as [|n IH]; [reflexivity|].
  change (Nat.iter (S (S n)) Score_Dec sc)
    with (Score_Dec (Nat.iter (S n) Score_Dec sc)).
  rewrite IH. apply Score_Dec_twice.
Qed.

(** The penalty cheat applies one penalty at most, whatever the count asked
    for, and none for a count below one; it returns the value left. *)
Theorem cheat_penalty_once (v : Z) (g : Game) :
  let g' := fst (cheat 3 v g) in
  Game.score g' = (if 0 <? v then Score_Dec (Game.score g) else Game.score g)
  /\ snd (cheat 3 v g) = Score.val (Game.score g')
  /\ Game.frame g' = Game.frame g /\ Game.apple g' = Game.apple g
  /\ Game.snakes g' = Game.snakes g /\ Game.rng g' = Game.rng g.
Proof.
  cbn [cheat fst snd Game.score Game.frame Game.apple Game.snakes Game.rng].
  repeat split.
  destruct (Z.ltb_spec 0 v) as [Hv | Hv].
  - destruct (Z.to_nat v) as [|n] eqn:E; [lia|]. apply iter_Dec_once.
  - replace (Z.to_nat v) with O by lia. reflexivity.
Qed.

Lemma iter_Inc (n : nat) (sc : Score) :
  Score.val sc + Z.of_nat n <= intMax -> inInt (Score.val sc) ->
  Nat.iter n Score_Inc sc
  = match n with
    | O => sc
    | S _ => Score.mk (Score.val sc + Z.of_nat n) (Score.iframes sc) HungerPeriod
    end.
Proof.
  unfold inInt, intMin, intMax. intros Hmax Hval.
  induction n as [|n IH]; [reflexivity|].
  change (Nat.iter (S n) Score_Inc sc) with (Score_Inc (Nat.iter n Score_Inc sc)).
  rewrite IH by lia. unfold Score_Inc.
  destruct n as [|n]; cbn [Score.val Score.iframes Score.hunger];
    rewrite wrapInt_id by (unfold inInt, intMin, intMax; lia); f_equal; lia.
Qed.

(** The reward cheat adds the count asked for to the value and restarts the
    hunger countdown, as long as the value stays an [int]; a count below one
    changes nothing. *)
Theorem cheat_reward_adds (v : Z) (g : Game) :
  inInt (Score.val (Game.score g)) ->
  Score.val (Game.score g) + v <= intMax ->
  let g' := fst (cheat 2 v g) in
  Game.score g'
  = (if 0 <? v
     then Score.mk (Score.val (Game.score g) + v)
                   (Score.iframes (Game.score g)) HungerPeriod
     else Game.score g)
  /\ snd (cheat 2 v g) = Score.val (Game.score g')
  /\ Game.snakes g' = Game.snakes g /\ Game.apple g' = Game.apple g.
Proof.
  intros Hval Hmax.
  cbn [cheat fst snd Game.score Game.frame Game.apple Game.snakes Game.rng].
  repeat split.
  destruct (Z.ltb_spec 0 v) as [Hv | Hv].
  - rewrite iter_Inc by (try assumption; lia).
    destruct (Z.to_nat v) as [|n] eqn:E; [lia|]. f_equal. lia.
  - replace (Z.to_nat v) with O by lia. reflexivity.
Qed.

(** A code other than 1, 2 and 3 changes nothing and returns 0; no code
    touches the snakes or the frame counter. *)
Theorem cheat_unknown_code (c v : Z) (g : Game) :
  (c <> 1 -> c <> 2 -> c <> 3 -> cheat c v g = (g, 0))
  /\ Game.snakes (fst (cheat c v g)) = Game.snakes g
  /\ Game.frame (fst (cheat c v g)) = Game.frame g.
Proof.
  unfold cheat.
  destruct c as [|[[p|p|]|[p|p|]|]|p]; repeat split; try (intros; lia);
    try (intros; reflexivity);
    destruct (Apple_Move (Game.apple g) (Game.rng g)); reflexivity.
Qed.

(** The counters stay within their ranges under a penalty and under an
    update, and under a reward as long as the value is below the largest
    [int]. *)
Theorem scoreBounded_preserved (sc : Score) (snake : Snake) :
  scoreBounded sc ->
  scoreBounded (Score_Dec sc)
  /\ scoreBounded (Score_Update sc snake)
  /\ (Score.val sc < intMax -> scoreBounded (Score_Inc sc)).
Proof.
  assert (HDec : forall s, scoreBounded s -> scoreBounded (Score_Dec s)).
  { intros s (Hv & Hi & Hh). unfold scoreBounded, Score_Dec, IFrames, HungerPeriod, intMax in *.
    destruct (Z.gtb_spec (Score.iframes s) 0); [repeat split; lia|].
    cbn [Score.val Score.iframes Score.hunger].
    destruct (Z.gtb_spec (Score.val s) 0); [|repeat split; lia].
    rewrite Z.quot_div_nonneg by lia.
    pose proof (Z.div_mod (Score.val s) 5 ltac:(lia)).
    pose proof (Z.mod_pos_bound (Score.val s) 5 ltac:(lia)).
    rewrite (wrapInt_id (Score.val s / 5 + 1)) by (unfold inInt, intMin, intMax; lia).
    rewrite wrapInt_id by (unfold inInt, intMin, intMax; lia).
    repeat split; lia. }
  intros Hb. split; [now apply HDec|]. split.
  - unfold Score_Update.
    set (sc1 := if Score.iframes sc >? 0 then _ else sc).
    assert (H1 : scoreBounded sc1).
    { subst sc1. destruct Hb as (Hv & Hi & Hh).
      unfold scoreBounded, IFrames, HungerPeriod, intMax in *.
      destruct (Z.gtb_spec (Score.iframes sc) 0); [|repeat split; lia].
      cbn [Score.val Score.iframes Score.hunger].
      rewrite wrapInt_id by (unfold inInt, intMin, intMax; lia). repeat split; lia. }
    set (sc2 := if Score.hunger sc1 =? 0 then _ else _).
    assert (H2 : scoreBounded sc2).
    { subst sc2. destruct (Z.eqb_spec (Score.hunger sc1) 0).
      - destruct (HDec _ H1) as (Hv & Hi & Hh).
        unfold scoreBounded, HungerPeriod in *.
        cbn [Score.val Score.iframes Score.hunger]. repeat split; lia.
      - destruct H1 as (Hv & Hi & Hh).
        unfold scoreBounded, IFrames, HungerPeriod, intMax in *.
        cbn [Score.val Score.iframes Score.hunger].
        rewrite wrapInt_id by (unfold inInt, intMin, intMax; lia). repeat split; lia. }
    destruct (Snake_Collides snake (Snake.Mouth snake)); auto.
  - intros Hlt. destruct Hb as (Hv & Hi & Hh).
    unfold scoreBounded, Score_Inc, IFrames, HungerPeriod, intMax in *.
    cbn [Score.val Score.iframes Score.hunger].
    rewrite wrapInt_id by (unfold inInt, intMin, intMax; lia). repeat split; lia.
Qed.

Lemma Score_Updates_S (n : nat) (sc : Score) (snake : Snake) :
  Score_Updates (S n) sc snake = Score_Update (Score_Updates n sc snake) snake.
Proof. reflexivity. Qed.

(** While the hunger counter lasts, a snake that stays off its own body
    keeps its value: each update takes one unit off both counters, the
    invulnerability counter stopping at 0. *)
Lemma Score_Updates_countdown (snake : Snake) (sc : Score) (n : nat) :
  Snake_Collides snake (Snake.Mouth snake) = false ->
  scoreBounded sc ->
  Z.of_nat n <= Score.hunger sc ->
  Score_Updates n sc snake
  = Score.mk (Score.val sc) (Z.max 0 (Score.iframes sc - Z.of_nat n))
             (Score.hunger sc - Z.of_nat n).
Proof.
  intros Hc (Hv & Hi & Hh). unfold IFrames, HungerPeriod in *.
  induction n as [|n IH]; intros Hn.
  - cbn. destruct sc as [v i h]. cbn in *. f_equal; lia.
  - rewrite Score_Updates_S, IH by lia. unfold Score_Update. rewrite Hc.
    cbn [Score.val Score.iframes Score.hunger].
    destruct (Z.gtb_spec (Z.max 0 (Score.iframes sc - Z.of_nat n)) 0);
      cbn [Score.val Score.iframes Score.hunger];
      (destruct (Z.eqb_spec (Score.hunger sc - Z.of_nat n) 0); [lia|]);
      rewrite ?wrapInt_id by (unfold inInt, intMin, intMax; lia);
      f_equal; lia.
Qed.

(** Hunger.  From a full hunger counter, a snake that neither eats nor
    collides keeps its value for [HungerPeriod] updates; the update after
    those applies the penalty and restarts the counter: the penalty comes
    every [HungerPeriod + 1] updates. *)
Theorem hunger_penalty_period (snake : Snake) (sc : Score) :
  Snake_Collides snake (Snake.Mouth snake) = false ->
  scoreBounded sc ->
  Score.hunger sc = HungerPeriod ->
  (forall n, (n <= Z.to_nat HungerPeriod)%nat ->
     Score.val (Score_Updates n sc snake) = Score.val sc)
  /\ Score_Updates (S (Z.to_nat HungerPeriod)) sc snake
     = Score.mk (if 0 <? Score.val sc
                 then Score.val sc - (Score.val sc / 5 + 1)
                 else Score.val sc)
                IFrames HungerPeriod.
Proof.
  intros Hc Hb Hh. split.
  - intros n Hn. rewrite Score_Updates_countdown; auto.
    rewrite Hh. unfold HungerPeriod in *. lia.
  - rewrite Score_Updates_S, Score_Updates_countdown by (auto; rewrite Hh; unfold HungerPeriod; lia).
    destruct Hb as (Hv & Hi & _). unfold IFrames, HungerPeriod, intMax in *.
    rewrite Hh. replace (Z.max 0 (Score.iframes sc - Z.of_nat (Z.to_nat (6 * 60)))) with 0 by lia.
    replace (6 * 60 - Z.of_nat (Z.to_nat (6 * 60))) with 0 by lia.
    unfold Score_Update, Score_Dec. rewrite Hc.
    cbn [Score.val Score.iframes Score.hunger Z.gtb Z.compare Z.eqb].
    destruct (Z.gtb_spec (Score.val sc) 0); destruct (Z.ltb_spec 0 (Score.val sc));
      try lia; [|reflexivity].
    rewrite Z.quot_div_nonneg by lia.
    pose proof (Z.div_mod (Score.val sc) 5 ltac:(lia)).
    pose proof (Z.mod_pos_bound (Score.val sc) 5 ltac:(lia)).
    rewrite (wrapInt_id (Score.val sc / 5 + 1)) by (unfold inInt, intMin, intMax; lia).
    rewrite wrapInt_id by (unfold inInt, intMin, intMax; lia).
    reflexivity.
Qed.

(** *** More on eating *)

Lemma Apple_Move_rng (a : Apple) (r : nat) : snd (Apple_Move a r) = S (S r).
Proof. reflexivity. Qed.

Lemma moves_rng (n : nat) :
  forall a r, snd (moves n a r) = (r + 2 * n)%nat.
Proof.
  induction n as [|n IH]; intros a r; [cbn; lia|].
  rewrite moves_S, IH, Apple_Move_rng. lia.
Qed.

(** A miss changes nothing and draws no random value, whatever the fuel.  An
    eat scores exactly one reward, however often the apple is placed again:
    the snake is Eating with its chain as it was, and two random values are
    drawn for every placement. *)
Theorem TryEat_rewards_once (fuel : nat) (s : Snake) (a : Apple) (sc : Score) (r : nat) :
  (eats s a = false -> Snake_TryEat fuel s a sc r = Some (s, a, sc, r))
  /\ (eats s a = true ->
      forall s' a' sc' r',
        Snake_TryEat fuel s a sc r = Some (s', a', sc', r') ->
        s' = Snake.set_state s Eating
        /\ sc' = Score_Inc sc
        /\ exists k, (1 <= k <= S fuel)%nat /\ r' = (r + 2 * k)%nat).
Proof.
  unfold eats, Snake_TryEat. cbn zeta. split; intros Heat; rewrite Heat; cbn [negb].
  - reflexivity.
  - intros s' a' sc' r'. destruct (Apple_Move a r) as [a1 r1] eqn:Hm.
    destruct (relocate fuel (Snake.set_state s Eating) a1 r1) as [[a2 r2]|] eqn:Hrel;
      [|discriminate].
    intros [= <- <- <- <-]. split; [reflexivity|]. split; [reflexivity|].
    assert (Hk : exists k, (k <= fuel)%nat /\ (a2, r2) = moves k a1 r1).
    { clear Hm. revert a1 r1 Hrel. induction fuel as [|f IH]; intros a1 r1;
        rewrite relocate_unfold;
        destruct (Snake_Collides _ (Apple.Pos a1)); try discriminate.
      - intros [= <- <-]. now exists O.
      - intros Hrel. destruct (IH _ _ Hrel) as (k & Hk & E).
        exists (S k). split; [lia|]. rewrite moves_S. exact E.
      - intros [= <- <-]. exists O. split; [lia|reflexivity]. }
    destruct Hk as (k & Hk & E). exists (S k). split; [lia|].
    assert (Er : r2 = snd (moves k a1 r1)) by now rewrite <- E.
    rewrite Er, moves_rng.
    assert (Er1 : r1 = snd (Apple_Move a r)) by now rewrite Hm.
    rewrite Er1, Apple_Move_rng. lia.
Qed.

(** *** More on the segment chain *)

Lemma shift_Dir (s : Snake) : Snake.Dir (Snake_shift s) = Snake.Dir s.
Proof. unfold Snake_shift. destruct s as [? ? ? ? ? ? ? []]; reflexivity. Qed.

Lemma shift_Peer (s : Snake) : Snake.Peer (Snake_shift s) = Snake.Peer s.
Proof. unfold Snake_shift. destruct s as [? ? ? ? ? ? ? []]; reflexivity. Qed.

Lemma shift_positions (s : Snake) :
  positions (Snake.Head (Snake_shift s))
  = project (Segment.Head (Snake.Head s)) (Snake.Dir s) (ofInt segmentLen)
    :: match Snake.state s with
       | Growing => positions (Snake.Head s)
       | _ => removelast (positions (Snake.Head s))
       end.
Proof.
  unfold Snake_shift. destruct s as [? ? ? ? ? ? ? []];
    cbn [Snake.Head Snake.state Snake.Dir Snake.set_Head Snake.set_state];
    rewrite ?shiftChain_positions; reflexivity.
Qed.

Lemma shift_state (s : Snake) :
  Snake.state (Snake_shift s)
  = match Snake.state s with Moving => Moving | Eating => Growing | Growing => Moving end.
Proof. unfold Snake_shift. destruct s as [? ? ? ? ? ? ? []]; reflexivity. Qed.

Lemma removelast_length {A : Type} (l : list A) :
  length (removelast l) = pred (length l).
Proof.
  induction l as [|x [|y l] IH]; try reflexivity.
  change (removelast (x :: y :: l)) with (x :: removelast (y :: l)).
  cbn [length] in *. now rewrite IH.
Qed.

Lemma positions_length_pos (seg : Segment) : (1 <= length (positions seg))%nat.
Proof. destruct (positions_head seg) as [rest ->]. cbn. lia. Qed.

(** Growth is delayed by one cycle.  The shift that follows an eat moves
    the snake without lengthening it and leaves it Growing; the shift after
    that prepends a head and leaves it Moving.  After the two, the chain is
    the old one without its last position behind the two new heads. *)
Theorem shift_grows_one_cycle_later (s : Snake) :
  Snake.state s = Eating ->
  let s1 := Snake_shift s in
  let s2 := Snake_shift s1 in
  let h1 := project (Segment.Head (Snake.Head s)) (Snake.Dir s) (ofInt segmentLen) in
  let h2 := project h1 (Snake.Dir s) (ofInt segmentLen) in
  Snake.state s1 = Growing
  /\ length (positions (Snake.Head s1)) = length (positions (Snake.Head s))
  /\ Snake.state s2 = Moving
  /\ positions (Snake.Head s2) = h2 :: h1 :: removelast (positions (Snake.Head s))
  /\ length (positions (Snake.Head s2)) = S (length (positions (Snake.Head s))).
Proof.
  intros Hst s1 s2 h1 h2.
  assert (E1 : Snake.state s1 = Growing) by (subst s1; now rewrite shift_state, Hst).
  assert (P1 : positions (Snake.Head s1) = h1 :: removelast (positions (Snake.Head s)))
    by (subst s1 h1; now rewrite shift_positions, Hst).
  assert (P2 : positions (Snake.Head s2) = h2 :: h1 :: removelast (positions (Snake.Head s))).
  { subst s2. rewrite shift_positions, E1, P1. f_equal. subst h2. f_equal.
    - destruct (positions_head (Snake.Head s1)) as [rest E]. rewrite P1 in E.
      now injection E.
    - subst s1. apply shift_Dir. }
  pose proof (positions_length_pos (Snake.Head s)) as Hpos.
  repeat split; auto.
  - rewrite P1. cbn [length]. rewrite removelast_length. lia.
  - subst s2. now rewrite shift_state, E1.
  - rewrite P2. cbn [length]. rewrite removelast_length. lia.
Qed.

Lemma updateEye_state (s : Snake) (apple : Point) (r : nat) :
  Snake.state (fst (Snake_updateEye s apple r)) = Snake.state s
  /\ Snake.Peer (fst (Snake_updateEye s apple r)) = Snake.Peer s
  /\ Snake.Dir (fst (Snake_updateEye s apple r)) = Snake.Dir s.
Proof.
  unfold Snake_updateEye, GetRandom. cbn zeta.
  match goal with |- context [if ?c then _ else _] => destruct c end;
    repeat split.
Qed.

Lemma setDir_fields (s : Snake) (pad : Pad) :
  Snake.Head (Snake_setDir s pad) = Snake.Head s
  /\ Snake.state (Snake_setDir s pad) = Snake.state s
  /\ Snake.Peer (Snake_setDir s pad) = Snake.Peer s
  /\ Snake.Mouth (Snake_setDir s pad) = Snake.Mouth s
  /\ Snake.BlinkCounter (Snake_setDir s pad) = Snake.BlinkCounter s
  /\ Snake.BlinkMaxTime (Snake_setDir s pad) = Snake.BlinkMaxTime s.
Proof.
  unfold Snake_setDir.
  destruct (IsNaN (fsub (Radians pad) (Snake.Dir s))); repeat split.
Qed.

(** What one [Update] does to a snake, by the frame: the snake after the
    pad is read and, on a frame that is a multiple of the period, the chain
    is shifted. *)
Lemma Snake_Update_chain (ReadPad : Peer -> Pad * bool)
    (s : Snake) (frame : Z) (a : Apple) (r : nat) :
  let s' := fst (Snake_Update ReadPad s frame a r) in
  let turned := if snd (ReadPad (Snake.Peer s))
                then Snake_setDir s (fst (ReadPad (Snake.Peer s))) else s in
  let moved := if Z.rem frame period =? 0 then Snake_shift turned else turned in
  Snake.Head s' = Snake.Head moved /\ Snake.state s' = Snake.state moved
  /\ Snake.Peer s' = Snake.Peer s /\ Snake.Dir s' = Snake.Dir turned
  /\ Snake.Mouth s' = Snake.Mouth (Snake_updateMouth moved (Z.rem frame period)).
Proof.
  unfold Snake_Update. cbn zeta.
  destruct (ReadPad (Snake.Peer s)) as [pad pressed]. cbn [fst snd].
  set (turned := if pressed then Snake_setDir s pad else s).
  set (moved := if Z.rem frame period =? 0 then Snake_shift turned else turned).
  destruct (updateEye_fields (Snake_updateMouth moved (Z.rem frame period))
              (Apple.Pos a) r) as (EH & EM & _).
  destruct (updateEye_state (Snake_updateMouth moved (Z.rem frame period))
              (Apple.Pos a) r) as (ES & EP & ED).
  cbv zeta in EH, EM. rewrite EH, EM, ES, EP, ED.
  assert (Hp : Snake.Peer turned = Snake.Peer s)
    by (subst turned; destruct pressed; [apply setDir_fields | reflexivity]).
  repeat split.
  - cbn. rewrite <- Hp. subst moved. destruct (Z.rem frame period =? 0);
      [apply shift_Peer | reflexivity].
  - cbn. subst moved. destruct (Z.rem frame period =? 0);
      [apply shift_Dir | reflexivity].
Qed.

(** Between two shifts the chain is left alone: on a frame that is not a
    multiple of the period, [Update] changes neither the chain nor the
    state; on any frame it keeps the peer, never shortens the chain and
    lengthens it by one segment at most. *)
Theorem Update_between_shifts (ReadPad : Peer -> Pad * bool)
    (s : Snake) (frame : Z) (a : Apple) (r : nat) :
  let s' := fst (Snake_Update ReadPad s frame a r) in
  (Z.rem frame period <> 0 ->
   Snake.Head s' = Snake.Head s /\ Snake.state s' = Snake.state s)
  /\ Snake.Peer s' = Snake.Peer s
  /\ (length (positions (Snake.Head s)) <= length (positions (Snake.Head s'))
      <= S (length (positions (Snake.Head s))))%nat.
Proof.
  destruct (Snake_Update_chain ReadPad s frame a r) as (EH & ES & EP & _).
  cbv zeta in *. rewrite EH, ES, EP. clear EH ES EP.
  set (turned := if snd (ReadPad (Snake.Peer s)) then _ else s).
  assert (Ht : Snake.Head turned = Snake.Head s /\ Snake.state turned = Snake.state s).
  { subst turned. destruct (snd (ReadPad (Snake.Peer s))); [|now split].
    split; apply setDir_fields. }
  destruct Ht as [EH ES].
  split; [|split; [reflexivity|]].
  - intros Hrem. apply Z.eqb_neq in Hrem. rewrite Hrem. now split.
  - destruct (Z.rem frame period =? 0); [|rewrite EH; lia].
    rewrite shift_positions, ES, EH. cbn [length].
    pose proof (positions_length_pos (Snake.Head s)).
    destruct (Snake.state s); rewrite ?removelast_length; lia.
Qed.

(** *** What every reachable state keeps *)

Lemma updateEye_blink (s : Snake) (apple : Point) (r : nat) :
  blinkBounded s -> blinkBounded (fst (Snake_updateEye s apple r)).
Proof.
  unfold blinkBounded, Snake_updateEye, GetRandom, wrapUint32. cbn zeta.
  intros [[H0 H1] H2].
  cbn [Snake.BlinkCounter Snake.BlinkMaxTime Snake.set_Eye].
  pose proof (Z.mod_pos_bound (randomSource r mod 2 ^ 32) 5 ltac:(lia)) as Hr1.
  pose proof (Z.mod_pos_bound (randomSource (S r) mod 2 ^ 32) 100 ltac:(lia)) as Hr2.
  rewrite (wrapInt_id (Snake.BlinkCounter s + _))
    by (unfold inInt, intMin, intMax; lia).
  match goal with |- context [if ?c then _ else _] => destruct c eqn:Hc end;
    cbn [fst Snake.BlinkCounter Snake.BlinkMaxTime Snake.set_Blink].
  - rewrite (Z.mod_small (100 + _)) by lia.
    rewrite wrapInt_id by (unfold inInt, intMin, intMax; lia). lia.
  - rewrite Z.gtb_ltb in Hc. apply Z.ltb_ge in Hc. lia.
Qed.

Lemma shift_blink (s : Snake) :
  Snake.BlinkCounter (Snake_shift s) = Snake.BlinkCounter s
  /\ Snake.BlinkMaxTime (Snake_shift s) = Snake.BlinkMaxTime s.
Proof. unfold Snake_shift. destruct s as [? ? ? ? ? ? ? []]; split; reflexivity. Qed.

Lemma Snake_Update_wellFormed (ReadPad : Peer -> Pad * bool)
    (s : Snake) (frame : Z) (a : Apple) (r : nat) :
  snakeWellFormed s -> snakeWellFormed (fst (Snake_Update ReadPad s frame a r)).
Proof.
  intros (Hlen & Hblink & Hdir).
  destruct (Snake_Update_chain ReadPad s frame a r) as (EH & _ & _ & ED & _).
  cbv zeta in EH, ED.
  set (turned := if snd (ReadPad (Snake.Peer s)) then _ else s) in *.
  assert (Ht : Snake.Head turned = Snake.Head s
               /\ Snake.state turned = Snake.state s
               /\ Snake.BlinkCounter turned = Snake.BlinkCounter s
               /\ Snake.BlinkMaxTime turned = Snake.BlinkMaxTime s
               /\ (0 <= Snake.Dir turned <= Tau)%Q).
  { subst turned. destruct (snd (ReadPad (Snake.Peer s))); [|now repeat split].
    pose proof (setDir_fields s (fst (ReadPad (Snake.Peer s)))) as (? & ? & ? & ? & ? & ?).
    repeat split; auto; now apply setDir_in_range. }
  destruct Ht as (TH & TS & TC & TM & TD).
  split; [|split].
  - rewrite EH. destruct (Z.rem frame period =? 0); [|now rewrite TH].
    rewrite shift_positions, TS, TH. cbn [length].
    destruct (Snake.state s); rewrite ?removelast_length; lia.
  - unfold Snake_Update. cbn zeta.
    destruct (ReadPad (Snake.Peer s)) as [pad pressed]. cbn [fst snd] in *.
    apply updateEye_blink. unfold blinkBounded, Snake_updateMouth.
    cbn [Snake.BlinkCounter Snake.BlinkMaxTime Snake.set_Mouth].
    fold turned. destruct (Z.rem frame period =? 0).
    + destruct (shift_blink turned) as [-> ->]. now rewrite TC, TM.
    + now rewrite TC, TM.
  - now rewrite ED.
Qed.

Lemma TryEat_snake (fuel : nat) (s : Snake) (a : Apple) (sc : Score) (r : nat)
    (s' : Snake) (a' : Apple) (sc' : Score) (r' : nat) :
  Snake_TryEat fuel s a sc r = Some (s', a', sc', r') ->
  (s' = s /\ sc' = sc) \/ (s' = Snake.set_state s Eating /\ sc' = Score_Inc sc).
Proof.
  unfold Snake_TryEat. cbn zeta.
  match goal with |- context [if ?c then _ else _] => destruct c end.
  - intros [= <- _ <- _]. now left.
  - destruct (Apple_Move a r) as [a1 r1].
    destruct (relocate fuel _ a1 r1) as [[a2 r2]|]; [|discriminate].
    intros [= <- _ <- _]. now right.
Qed.

Lemma Score_ops_counters (sc : Score) (snake : Snake) :
  countersBounded sc ->
  countersBounded (Score_Dec sc) /\ countersBounded (Score_Inc sc)
  /\ countersBounded (Score_Update sc snake).
Proof.
  assert (HDec : forall s, countersBounded s -> countersBounded (Score_Dec s)).
  { intros s [Hi Hh]. unfold countersBounded, Score_Dec, IFrames, HungerPeriod in *.
    destruct (Z.gtb_spec (Score.iframes s) 0); [split; lia|].
    cbn [Score.iframes Score.hunger]. split; lia. }
  intros Hb. split; [now apply HDec|]. split.
  - destruct Hb as [Hi Hh]. unfold countersBounded, Score_Inc, IFrames, HungerPeriod in *.
    cbn [Score.iframes Score.hunger]. split; lia.
  - unfold Score_Update.
    set (sc1 := if Score.iframes sc >? 0 then _ else sc).
    assert (H1 : countersBounded sc1).
    { subst sc1. destruct Hb as [Hi Hh].
      unfold countersBounded, IFrames, HungerPeriod in *.
      destruct (Z.gtb_spec (Score.iframes sc) 0); [|split; lia].
      cbn [Score.iframes Score.hunger].
      rewrite wrapInt_id by (unfold inInt, intMin, intMax; lia). split; lia. }
    set (sc2 := if Score.hunger sc1 =? 0 then _ else _).
    assert (H2 : countersBounded sc2).
    { subst sc2. destruct (Z.eqb_spec (Score.hunger sc1) 0).
      - destruct (HDec _ H1) as [Hi Hh].
        unfold countersBounded, HungerPeriod in *.
        cbn [Score.iframes Score.hunger]. split; lia.
      - destruct H1 as [Hi Hh].
        unfold countersBounded, IFrames, HungerPeriod in *.
        cbn [Score.iframes Score.hunger].
        rewrite wrapInt_id by (unfold inInt, intMin, intMax; lia). split; lia. }
    destruct (Snake_Collides snake (Snake.Mouth snake)); auto.
Qed.

Lemma updateSnakes_wellFormed (fuel : nat) (ReadPad : Peer -> Pad * bool) (frame : Z)
    (ss : list Snake) :
  forall a sc r ss' a' sc' r',
    Forall snakeWellFormed ss -> countersBounded sc ->
    updateSnakes fuel ReadPad frame ss a sc r = Some (ss', a', sc', r') ->
    Forall snakeWellFormed ss' /\ countersBounded sc'
    /\ map Snake.Peer ss' = map Snake.Peer ss.
Proof.
  induction ss as [|s ss IH]; intros a sc r ss' a' sc' r' Hss Hsc; cbn [updateSnakes].
  - intros [= <- _ <- _]. split; [constructor|split; [assumption|reflexivity]].
  - inversion Hss as [|? ? Hs Hrest]; subst.
    pose proof (Snake_Update_wellFormed ReadPad s frame a r Hs) as Hs1.
    destruct (Snake_Update_chain ReadPad s frame a r) as (_ & _ & EP & _).
    cbv zeta in EP.
    destruct (Snake_Update ReadPad s frame a r) as [s1 r1]. cbn [fst] in Hs1, EP.
    destruct (Snake_TryEat fuel s1 a sc r1) as [[[[s2 a2] sc2] r2]|] eqn:Heat;
      [|discriminate].
    assert (H2 : snakeWellFormed s2 /\ Snake.Peer s2 = Snake.Peer s1
                 /\ countersBounded sc2).
    { destruct (TryEat_snake _ _ _ _ _ _ _ _ _ Heat) as [[-> ->] | [-> ->]].
      - split; [assumption|split; [reflexivity|assumption]].
      - split; [exact Hs1|split; [reflexivity|now apply (Score_ops_counters _ s1)]]. }
    destruct H2 as (Hs2 & EP2 & Hsc2).
    destruct (updateSnakes fuel ReadPad frame ss a2 (Score_Update sc2 s2) r2)
      as [[[[ss3 a3] sc3] r3]|] eqn:Hrec; [|discriminate].
    intros [= <- _ <- _].
    destruct (IH _ _ _ _ _ _ _ Hrest
                (proj2 (proj2 (Score_ops_counters sc2 s2 Hsc2))) Hrec)
      as (Hss3 & Hsc3 & EP3).
    split; [now constructor|]. split; [assumption|].
    cbn [map]. now rewrite EP3, EP2, EP.
Qed.

Lemma cheat_snakes (c v : Z) (g : Game) :
  Game.snakes (fst (cheat c v g)) = Game.snakes g
  /\ (countersBounded (Game.score g) -> countersBounded (Game.score (fst (cheat c v g)))).
Proof.
  assert (HI : forall n sc, countersBounded sc -> countersBounded (Nat.iter n Score_Inc sc)).
  { induction n as [|n IH]; intros sc Hsc; [exact Hsc|].
    change (Nat.iter (S n) Score_Inc sc) with (Score_Inc (Nat.iter n Score_Inc sc)).
    apply (Score_ops_counters _ (NewSnake 0)), IH, Hsc. }
  assert (HD : forall n sc, countersBounded sc -> countersBounded (Nat.iter n Score_Dec sc)).
  { induction n as [|n IH]; intros sc Hsc; [exact Hsc|].
    change (Nat.iter (S n) Score_Dec sc) with (Score_Dec (Nat.iter n Score_Dec sc)).
    apply (Score_ops_counters _ (NewSnake 0)), IH, Hsc. }
  unfold cheat.
  destruct c as [|[[p|p|]|[p|p|]|]|p]; try (now split); cbn [fst Game.snakes Game.score];
    split; try reflexivity; auto.
Qed.

(** In every reachable state the snakes are those of the connected peers,
    in the order of registration; each has a head and at least one more
    segment, a blink timer within its range and a direction between 0 and
    [Tau]; the two countdowns of the score are within their ranges. *)
Theorem reachable_wellFormed (peers : list Peer) (g : Game) :
  Reachable peers g ->
  map Snake.Peer (Game.snakes g) = peers
  /\ Forall snakeWellFormed (Game.snakes g)
  /\ countersBounded (Game.score g).
Proof.
  intros [n Hn]. induction Hn as [|n fuel ReadPad g g' _ IH Hu|n c v g _ IH].
  - unfold boot, NewApple. destruct (Apple_Move _ _).
    cbn [Game.snakes Game.score]. split; [|split].
    + rewrite map_map. cbn [NewSnake Snake.Peer]. apply map_id.
    + apply Forall_forall. intros s Hs. apply in_map_iff in Hs.
      destruct Hs as (p & <- & _). split; [cbn; lia|]. split.
      * unfold blinkBounded. cbn. lia.
      * cbn [NewSnake Snake.Dir]. split; discriminate.
    + unfold countersBounded, NewScore, IFrames, HungerPeriod. cbn. lia.
  - destruct IH as (Hp & Hs & Hc). revert Hu. unfold update. cbn zeta.
    destruct (updateSnakes _ _ _ _ _ _ _) as [[[[ss a] sc] r]|] eqn:Hu; [|discriminate].
    intros [= <-]. cbn [Game.snakes Game.score].
    destruct (updateSnakes_wellFormed _ _ _ _ _ _ _ _ _ _ _ Hs Hc Hu) as (Hs' & Hc' & Hp').
    split; [congruence|split; assumption].
  - destruct IH as (Hp & Hs & Hc). destruct (cheat_snakes c v g) as [Es Ec].
    rewrite Es. auto.
Qed.

(** *** More on the toroidal geometry *)

(** Within one playfield width (height) of the range, normalising is the
    remainder of the division by the width (height); a coordinate two widths
    out is not brought back. *)
Theorem normalize_is_mod (x y : Z) :
  0 < Width < 2 ^ 30 -> 0 < Height < 2 ^ 30 ->
  (- Width <= x < 2 * Width -> normalizeX x = x mod Width)
  /\ (- Height <= y < 2 * Height -> normalizeY y = y mod Height)
  /\ normalizeX (2 * Width) = Width
  /\ normalizeY (2 * Height) = Height.
Proof.
  intros HW HH. unfold normalizeX, normalizeY. repeat split.
  - intros Hx. destruct (Z.geb_spec x Width).
    + rewrite wrapInt_id by (unfold inInt, intMin, intMax; lia).
      apply (Z.mod_unique _ _ 1); lia.
    + destruct (Z.ltb_spec x 0).
      * rewrite wrapInt_id by (unfold inInt, intMin, intMax; lia).
        apply (Z.mod_unique _ _ (-1)); lia.
      * symmetry. apply Z.mod_small. lia.
  - intros Hy. destruct (Z.geb_spec y Height).
    + rewrite wrapInt_id by (unfold inInt, intMin, intMax; lia).
      apply (Z.mod_unique _ _ 1); lia.
    + destruct (Z.ltb_spec y 0).
      * rewrite wrapInt_id by (unfold inInt, intMin, intMax; lia).
        apply (Z.mod_unique _ _ (-1)); lia.
      * symmetry. apply Z.mod_small. lia.
  - destruct (Z.geb_spec (2 * Width) Width); [|lia].
    rewrite wrapInt_id by (unfold inInt, intMin, intMax; lia). lia.
  - destruct (Z.geb_spec (2 * Height) Height); [|lia].
    rewrite wrapInt_id by (unfold inInt, intMin, intMax; lia). lia.
Qed.

Lemma denormalize_cases (size a b : Z) :
  0 < size < 2 ^ 30 -> 0 <= a < size -> 0 <= b < size ->
  let d := if wrapInt (a - b) >? 30 then (a, wrapInt (b + size))
           else if wrapInt (b - a) >? 30 then (wrapInt (a + size), b)
           else (a, b) in
  (30 < a - b /\ d = (a, b + size))
  \/ (30 < b - a /\ d = (a + size, b))
  \/ (Z.abs (a - b) <= 30 /\ d = (a, b)).
Proof.
  intros Hs Ha Hb.
  rewrite (wrapInt_id (a - b)), (wrapInt_id (b - a)),
    (wrapInt_id (b + size)), (wrapInt_id (a + size))
    by (unfold inInt, intMin, intMax; lia).
  cbn zeta.
  destruct (Z.gtb_spec (a - b) 30); [left; split; [lia | reflexivity]|].
  destruct (Z.gtb_spec (b - a) 30); [right; left; split; [lia | reflexivity]|].
  right; right. split; [lia | reflexivity].
Qed.

(** Denormalising two coordinates of the playfield moves one of them at
    most, by one full width (height), and normalising gives both back. *)
Theorem denormalize_normalize (a b c d : Z) :
  0 < Width < 2 ^ 30 -> 0 < Height < 2 ^ 30 ->
  0 <= a < Width -> 0 <= b < Width -> 0 <= c < Height -> 0 <= d < Height ->
  let (a', b') := denormalizeX a b in
  let (c', d') := denormalizeY c d in
  normalizeX a' = a /\ normalizeX b' = b /\ (a' = a \/ b' = b)
  /\ normalizeY c' = c /\ normalizeY d' = d /\ (c' = c \/ d' = d).
Proof.
  intros HW HH Ha Hb Hc Hd.
  assert (HX : forall x, 0 <= x < Width ->
            normalizeX x = x /\ normalizeX (x + Width) = x).
  { intros x Hx. unfold normalizeX. split.
    - destruct (Z.geb_spec x Width); [lia|]. destruct (Z.ltb_spec x 0); [lia|reflexivity].
    - destruct (Z.geb_spec (x + Width) Width); [|lia].
      rewrite wrapInt_id by (unfold inInt, intMin, intMax; lia). lia. }
  assert (HY : forall y, 0 <= y < Height ->
            normalizeY y = y /\ normalizeY (y + Height) = y).
  { intros y Hy. unfold normalizeY. split.
    - destruct (Z.geb_spec y Height); [lia|]. destruct (Z.ltb_spec y 0); [lia|reflexivity].
    - destruct (Z.geb_spec (y + Height) Height); [|lia].
      rewrite wrapInt_id by (unfold inInt, intMin, intMax; lia). lia. }
  unfold denormalizeX, denormalizeY.
  destruct (denormalize_cases Width a b HW Ha Hb) as [[_ ->] | [[_ ->] | [_ ->]]];
    destruct (denormalize_cases Height c d HH Hc Hd) as [[_ ->] | [[_ ->] | [_ ->]]];
    repeat split; try apply HX; try apply HY; auto.
Qed.

(** *** More on the apple *)

(** Wherever the apple was, a move puts it at least the apple's radius
    away from every edge, using two values of the random device. *)
Theorem Apple_Move_within_margin (a : Apple) (r : nat) :
  2 * appleRadius < Width < 2 ^ 30 -> 2 * appleRadius < Height < 2 ^ 30 ->
  inMargin (Apple.Pos (fst (Apple_Move a r)))
  /\ snd (Apple_Move a r) = S (S r)
  /\ forall b, Apple_Move b r = Apple_Move a r.
Proof.
  intros HW HH. split; [|split; reflexivity].
  unfold Apple_Move, GetRandom, inMargin, wrapUint32, appleRadius in *.
  cbn [fst Apple.Pos X Y].
  rewrite (Z.mod_small (Width - 5 * 2)), (Z.mod_small (Height - 5 * 2)) by lia.
  pose proof (Z.mod_pos_bound (randomSource r mod 2 ^ 32) (Width - 5 * 2) ltac:(lia)).
  pose proof (Z.mod_pos_bound (randomSource (S r) mod 2 ^ 32) (Height - 5 * 2) ltac:(lia)).
  rewrite !wrapInt_id by (unfold inInt, intMin, intMax;
                          rewrite ?wrapInt_id by (unfold inInt, intMin, intMax; lia); lia).
  lia.
Qed.

(** *** More on the collision detector *)

(** The joints of the body collide: both ends of a qualifying segment that
    does not cross the seam are within the snake. *)
Theorem body_joints_collide (s : Snake) (ph pt : Point) :
  qualifying s ph pt ->
  - 2 ^ 30 < X ph < 2 ^ 30 -> - 2 ^ 30 < X pt < 2 ^ 30 ->
  - 2 ^ 30 < Y ph < 2 ^ 30 -> - 2 ^ 30 < Y pt < 2 ^ 30 ->
  Z.abs (X ph - X pt) <= 30 -> Z.abs (Y ph - Y pt) <= 30 ->
  Snake_Collides s ph = true /\ Snake_Collides s pt = true.
Proof.
  intros Hq Hxh Hxt Hyh Hyt Hdx Hdy.
  pose proof (segmentBox_contiguous ph pt Hxh Hxt Hyh Hyt Hdx Hdy) as Hbox.
  split; apply Snake_Collides_iff; exists ph, pt; (split; [exact Hq|]);
    rewrite Hbox; unfold inBox; cbn [BBox.left BBox.right X Y]; lia.
Qed.

(** *** More on the mouth and the eye *)

(** On a frame that is a multiple of the period the mouth is put on the
    head position, when that one lies on the playfield. *)
Theorem updateMouth_on_head (s : Snake) :
  0 <= X (Segment.Head (Snake.Head s)) < Width ->
  0 <= Y (Segment.Head (Snake.Head s)) < Height ->
  Width < 2 ^ 30 -> Height < 2 ^ 30 ->
  Snake.Mouth (Snake_updateMouth s 0) = Segment.Head (Snake.Head s).
Proof.
  intros Hx Hy HW HH. unfold Snake_updateMouth, project.
  cbn [Snake.Mouth Snake.set_Mouth].
  assert (Hz : forall c : Q, toInt (Fin (c * (ofInt segmentLen * ofInt 0 / ofInt period))) = 0).
  { intros [n d]. unfold toInt, Qtrunc.
    change (Qnum ((n # d) * (ofInt segmentLen * ofInt 0 / ofInt period))) with (n * 0).
    rewrite Z.mul_0_r. reflexivity. }
  rewrite !Hz, Z.add_0_r, Z.sub_0_r.
  rewrite !wrapInt_id by (unfold inInt, intMin, intMax; lia).
  unfold normalizeX, normalizeY.
  destruct (Z.geb_spec (X (Segment.Head (Snake.Head s))) Width); [lia|].
  destruct (Z.ltb_spec (X (Segment.Head (Snake.Head s))) 0); [lia|].
  destruct (Z.geb_spec (Y (Segment.Head (Snake.Head s))) Height); [lia|].
  destruct (Z.ltb_spec (Y (Segment.Head (Snake.Head s))) 0); [lia|].
  destruct (Segment.Head (Snake.Head s)). reflexivity.
Qed.

Lemma Qtrunc_reach (q : Q) : (1 <= q)%Q -> 1 <= Qtrunc q.
Proof.
  destruct q as [a b]. unfold Qle, Qtrunc. simpl. intros H.
  rewrite Z.quot_div_nonneg by lia. apply Z.div_le_lower_bound; lia.
Qed.

Lemma Qtrunc_reach_neg (q : Q) : (q <= - (1))%Q -> Qtrunc q <= -1.
Proof.
  destruct q as [a b]. unfold Qle, Qtrunc. simpl. intros H.
  replace a with (- (- a)) by lia. rewrite Z.quot_opp_l by lia.
  rewrite Z.quot_div_nonneg by lia.
  assert (1 <= - a / Z.pos b) by (apply Z.div_le_lower_bound; lia). lia.
Qed.

(** The eye's offset along an axis is at least one unit when three times the
    apple's offset reaches the length of the look. *)
Lemma look_offset_reach (look : Z) (len : Q) :
  look <> 0 ->
  (Qabs (ofInt look) <= len)%Q -> (len <= 3 * Qabs (ofInt look))%Q ->
  1 <= Z.abs (toInt (fdiv (ofInt look * 3) len)).
Proof.
  intros Hnz Hlen Hreach. unfold fdiv, ofInt in *.
  assert (Hclamp : forall z, 1 <= Z.abs z -> 1 <= Z.abs (Z.max intMin (Z.min intMax z)))
    by (unfold intMin, intMax; lia).
  destruct (Z.lt_ge_cases 0 look) as [Hpos | Hneg].
  - assert (H1 : (inject_Z 1 <= inject_Z look)%Q) by (rewrite <- Zle_Qle; lia).
    change (inject_Z 1) with 1%Q in H1.
    rewrite Qabs_pos in Hlen, Hreach by lra.
    assert (Elen : Qeq_bool len 0 = false).
    { destruct (Qeq_bool len 0) eqn:E; [|reflexivity].
      apply Qeq_bool_iff in E. lra. }
    rewrite Elen. cbn [toInt]. apply Hclamp.
    assert (Hq : (1 <= inject_Z look * 3 / len)%Q)
      by (apply Qle_shift_div_l; lra).
    pose proof (Qtrunc_reach _ Hq). lia.
  - assert (H1 : (inject_Z look <= inject_Z (-1))%Q) by (rewrite <- Zle_Qle; lia).
    change (inject_Z (-1)) with (- (1))%Q in H1.
    rewrite Qabs_neg in Hlen, Hreach by lra.
    assert (Elen : Qeq_bool len 0 = false).
    { destruct (Qeq_bool len 0) eqn:E; [|reflexivity].
      apply Qeq_bool_iff in E. lra. }
    rewrite Elen. cbn [toInt]. apply Hclamp.
    assert (Hq : (inject_Z look * 3 / len <= - (1))%Q)
      by (apply Qle_shift_div_r; lra).
    pose proof (Qtrunc_reach_neg _ Hq). lia.
Qed.

(** The eye looks toward the apple.  After [updateEye] the eye is at most
    three units from the mouth on each axis and never on the side away from
    the apple; on an axis where three times the apple's offset is at least
    the length [Hypot] returns for the look, the eye is at least one unit
    off the mouth; with the apple on the mouth the eye is on the mouth.
    The coordinates are below 2^21 in magnitude, where the conversions of
    the look to [float32] and its product by 3 are exact. *)
Theorem updateEye_near_mouth (s : Snake) (apple : Point) (r : nat) :
  (forall x y : Q, (Qabs x <= Hypot x y)%Q /\ (Qabs y <= Hypot x y)%Q) ->
  - 2 ^ 21 < X apple < 2 ^ 21 -> - 2 ^ 21 < Y apple < 2 ^ 21 ->
  - 2 ^ 21 < X (Snake.Mouth s) < 2 ^ 21 -> - 2 ^ 21 < Y (Snake.Mouth s) < 2 ^ 21 ->
  let eye := Snake.Eye (fst (Snake_updateEye s apple r)) in
  let dx := X eye - X (Snake.Mouth s) in
  let dy := Y eye - Y (Snake.Mouth s) in
  let lookX := X apple - X (Snake.Mouth s) in
  let lookY := Y apple - Y (Snake.Mouth s) in
  let lookLen := Hypot (ofInt lookX) (ofInt lookY) in
  Z.abs dx <= 3 /\ Z.abs dy <= 3
  /\ 0 <= dx * lookX
  /\ 0 <= dy * lookY
  /\ (lookX <> 0 -> (lookLen <= 3 * Qabs (ofInt lookX))%Q -> 1 <= Z.abs dx)
  /\ (lookY <> 0 -> (lookLen <= 3 * Qabs (ofInt lookY))%Q -> 1 <= Z.abs dy)
  /\ (apple = Snake.Mouth s -> eye = Snake.Mouth s).
Proof.
  intros Hhyp Hax Hay Hmx Hmy.
  destruct (updateEye_fields s apple r) as (_ & _ & EE). cbv zeta in EE |- *.
  rewrite EE. clear EE. cbn [X Y].
  assert (Elx : wrapInt (X apple - X (Snake.Mouth s)) = X apple - X (Snake.Mouth s))
    by (apply wrapInt_id; unfold inInt, intMin, intMax; lia).
  assert (Ely : wrapInt (Y apple - Y (Snake.Mouth s)) = Y apple - Y (Snake.Mouth s))
    by (apply wrapInt_id; unfold inInt, intMin, intMax; lia).
  rewrite Elx, Ely.
  set (lx := X apple - X (Snake.Mouth s)).
  set (ly := Y apple - Y (Snake.Mouth s)).
  destruct (Hhyp (ofInt lx) (ofInt ly)) as [Hdx Hdy].
  assert (Hix : inInt lx) by (unfold inInt, intMin, intMax; lia).
  assert (Hiy : inInt ly) by (unfold inInt, intMin, intMax; lia).
  destruct (look_offset lx _ Hix Hdx) as (Hx1 & Hx2 & Hx3).
  destruct (look_offset ly _ Hiy Hdy) as (Hy1 & Hy2 & Hy3).
  pose proof (fun Hnz => look_offset_reach lx _ Hnz Hdx) as Hx4.
  pose proof (fun Hnz => look_offset_reach ly _ Hnz Hdy) as Hy4.
  cbn zeta in *.
  set (ex := toInt (fdiv (ofInt lx * 3) (Hypot (ofInt lx) (ofInt ly)))) in *.
  set (ey := toInt (fdiv (ofInt ly * 3) (Hypot (ofInt lx) (ofInt ly)))) in *.
  assert (Hex : -3 <= ex <= 3 /\ 0 <= ex * lx /\ (lx = 0 -> ex = 0)) by nia.
  assert (Hey : -3 <= ey <= 3 /\ 0 <= ey * ly /\ (ly = 0 -> ey = 0)) by nia.
  rewrite !wrapInt_id by (unfold inInt, intMin, intMax; lia).
  replace (X (Snake.Mouth s) + ex - X (Snake.Mouth s)) with ex by lia.
  replace (Y (Snake.Mouth s) + ey - Y (Snake.Mouth s)) with ey by lia.
  split; [lia|]. split; [lia|]. split; [lia|]. split; [lia|].
  split; [exact Hx4|]. split; [exact Hy4|].
  intros ->. destruct (Snake.Mouth s) as [mx my]. cbn [X Y] in *.
  f_equal; lia.
Qed.

(** *** Rendering *)

(** The pulled-in end of the last segment: between the start and the far
    end, on the far end at the start of a cycle. *)
Lemma taper_between (start end_ frame : Z) :
  inInt start -> inInt end_ -> Z.abs (end_ - start) < 2 ^ 27 ->
  0 <= frame < period ->
  let e := wrapInt (start + wrapInt (Z.quot (wrapInt (wrapInt (end_ - start)
                                                      * wrapInt (period - frame)))
                                            period)) in
  Z.min start end_ <= e <= Z.max start end_
  /\ (frame = 0 -> e = end_)
  /\ Z.abs (e - start) <= Z.abs (end_ - start).
Proof.
  unfold period, inInt, intMin, intMax. intros Hs He Hd Hf.
  rewrite (wrapInt_id (end_ - start)), (wrapInt_id (10 - frame))
    by (unfold inInt, intMin, intMax; lia).
  rewrite (wrapInt_id ((end_ - start) * (10 - frame)))
    by (unfold inInt, intMin, intMax; nia).
  pose proof (Z.quot_rem' ((end_ - start) * (10 - frame)) 10) as Hqr.
  pose proof (Z.rem_bound_abs ((end_ - start) * (10 - frame)) 10 ltac:(lia)) as Hrb.
  assert (Hsg : 0 <= Z.rem ((end_ - start) * (10 - frame)) 10 * ((end_ - start) * (10 - frame)))
    by (apply Z.rem_sign_mul; lia).
  set (q := Z.quot ((end_ - start) * (10 - frame)) 10) in *.
  set (r := Z.rem ((end_ - start) * (10 - frame)) 10) in *.
  assert (Hq : Z.abs q <= Z.abs (end_ - start) /\ 0 <= q * (end_ - start)) by nia.
  rewrite (wrapInt_id q) by (unfold inInt, intMin, intMax; lia).
  rewrite wrapInt_id by (unfold inInt, intMin, intMax; nia).
  cbv zeta. split; [lia|]. split; [|lia].
  intros ->. nia.
Qed.

(** The tail tapers.  The line drawn for the last segment of a snake that is
    not Growing starts on the segment's denormalised start and ends between
    that and the denormalised end, on the end itself at the start of a
    cycle; every other segment is drawn from end to end. *)
Theorem Render_tail_tapers (head : Point) (tail : Segment) (frame : Z) (state : State) :
  0 < Width < 2 ^ 27 -> 0 < Height < 2 ^ 27 ->
  0 <= X head < Width -> 0 <= Y head < Height ->
  0 <= X (Segment.Head tail) < Width -> 0 <= Y (Segment.Head tail) < Height ->
  0 <= frame < period ->
  let far := mkPoint (snd (denormalizeX (X head) (X (Segment.Head tail))))
                     (snd (denormalizeY (Y head) (Y (Segment.Head tail)))) in
  let start := fst (renderEnds head tail frame state) in
  let end_ := snd (renderEnds head tail frame state) in
  start = mkPoint (fst (denormalizeX (X head) (X (Segment.Head tail))))
                  (fst (denormalizeY (Y head) (Y (Segment.Head tail))))
  /\ Z.min (X start) (X far) <= X end_ <= Z.max (X start) (X far)
  /\ Z.min (Y start) (Y far) <= Y end_ <= Z.max (Y start) (Y far)
  /\ (frame = 0 -> end_ = far)
  /\ (Segment.Tail tail <> None \/ state = Growing -> end_ = far).
Proof.
  intros HW HH Hhx Hhy Htx Hty Hf. cbv zeta.
  unfold renderEnds.
  assert (Hbx : let d := denormalizeX (X head) (X (Segment.Head tail)) in
                (inInt (fst d) /\ inInt (snd d)) /\ Z.abs (snd d - fst d) < 2 ^ 27).
  { unfold denormalizeX.
    destruct (denormalize_cases Width (X head) (X (Segment.Head tail)) ltac:(lia) Hhx Htx)
      as [[Hx ->] | [[Hx ->] | [Hx ->]]]; cbn [fst snd];
      unfold inInt, intMin, intMax; lia. }
  assert (Hby : let d := denormalizeY (Y head) (Y (Segment.Head tail)) in
                (inInt (fst d) /\ inInt (snd d)) /\ Z.abs (snd d - fst d) < 2 ^ 27).
  { unfold denormalizeY.
    destruct (denormalize_cases Height (Y head) (Y (Segment.Head tail)) ltac:(lia) Hhy Hty)
      as [[Hy ->] | [[Hy ->] | [Hy ->]]]; cbn [fst snd];
      unfold inInt, intMin, intMax; lia. }
  destruct (denormalizeX _ _) as [sx ex]. destruct (denormalizeY _ _) as [sy ey].
  cbn [fst snd] in Hbx, Hby.
  destruct Hbx as [[Hsx Hex] Hdx]. destruct Hby as [[Hsy Hey] Hdy].
  destruct (taper_between sx ex frame Hsx Hex Hdx Hf) as (Tx1 & Tx2 & _).
  destruct (taper_between sy ey frame Hsy Hey Hdy Hf) as (Ty1 & Ty2 & _).
  cbv zeta in Tx1, Tx2, Ty1, Ty2.
  assert (Hfull : mkPoint sx sy = mkPoint sx sy
                  /\ Z.min sx ex <= ex <= Z.max sx ex
                  /\ Z.min sy ey <= ey <= Z.max sy ey
                  /\ (frame = 0 -> mkPoint ex ey = mkPoint ex ey)
                  /\ (Segment.Tail tail <> None \/ state = Growing ->
                      mkPoint ex ey = mkPoint ex ey))
    by (repeat split; lia).
  destruct (Segment.Tail tail) as [t|]; [exact Hfull|].
  destruct state; cbn [fst snd X Y]; try exact Hfull;
    (split; [reflexivity|]); (split; [exact Tx1|]); (split; [exact Ty1|]);
    (split; [intros E; now rewrite (Tx2 E), (Ty2 E)|]);
    (intros [Hc | Hc]; [now elim Hc | discriminate]).
Qed.

Lemma drawSegment_colors (start end_ : Point) (call : DrawCall) :
  In call (drawSegment start end_) ->
  (exists a b, call = DrawLine a b ColorBlue snakeWidth)
  \/ (exists p, call = DrawCircle p snakeWidth ColorBlue).
Proof.
  unfold drawSegment, drawSegmentExactlyAt. cbn [app In].
  intros H. repeat (destruct H as [H | H]; [subst call; eauto|]). destruct H.
Qed.

(** The head shows a collision.  A red circle is drawn for the head exactly
    when the denormalised mouth collides with the body; with the mouth
    within 30 units of the head position on both axes that is the mouth
    itself, the very point [Score.Update] penalises on. *)
Theorem renderHead_red_iff_colliding (s : Snake) :
  ((exists p d, In (DrawCircle p d ColorRed) (Snake_renderHead s))
   <-> Snake_Collides s
         (mkPoint (snd (denormalizeX (X (Segment.Head (Snake.Head s))) (X (Snake.Mouth s))))
                  (snd (denormalizeY (Y (Segment.Head (Snake.Head s))) (Y (Snake.Mouth s)))))
       = true)
  /\ (Z.abs (X (Segment.Head (Snake.Head s)) - X (Snake.Mouth s)) <= 30 ->
      Z.abs (Y (Segment.Head (Snake.Head s)) - Y (Snake.Mouth s)) <= 30 ->
      ((exists p d, In (DrawCircle p d ColorRed) (Snake_renderHead s))
       <-> Snake_Collides s (Snake.Mouth s) = true)).
Proof.
  assert (Hgen :
    (exists p d, In (DrawCircle p d ColorRed) (Snake_renderHead s))
    <-> Snake_Collides s
          (mkPoint (snd (denormalizeX (X (Segment.Head (Snake.Head s))) (X (Snake.Mouth s))))
                   (snd (denormalizeY (Y (Segment.Head (Snake.Head s))) (Y (Snake.Mouth s)))))
        = true).
  { unfold Snake_renderHead.
    destruct (denormalizeX _ _) as [nx mx]. destruct (denormalizeY _ _) as [ny my].
    cbn [fst snd]. cbn zeta. split.
    - intros (p & d & Hin). apply in_app_or in Hin. destruct Hin as [Hin | Hin].
      + apply drawSegment_colors in Hin.
        destruct Hin as [(a & b & [=]) | (q & [=])].
      + apply in_app_or in Hin. destruct Hin as [Hin | Hin].
        * cbn [In] in Hin. destruct Hin as [[=] | [[=] | [Hin | []]]].
          destruct (Snake_Collides s (mkPoint mx my)); [reflexivity|].
          discriminate Hin.
        * unfold Snake_renderEye in Hin. cbn [In] in Hin.
          destruct Hin as [[=] | Hin].
          destruct (Snake.BlinkCounter s <? 20); cbn [In] in Hin;
            [destruct Hin as [[=] | []] | destruct Hin].
    - intros Hc. rewrite Hc. eexists. eexists.
      apply in_or_app. right. apply in_or_app. left.
      cbn [In]. right. right. left. reflexivity. }
  split; [exact Hgen|].
  intros Hx Hy. rewrite Hgen.
  unfold denormalizeX, denormalizeY.
  rewrite (wrapInt_id (X (Segment.Head (Snake.Head s)) - X (Snake.Mouth s))),
    (wrapInt_id (X (Snake.Mouth s) - X (Segment.Head (Snake.Head s)))),
    (wrapInt_id (Y (Segment.Head (Snake.Head s)) - Y (Snake.Mouth s))),
    (wrapInt_id (Y (Snake.Mouth s) - Y (Segment.Head (Snake.Head s))))
    by (unfold inInt, intMin, intMax; lia).
  destruct (Z.gtb_spec (X (Segment.Head (Snake.Head s)) - X (Snake.Mouth s)) 30); [lia|].
  destruct (Z.gtb_spec (X (Snake.Mouth s) - X (Segment.Head (Snake.Head s))) 30); [lia|].
  destruct (Z.gtb_spec (Y (Segment.Head (Snake.Head s)) - Y (Snake.Mouth s)) 30); [lia|].
  destruct (Z.gtb_spec (Y (Snake.Mouth s) - Y (Segment.Head (Snake.Head s))) 30); [lia|].
  cbn [snd]. destruct (Snake.Mouth s). reflexivity.
Qed.

(** *** Segments across the seam *)

Section Seam.

(** The playfield is larger than a segment's length and the jump that
    denormalising looks for, taken together. *)
Hypothesis Width_seam : segmentLen + 30 < Width < 2 ^ 30.
Hypothesis Height_seam : segmentLen + 30 < Height < 2 ^ 30.
Hypothesis Cos_unit : forall d : Q, (-1 <= Cos d <= 1)%Q.
Hypothesis Sin_unit : forall d : Q, (-1 <= Sin d <= 1)%Q.
Hypothesis Hypot_over :
  forall x y : Q, (Qabs x <= Hypot x y)%Q /\ (Qabs y <= Hypot x y)%Q.

Lemma Width_seam_range : 2 * segmentLen < Width < 2 ^ 30.
Proof. unfold segmentLen in *. lia. Qed.

Lemma Height_seam_range : segmentLen <= Height < 2 ^ 30.
Proof. unfold segmentLen in *. lia. Qed.

Lemma nearOnTorus_sym (size a b : Z) : nearOnTorus size a b -> nearOnTorus size b a.
Proof. unfold nearOnTorus. lia. Qed.

(** A projected point is near the point it is projected from. *)
Lemma project_near (from : Point) (dir len : Q) :
  inField from -> (- ofInt segmentLen <= len <= ofInt segmentLen)%Q ->
  nearOnTorus Width (X (project from dir len)) (X from)
  /\ nearOnTorus Height (Y (project from dir len)) (Y from).
Proof.
  intros [Hx Hy] Hl. unfold project, nearOnTorus. cbn [X Y].
  pose proof (step_bounds (Cos dir) len (Cos_unit dir) Hl) as Hcx.
  pose proof (step_bounds (Sin dir) len (Sin_unit dir) Hl) as Hsy.
  unfold segmentLen in *.
  rewrite !wrapInt_id by (unfold inInt, intMin, intMax; lia).
  unfold normalizeX, normalizeY. split.
  - destruct (Z.geb_spec (X from + toInt (Fin (Cos dir * len))) Width).
    + rewrite wrapInt_id by (unfold inInt, intMin, intMax; lia). lia.
    + destruct (Z.ltb_spec (X from + toInt (Fin (Cos dir * len))) 0); [|lia].
      rewrite wrapInt_id by (unfold inInt, intMin, intMax; lia). lia.
  - destruct (Z.geb_spec (Y from - toInt (Fin (Sin dir * len))) Height).
    + rewrite wrapInt_id by (unfold inInt, intMin, intMax; lia). lia.
    + destruct (Z.ltb_spec (Y from - toInt (Fin (Sin dir * len))) 0); [|lia].
      rewrite wrapInt_id by (unfold inInt, intMin, intMax; lia). lia.
Qed.

Lemma linked_cons (p q : Point) (rest : list Point) :
  linked (p :: q :: rest)
  <-> nearOnTorus Width (X p) (X q) /\ nearOnTorus Height (Y p) (Y q)
      /\ linked (q :: rest).
Proof. reflexivity. Qed.

Lemma linked_removelast (l : list Point) : linked l -> linked (removelast l).
Proof.
  induction l as [|p [|q [|q' l]] IH]; try (intros; exact I).
  change (removelast (p :: q :: q' :: l)) with (p :: q :: removelast (q' :: l)).
  change (removelast (q :: q' :: l)) with (q :: removelast (q' :: l)) in IH.
  intros (H1 & H2 & H3). apply linked_cons. auto.
Qed.

Lemma linked_onto (h : Point) (l : list Point) :
  (forall p rest, l = p :: rest ->
     nearOnTorus Width (X h) (X p) /\ nearOnTorus Height (Y h) (Y p)) ->
  linked l -> linked (h :: l).
Proof.
  destruct l as [|p rest]; [intros; exact I|].
  intros Hn Hl. destruct (Hn p rest eq_refl). apply linked_cons. auto.
Qed.

Lemma shift_linked (s : Snake) :
  snakeInField s -> linked (positions (Snake.Head s)) ->
  linked (positions (Snake.Head (Snake_shift s))).
Proof.
  intros (Hpos & _ & _) Hl. rewrite shift_positions.
  pose proof (project_near _ (Snake.Dir s) _
                (head_inField _ Hpos) segmentLen_self) as Hnear.
  destruct (positions_head (Snake.Head s)) as [rest E].
  assert (Hfirst : forall l, (exists tl, l = Segment.Head (Snake.Head s) :: tl) \/ l = [] ->
            linked l ->
            linked (project (Segment.Head (Snake.Head s)) (Snake.Dir s) (ofInt segmentLen) :: l)).
  { intros l Hhd Hll. apply linked_onto; [|exact Hll].
    intros p tl ->. destruct Hhd as [[tl' [= -> _]] | [=]]. exact Hnear. }
  destruct (Snake.state s).
  - apply Hfirst; [|now apply linked_removelast].
    rewrite E. destruct rest; [right; reflexivity | left; eexists; reflexivity].
  - apply Hfirst; [|now apply linked_removelast].
    rewrite E. destruct rest; [right; reflexivity | left; eexists; reflexivity].
  - apply Hfirst; [|assumption]. left. eauto.
Qed.


Lemma Snake_Update_linked (ReadPad : Peer -> Pad * bool)
    (s : Snake) (frame : Z) (a : Apple) (r : nat) :
  snakeInField s -> linked (positions (Snake.Head s)) ->
  linked (positions (Snake.Head (fst (Snake_Update ReadPad s frame a r))))
  /\ mouthNear (fst (Snake_Update ReadPad s frame a r)).
Proof.
  intros Hs Hl.
  destruct (Snake_Update_chain ReadPad s frame a r) as (EH & _ & _ & _ & EM).
  cbv zeta in EH, EM. unfold mouthNear. rewrite EH, EM. clear EH EM.
  set (turned := if snd (ReadPad (Snake.Peer s)) then _ else s).
  assert (Ht : snakeInField turned /\ linked (positions (Snake.Head turned))).
  { subst turned. destruct (snd (ReadPad (Snake.Peer s))); [|now split].
    split; [now apply setDir_inField|].
    now rewrite (proj1 (setDir_fields s _)). }
  destruct Ht as [Hts Htl].
  set (moved := if Z.rem frame period =? 0 then Snake_shift turned else turned).
  assert (Hm : snakeInField moved /\ linked (positions (Snake.Head moved))).
  { subst moved. destruct (Z.rem frame period =? 0); [|now split].
    split; [|now apply shift_linked].
    now apply (shift_inField Width_seam_range Height_seam_range Cos_unit Sin_unit). }
  destruct Hm as [(Hmp & _ & _) Hml]. split; [exact Hml|].
  unfold Snake_updateMouth. cbn [Snake.Mouth Snake.set_Mouth].
  destruct (project_near (Segment.Head (Snake.Head moved)) (Snake.Dir moved) _
              (head_inField _ Hmp) (headLen_bounds frame)) as [Hx Hy].
  split; now apply nearOnTorus_sym.
Qed.

Lemma updateSnakes_linked (fuel : nat) (ReadPad : Peer -> Pad * bool) (frame : Z)
    (ss : list Snake) :
  forall a sc r ss' a' sc' r',
    Forall snakeInField ss -> inMargin (Apple.Pos a) ->
    Forall (fun s => linked (positions (Snake.Head s))) ss ->
    updateSnakes fuel ReadPad frame ss a sc r = Some (ss', a', sc', r') ->
    Forall (fun s => linked (positions (Snake.Head s)) /\ mouthNear s) ss'.
Proof.
  induction ss as [|s ss IH]; intros a sc r ss' a' sc' r' Hss Ha Hls; cbn [updateSnakes].
  - intros [= <- _ _ _]. constructor.
  - inversion Hss as [|? ? Hs Hrest]; subst. inversion Hls as [|? ? Hl Hlrest]; subst.
    pose proof (Snake_Update_linked ReadPad s frame a r Hs Hl) as Hl1.
    pose proof (Snake_Update_inField Width_seam_range Height_seam_range Cos_unit
                  Sin_unit Hypot_over ReadPad s frame a r Hs Ha) as Hs1.
    destruct (Snake_Update ReadPad s frame a r) as [s1 r1]. cbn [fst] in Hl1, Hs1.
    destruct (Snake_TryEat fuel s1 a sc r1) as [[[[s2 a2] sc2] r2]|] eqn:Heat;
      [|discriminate].
    destruct (TryEat_inField Width_seam_range Height_seam_range
                _ _ _ _ _ _ _ _ _ Hs1 Ha Heat) as [_ Ha2].
    assert (Hl2 : linked (positions (Snake.Head s2)) /\ mouthNear s2)
      by (destruct (TryEat_snake _ _ _ _ _ _ _ _ _ Heat) as [[-> _] | [-> _]];
          exact Hl1).
    destruct (updateSnakes fuel ReadPad frame ss a2 (Score_Update sc2 s2) r2)
      as [[[[ss3 a3] sc3] r3]|] eqn:Hrec; [|discriminate].
    intros [= <- _ _ _]. constructor; [exact Hl2|].
    exact (IH _ _ _ _ _ _ _ Hrest Ha2 Hlrest Hrec).
Qed.

(** After [n] frames every chain is linked, and from the first frame on
    every mouth is near its head. *)
Lemma AfterFrames_linked (peers : list Peer) (n : nat) (g : Game) :
  Forall spawnsInField peers -> AfterFrames peers n g ->
  Forall (fun s => linked (positions (Snake.Head s))) (Game.snakes g)
  /\ ((1 <= n)%nat -> Forall mouthNear (Game.snakes g)).
Proof.
  intros Hp Hn.
  induction Hn as [|n fuel ReadPad g g' Hg IH Hu|n c v g _ IH].
  - split; [|lia]. unfold boot, NewApple. destruct (Apple_Move _ _).
    cbn [Game.snakes]. apply Forall_forall. intros s Hs.
    apply in_map_iff in Hs. destruct Hs as (p & <- & _).
    cbn. unfold nearOnTorus, segmentLen. cbn. repeat split; left; lia.
  - destruct IH as [Hl _].
    destruct (reachable_invariant Width_seam_range Height_seam_range Cos_unit Sin_unit
                Hypot_over peers g Hp (ex_intro _ n Hg)) as [Hs Ha].
    revert Hu. unfold update. cbn zeta.
    destruct (updateSnakes _ _ _ _ _ _ _) as [[[[ss a] sc] r]|] eqn:Hu; [|discriminate].
    intros [= <-]. cbn [Game.snakes].
    pose proof (updateSnakes_linked _ _ _ _ _ _ _ _ _ _ _ Hs Ha Hl Hu) as Hboth.
    split; [|intros _]; apply Forall_forall; intros s Hin;
      apply (proj1 (Forall_forall _ _) Hboth s Hin).
  - now rewrite (proj1 (cheat_snakes c v g)).
Qed.

(** Two near coordinates of the playfield are at most a segment's length
    apart once denormalised, and less than two sizes from the origin. *)
Lemma denormalize_short (size a b : Z) :
  segmentLen + 30 < size < 2 ^ 30 -> 0 <= a < size -> 0 <= b < size ->
  nearOnTorus size a b ->
  let d := if wrapInt (a - b) >? 30 then (a, wrapInt (b + size))
           else if wrapInt (b - a) >? 30 then (wrapInt (a + size), b)
           else (a, b) in
  Z.abs (fst d - snd d) <= segmentLen
  /\ 0 <= fst d < 2 * size - 30 /\ 0 <= snd d < 2 * size - 30.
Proof.
  intros Hs Ha Hb Hn. unfold nearOnTorus, segmentLen in *.
  destruct (denormalize_cases size a b ltac:(lia) Ha Hb) as [[H ->] | [[H ->] | [H ->]]];
    cbn [fst snd]; lia.
Qed.

Lemma linked_nth (l : list Point) :
  linked l -> forall i ph pt,
    nth_error l i = Some ph -> nth_error l (S i) = Some pt ->
    nearOnTorus Width (X ph) (X pt) /\ nearOnTorus Height (Y ph) (Y pt).
Proof.
  induction l as [|p [|q l] IH]; intros Hl i ph pt H1 H2.
  - destruct i; discriminate.
  - destruct i as [|[|i]]; discriminate.
  - destruct Hl as (Hx & Hy & Hrest). destruct i as [|i].
    + cbn in H1, H2. injection H1 as <-. injection H2 as <-. now split.
    + apply (IH Hrest i); assumption.
Qed.

(** Every segment of a reachable snake is short once denormalised: the two
    ends of the box [Collides] builds and of the line [Render] draws are at
    most a segment's length apart on each axis, also across the seam. *)
Theorem reachable_segments_contiguous (peers : list Peer) (g : Game)
    (s : Snake) (i : nat) (ph pt : Point) :
  Forall spawnsInField peers -> Reachable peers g -> In s (Game.snakes g) ->
  nth_error (positions (Snake.Head s)) i = Some ph ->
  nth_error (positions (Snake.Head s)) (S i) = Some pt ->
  Z.abs (fst (denormalizeX (X ph) (X pt)) - snd (denormalizeX (X ph) (X pt)))
    <= segmentLen
  /\ Z.abs (fst (denormalizeY (Y ph) (Y pt)) - snd (denormalizeY (Y ph) (Y pt)))
    <= segmentLen
  /\ X (BBox.right (segmentBox ph pt)) - X (BBox.left (segmentBox ph pt))
    <= segmentLen + snakeWidth - 1
  /\ Y (BBox.right (segmentBox ph pt)) - Y (BBox.left (segmentBox ph pt))
    <= segmentLen + snakeWidth - 1.
Proof.
  intros Hp Hr Hin H1 H2.
  destruct (reachable_invariant Width_seam_range Height_seam_range Cos_unit Sin_unit
              Hypot_over peers g Hp Hr) as [Hs _].
  destruct Hr as [n Hn]. destruct (AfterFrames_linked peers n g Hp Hn) as [Hl _].
  pose proof (proj1 (Forall_forall _ _) Hs s Hin) as (Hpos & _ & _).
  pose proof (proj1 (Forall_forall _ _) Hl s Hin) as Hlk.
  destruct (linked_nth _ Hlk i ph pt H1 H2) as [Hnx Hny].
  pose proof (proj1 (Forall_forall _ _) Hpos ph (nth_error_In _ _ H1)) as [Hhx Hhy].
  pose proof (proj1 (Forall_forall _ _) Hpos pt (nth_error_In _ _ H2)) as [Htx Hty].
  destruct (denormalize_short Width (X ph) (X pt) Width_seam Hhx Htx Hnx) as (Dx & Dx1 & Dx2).
  destruct (denormalize_short Height (Y ph) (Y pt) Height_seam Hhy Hty Hny) as (Dy & Dy1 & Dy2).
  cbv zeta in Dx, Dx1, Dx2, Dy, Dy1, Dy2.
  unfold segmentBox, denormalizeX, denormalizeY.
  destruct (if wrapInt (X ph - X pt) >? 30 then _ else _) as [a b].
  destruct (if wrapInt (Y ph - Y pt) >? 30 then _ else _) as [c d].
  cbn [fst snd] in *. unfold NewBBox, ComponentMin, ComponentMax.
  cbn [BBox.left BBox.right X Y]. change (Z.quot snakeWidth 2) with 3.
  unfold segmentLen, snakeWidth in *.
  rewrite !wrapInt_id by (unfold inInt, intMin, intMax; lia). lia.
Qed.

(** The lines of a segment and of its three ghost copies span what the
    segment spans. *)
Lemma drawSegment_lines (start end_ a b : Point) (c : Color) (w : Z) :
  0 <= X start < 2 ^ 31 - 1 -> 0 <= Y start < 2 ^ 31 - 1 ->
  0 <= X end_ < 2 ^ 31 - 1 -> 0 <= Y end_ < 2 ^ 31 - 1 ->
  In (DrawLine a b c w) (drawSegment start end_) ->
  X a - X b = X start - X end_ /\ Y a - Y b = Y start - Y end_.
Proof.
  intros Hsx Hsy Hex Hey. unfold drawSegment, drawSegmentExactlyAt. cbn [app In].
  pose proof Width_seam. pose proof Height_seam. unfold segmentLen in *.
  rewrite (wrapInt_id (X start - Width)), (wrapInt_id (X end_ - Width)),
    (wrapInt_id (Y start - Height)), (wrapInt_id (Y end_ - Height))
    by (unfold inInt, intMin, intMax; lia).
  intros Hin.
  repeat (destruct Hin as [Hin | Hin];
          [try discriminate Hin; injection Hin as <- <- _ _; cbn [X Y]; lia|]).
  destruct Hin.
Qed.

Lemma renderEnds_short (ph : Point) (tail : Segment) (frame : Z) (state : State) :
  inField ph -> inField (Segment.Head tail) ->
  nearOnTorus Width (X ph) (X (Segment.Head tail)) ->
  nearOnTorus Height (Y ph) (Y (Segment.Head tail)) ->
  0 <= frame < period ->
  let ends := renderEnds ph tail frame state in
  Z.abs (X (fst ends) - X (snd ends)) <= segmentLen
  /\ Z.abs (Y (fst ends) - Y (snd ends)) <= segmentLen
  /\ 0 <= X (fst ends) < 2 ^ 31 - 1 /\ 0 <= Y (fst ends) < 2 ^ 31 - 1
  /\ 0 <= X (snd ends) < 2 ^ 31 - 1 /\ 0 <= Y (snd ends) < 2 ^ 31 - 1.
Proof.
  intros [Hhx Hhy] [Htx Hty] Hnx Hny Hf. cbv zeta. unfold renderEnds.
  destruct (denormalize_short Width _ _ Width_seam Hhx Htx Hnx) as (Dx & Dx1 & Dx2).
  destruct (denormalize_short Height _ _ Height_seam Hhy Hty Hny) as (Dy & Dy1 & Dy2).
  cbv zeta in Dx, Dx1, Dx2, Dy, Dy1, Dy2.
  fold (denormalizeX (X ph) (X (Segment.Head tail))) in Dx, Dx1, Dx2.
  fold (denormalizeY (Y ph) (Y (Segment.Head tail))) in Dy, Dy1, Dy2.
  destruct (denormalizeX _ _) as [sx ex]. destruct (denormalizeY _ _) as [sy ey].
  cbn [fst snd] in *.
  pose proof Width_seam. pose proof Height_seam. unfold segmentLen in *.
  destruct (taper_between sx ex frame ltac:(unfold inInt, intMin, intMax; lia)
              ltac:(unfold inInt, intMin, intMax; lia) ltac:(lia) Hf) as (Tx1 & _ & Tx3).
  destruct (taper_between sy ey frame ltac:(unfold inInt, intMin, intMax; lia)
              ltac:(unfold inInt, intMin, intMax; lia) ltac:(lia) Hf) as (Ty1 & _ & Ty3).
  cbv zeta in Tx1, Tx3, Ty1, Ty3.
  destruct (Segment.Tail tail) as [t|]; [cbn [fst snd X Y]; lia|].
  destruct state; cbn [fst snd X Y]; lia.
Qed.

Lemma renderChain_lines (frame : Z) (state : State) (a b : Point) (c : Color) (w : Z) :
  0 <= frame < period ->
  forall segment : Segment,
    Forall inField (positions segment) -> linked (positions segment) ->
    In (DrawLine a b c w) (renderChain segment frame state) ->
    Z.abs (X a - X b) <= segmentLen /\ Z.abs (Y a - Y b) <= segmentLen.
Proof.
  intros Hf segment. induction segment as [p | p tail IH] using Segment_chain_ind;
    intros Hpos Hlk Hin.
  - cbn in Hin. destruct Hin.
  - cbn [renderChain] in Hin. unfold Segment_Render in Hin. cbn [Segment.Tail Segment.Head] in Hin.
    cbn [positions] in Hpos, Hlk.
    assert (Hpt : positions tail = Segment.Head tail :: tl (positions tail))
      by (destruct tail as [q [t|]]; reflexivity).
    rewrite Hpt in Hpos, Hlk. destruct Hlk as (Hnx & Hny & Hrest).
    rewrite <- Hpt in Hrest.
    pose proof (Forall_inv Hpos) as Hp.
    pose proof (Forall_inv (Forall_inv_tail Hpos)) as Hq.
    pose proof (Forall_inv_tail Hpos) as Hpos'. rewrite <- Hpt in Hpos'.
    pose proof (renderEnds_short p tail frame state Hp Hq Hnx Hny Hf) as Hends.
    cbv zeta in Hends.
    destruct (renderEnds p tail frame state) as [st en]. cbn [fst snd] in Hends.
    destruct Hends as (Ex & Ey & B1 & B2 & B3 & B4).
    apply in_app_or in Hin. destruct Hin as [Hin | Hin].
    + destruct (drawSegment_lines st en a b c w B1 B2 B3 B4 Hin) as [-> ->]. now split.
    + now apply IH.
Qed.

(** No line is drawn across the screen.  From the first update on, every
    line [Snake.Render] draws for a snake of the game (body segments, the
    head segment up to the mouth, and their ghost copies) is blue, as wide
    as the snake, and at most a segment's length long on each axis, also
    when the two ends it joins lie on opposite sides of the seam. *)
Theorem Render_lines_short (peers : list Peer) (n : nat) (g : Game) (s : Snake)
    (frame : Z) (a b : Point) (c : Color) (w : Z) :
  Forall spawnsInField peers -> AfterFrames peers n g -> (1 <= n)%nat ->
  In s (Game.snakes g) -> 0 <= frame ->
  In (DrawLine a b c w) (Snake_Render s frame) ->
  c = ColorBlue /\ w = snakeWidth
  /\ Z.abs (X a - X b) <= segmentLen /\ Z.abs (Y a - Y b) <= segmentLen.
Proof.
  intros Hp Hn H1 Hin Hf Hdraw.
  destruct (reachable_invariant Width_seam_range Height_seam_range Cos_unit Sin_unit
              Hypot_over peers g Hp (ex_intro _ n Hn)) as [Hs _].
  destruct (AfterFrames_linked peers n g Hp Hn) as [Hl Hm]. specialize (Hm H1).
  pose proof (proj1 (Forall_forall _ _) Hs s Hin) as (Hpos & Hmouth & _).
  pose proof (proj1 (Forall_forall _ _) Hl s Hin) as Hlk.
  pose proof (proj1 (Forall_forall _ _) Hm s Hin) as [Hmx Hmy].
  assert (Hfr : 0 <= Z.rem frame period < period)
    by (apply Z.rem_bound_pos; unfold period; lia).
  unfold Snake_Render in Hdraw. cbv zeta in Hdraw.
  apply in_app_or in Hdraw. destruct Hdraw as [Hdraw | Hdraw].
  - split; [|split].
    + clear - Hdraw. revert Hdraw. generalize (Z.rem frame period) as f.
      intros f. induction (Snake.Head s) as [p | p tail IH] using Segment_chain_ind.
      * intros [].
      * cbn [renderChain]. unfold Segment_Render. cbn [Segment.Tail Segment.Head].
        destruct (renderEnds p tail f (Snake.state s)) as [st en].
        intros Hd. apply in_app_or in Hd. destruct Hd as [Hd | Hd]; [|now apply IH].
        apply drawSegment_colors in Hd.
        destruct Hd as [(x & y & [= _ _ -> _]) | (q & [=])]. reflexivity.
    + clear - Hdraw. revert Hdraw. generalize (Z.rem frame period) as f.
      intros f. induction (Snake.Head s) as [p | p tail IH] using Segment_chain_ind.
      * intros [].
      * cbn [renderChain]. unfold Segment_Render. cbn [Segment.Tail Segment.Head].
        destruct (renderEnds p tail f (Snake.state s)) as [st en].
        intros Hd. apply in_app_or in Hd. destruct Hd as [Hd | Hd]; [|now apply IH].
        apply drawSegment_colors in Hd.
        destruct Hd as [(x & y & [= _ _ _ ->]) | (q & [=])]. reflexivity.
    + exact (renderChain_lines _ _ a b c w Hfr _ Hpos Hlk Hdraw).
  - unfold Snake_renderHead in Hdraw.
    assert (Hhead : inField (Segment.Head (Snake.Head s))).
    { destruct (Snake.Head s) as [q [t|]]; exact (Forall_inv Hpos). }
    destruct Hhead as [Hhx Hhy]. destruct Hmouth as [Hox Hoy].
    destruct (denormalize_short Width _ _ Width_seam Hhx Hox Hmx) as (Dx & Dx1 & Dx2).
    destruct (denormalize_short Height _ _ Height_seam Hhy Hoy Hmy) as (Dy & Dy1 & Dy2).
    cbv zeta in Dx, Dx1, Dx2, Dy, Dy1, Dy2.
    fold (denormalizeX (X (Segment.Head (Snake.Head s))) (X (Snake.Mouth s))) in Dx, Dx1, Dx2.
    fold (denormalizeY (Y (Segment.Head (Snake.Head s))) (Y (Snake.Mouth s))) in Dy, Dy1, Dy2.
    destruct (denormalizeX _ _) as [nx mx]. destruct (denormalizeY _ _) as [ny my].
    cbn [fst snd] in *. cbv zeta in Hdraw.
    pose proof Width_seam. pose proof Height_seam. unfold segmentLen in *.
    apply in_app_or in Hdraw. destruct Hdraw as [Hdraw | Hdraw].
    + pose proof (drawSegment_colors _ _ _ Hdraw) as Hc.
      destruct Hc as [(x & y & [= _ _ -> ->]) | (q & [=])].
      destruct (drawSegment_lines (mkPoint nx ny) (mkPoint mx my) a b _ _
                  ltac:(cbn; lia) ltac:(cbn; lia) ltac:(cbn; lia) ltac:(cbn; lia) Hdraw)
        as [-> ->].
      cbn [X Y]. repeat split; lia.
    + apply in_app_or in Hdraw. destruct Hdraw as [Hdraw | Hdraw].
      * cbn [In] in Hdraw. destruct Hdraw as [[=] | [[=] | [[=] | []]]].
      * unfold Snake_renderEye in Hdraw. cbn [In] in Hdraw.
        destruct Hdraw as [[=] | Hdraw].
        destruct (Snake.BlinkCounter s <? 20); cbn [In] in Hdraw;
          [destruct Hdraw as [[=] | []] | destruct Hdraw].
Qed.

(** The apple is drawn on the screen.  In every state of the game the
    circle [Apple.Render] draws has its bounding square within the screen,
    and its stalk runs between two points of the screen. *)
Theorem Apple_Render_on_screen (peers : list Peer) (g : Game) (call : DrawCall) :
  Forall spawnsInField peers -> Reachable peers g ->
  In call (Apple_Render (Game.apple g)) -> onScreen call.
Proof.
  intros Hp Hr Hin.
  destruct (reachable_invariant Width_seam_range Height_seam_range Cos_unit Sin_unit
              Hypot_over peers g Hp Hr) as [_ [Hx Hy]].
  pose proof Width_seam. pose proof Height_seam.
  unfold Apple_Render in Hin. unfold appleDiameter, appleRadius, segmentLen in *.
  rewrite !wrapInt_id in Hin by (unfold inInt, intMin, intMax; lia).
  destruct Hin as [<- | [<- | []]]; cbn; lia.
Qed.

End Seam.

End Program.

(** ** The concrete platform meets the assumptions *)

Lemma Qsquare_nonneg (a : Q) : (0 <= a * a)%Q.
Proof. nra. Qed.

Lemma sinHalfTurn_range (x : Q) :
  (0 <= x <= Pi)%Q -> (0 <= sinHalfTurn x <= 1)%Q.
Proof.
  intros [H0 H1]. unfold sinHalfTurn.
  assert (HPi : (0 < Pi)%Q) by reflexivity.
  generalize dependent Pi. intros p H1 Hp.
  pose proof (Qsquare_nonneg (2 * x - p)) as Hs.
  assert (Hpp : (0 < p * p)%Q) by nra.
  assert (Hden : (0 < 5 * p * p - 4 * x * (p - x))%Q) by lra.
  assert (Hxp : (0 <= x * (p - x))%Q) by nra.
  split.
  - apply Qle_shift_div_l; [exact Hden | lra].
  - apply Qle_shift_div_r; [exact Hden | lra].
Qed.

Lemma turnReduce_range (x : Q) : (0 <= turnReduce x < Tau)%Q.
Proof.
  unfold turnReduce.
  assert (Ht : (0 < Tau)%Q) by reflexivity.
  pose proof (Qfloor_le (x / Tau)) as Hlo.
  pose proof (Qlt_floor (x / Tau)) as Hhi.
  rewrite inject_Z_plus in Hhi. change (inject_Z 1) with 1%Q in Hhi.
  assert (E : (x == (x / Tau) * Tau)%Q) by (field; lra).
  revert Hlo Hhi E.
  generalize (inject_Z (Qfloor (x / Tau))). generalize (x / Tau)%Q.
  revert Ht. generalize Tau.
  intros t Ht q f Hlo Hhi E. nra.
Qed.

Lemma approxSin_range (d : Q) : (-1 <= approxSin d <= 1)%Q.
Proof.
  unfold approxSin. cbn zeta.
  pose proof (turnReduce_range d) as [H0 H1].
  assert (ET : (Tau == Pi + Pi)%Q) by reflexivity.
  destruct (Qle_bool (turnReduce d) Pi) eqn:E.
  - apply Qle_bool_iff in E.
    pose proof (sinHalfTurn_range (turnReduce d) (conj H0 E)). lra.
  - apply Qle_bool_false in E.
    assert (Hr : (0 <= turnReduce d - Pi <= Pi)%Q) by lra.
    pose proof (sinHalfTurn_range _ Hr). lra.
Qed.

Lemma approxCos_range (d : Q) : (-1 <= approxCos d <= 1)%Q.
Proof. apply approxSin_range. Qed.

Lemma approxHypot_ge (x y z : Q) :
  (z * z <= x * x + y * y)%Q -> (Qabs z <= approxHypot x y)%Q.
Proof.
  intros Hz. unfold approxHypot.
  set (n := Qceiling ((x * x + y * y) * 65536)).
  assert (Hn : ((x * x + y * y) * 65536 <= inject_Z n)%Q) by apply Qle_ceiling.
  assert (Hr : 0 <= Z.sqrt_up n) by apply Z.sqrt_up_nonneg.
  assert (Hsq : n <= Z.sqrt_up n * Z.sqrt_up n).
  { destruct (Z.lt_ge_cases 0 n) as [Hpos | Hle].
    - pose proof (Z.sqrt_up_spec n Hpos) as Hs. lia.
    - nia. }
  rewrite Zle_Qle, inject_Z_mult in Hsq. rewrite Zle_Qle in Hr.
  change (inject_Z 0) with 0%Q in Hr.
  set (r := inject_Z (Z.sqrt_up n)) in *.
  apply Qle_shift_div_l; [reflexivity|].
  assert (Ha : (0 <= Qabs z)%Q) by apply Qabs_nonneg.
  assert (Hz2 : (Qabs z * Qabs z == z * z)%Q).
  { rewrite <- Qabs_Qmult. apply Qabs_pos. apply Qsquare_nonneg. }
  revert Ha Hz2. generalize (Qabs z). intros a Ha Hz2.
  revert Hn Hsq. generalize (inject_Z n). intros m Hn Hsq.
  destruct (Qlt_le_dec r (a * 256)) as [Hlt | Hle]; [|exact Hle].
  exfalso. nra.
Qed.

Lemma approxHypot_dominates (x y : Q) :
  (Qabs x <= approxHypot x y)%Q /\ (Qabs y <= approxHypot x y)%Q.
Proof.
  pose proof (Qsquare_nonneg x). pose proof (Qsquare_nonneg y).
  split; apply approxHypot_ge; lra.
Qed.

Lemma firefly_Width_range : 2 * segmentLen < fireflyWidth < 2 ^ 30.
Proof. unfold segmentLen, fireflyWidth. lia. Qed.

Lemma firefly_Height_range : segmentLen <= fireflyHeight < 2 ^ 30.
Proof. unfold segmentLen, fireflyHeight. lia. Qed.

(** ** The program on the concrete platform *)

Abbreviation snekShift := (Snake_shift fireflyWidth fireflyHeight approxCos approxSin).
Abbreviation snekCollides := (Snake_Collides fireflyWidth fireflyHeight).
Abbreviation snekBoot := (boot fireflyWidth fireflyHeight lcgRandom).
Abbreviation snekUpdate :=
  (update fireflyWidth fireflyHeight approxCos approxSin approxHypot lcgRandom).
Abbreviation snekFrames :=
  (frames fireflyWidth fireflyHeight approxCos approxSin approxHypot lcgRandom).
Abbreviation snekCheat := (cheat fireflyWidth fireflyHeight lcgRandom).
Abbreviation snekAfterFrames :=
  (AfterFrames fireflyWidth fireflyHeight approxCos approxSin approxHypot lcgRandom).
Abbreviation snekReachable :=
  (Reachable fireflyWidth fireflyHeight approxCos approxSin approxHypot lcgRandom).

(** Two players, one frame: the counters have lost two units each. *)
Lemma update_iframes_per_snake_witness :
  match snekUpdate 0%nat idlePads (snekBoot [0; 1]) with
  | Some g' =>
      Score.iframes (Game.score g') = 58 /\ Score.hunger (Game.score g') = 358
  | None => False
  end.
Proof.
  destruct (snekUpdate 0%nat idlePads (snekBoot [0; 1])) as [g'|] eqn:Hu.
  - split.
    + assert (H1 : Z.of_nat (length (Game.snakes (snekBoot [0; 1])))
                   < Score.iframes (Game.score (snekBoot [0; 1])))
        by (vm_compute; reflexivity).
      assert (H2 : inInt (Score.iframes (Game.score (snekBoot [0; 1]))))
        by (vm_compute; split; discriminate).
      rewrite (update_iframes_per_snake fireflyWidth fireflyHeight approxCos approxSin
                 approxHypot lcgRandom 0%nat idlePads (snekBoot [0; 1]) g' H1 H2 Hu).
      vm_compute. reflexivity.
    + vm_compute in Hu. injection Hu as <-. reflexivity.
  - vm_compute in Hu. discriminate.
Defined.

(** C10 on two players.  A point is scored, thirty frames go by with no pad
    touched, and the invulnerability counter set at boot is spent: a
    penalty during frame 30 takes the point off. *)
Theorem boot_invulnerability_two_snakes :
  exists g : Game,
    snekAfterFrames [0; 1] 30 g
    /\ Game.frame g = 30
    /\ Score.val (Game.score g) = 1
    /\ Score.iframes (Game.score g) = 0
    /\ Score.val (Game.score (fst (snekCheat 3 1 g))) = 0.
Proof.
  destruct (snekFrames 10%nat idlePads 30 (fst (snekCheat 2 1 (snekBoot [0; 1]))))
    as [g|] eqn:Hf; [|vm_compute in Hf; discriminate].
  exists g. split.
  - apply (frames_AfterFrames _ _ _ _ _ _ _ _ _ 30%nat 0%nat _ _
             (After_cheat _ _ _ _ _ _ _ _ _ _ _ (After_boot _ _ _ _ _ _ _)) Hf).
  - vm_compute in Hf. injection Hf as <-. repeat split.
Qed.

(** A new snake, heading 0, with the pad held on a heading of 3 radians: two
    calls bring the angle to 0.2 as a [float32] (13421773 / 2^26), within
    one turn. *)
Lemma setDir_bounded_step_witness :
  (0 <= Snake.Dir (setDirs 2 (NewSnake 0%Z) (mkPad (Fin 3))) <= Tau)%Q
  /\ exists (delta : Q) (k : Z),
       (Qabs delta <= maxDirDiff + (1 # 2097152))%Q
       /\ -1 <= k <= 1
       /\ (Snake.Dir (Snake_setDir (setDirs 2 (NewSnake 0%Z) (mkPad (Fin 3)))
                                   (mkPad (Fin 3)))
           == Snake.Dir (setDirs 2 (NewSnake 0%Z) (mkPad (Fin 3))) + delta
              + inject_Z k * Tau)%Q.
Proof.
  assert (H : (0 <= Snake.Dir (setDirs 2 (NewSnake 0%Z) (mkPad (Fin 3))) <= Tau)%Q)
    by (split; vm_compute; discriminate).
  split; [exact H|].
  exact (setDir_bounded_step (setDirs 2 (NewSnake 0%Z) (mkPad (Fin 3))) (mkPad (Fin 3)) H).
Defined.

(** C4, as stated, fails: the third call takes the angle from 0.2 to 0.3 as
    [float32] values (13421773 / 2^26 and 10066330 / 2^25), a step of
    0.10000000894 where [maxDirDiff] is 0.10000000149, and no wrap by a
    full turn accounts for the difference. *)
Lemma setDir_step_exceeds :
  (Snake.Dir (setDirs 2 (NewSnake 0%Z) (mkPad (Fin 3))) == 13421773 # 67108864)%Q
  /\ (Snake.Dir (Snake_setDir (setDirs 2 (NewSnake 0%Z) (mkPad (Fin 3))) (mkPad (Fin 3)))
      == 10066330 # 33554432)%Q
  /\ (maxDirDiff
      < Snake.Dir (Snake_setDir (setDirs 2 (NewSnake 0%Z) (mkPad (Fin 3))) (mkPad (Fin 3)))
        - Snake.Dir (setDirs 2 (NewSnake 0%Z) (mkPad (Fin 3))))%Q
  /\ ~ exists (delta : Q) (k : Z),
         (Qabs delta <= maxDirDiff)%Q
         /\ -1 <= k <= 1
         /\ (Snake.Dir (Snake_setDir (setDirs 2 (NewSnake 0%Z) (mkPad (Fin 3)))
                                     (mkPad (Fin 3)))
             == Snake.Dir (setDirs 2 (NewSnake 0%Z) (mkPad (Fin 3))) + delta
                + inject_Z k * Tau)%Q.
Proof.
  assert (E2 : (Snake.Dir (setDirs 2 (NewSnake 0%Z) (mkPad (Fin 3)))
                == 13421773 # 67108864)%Q) by (vm_compute; reflexivity).
  assert (E3 : (Snake.Dir (Snake_setDir (setDirs 2 (NewSnake 0%Z) (mkPad (Fin 3)))
                                        (mkPad (Fin 3)))
                == 10066330 # 33554432)%Q) by (vm_compute; reflexivity).
  split; [exact E2|]. split; [exact E3|]. split.
  - rewrite E2, E3. reflexivity.
  - intros (delta & k & Hd & Hk & E). rewrite E2, E3 in E.
    apply Qabs_Qle_condition in Hd. unfold maxDirDiff, Tau in *.
    assert (Hk3 : k = -1 \/ k = 0 \/ k = 1) by lia.
    destruct Hk3 as [-> | [-> | ->]].
    + change (inject_Z (-1)) with (-1 # 1)%Q in E. lra.
    + change (inject_Z 0) with 0%Q in E. lra.
    + change (inject_Z 1) with 1%Q in E. lra.
Qed.

(** The direction controller on a new snake, heading 0: a quarter turn to the
    left is taken one step at a time, a heading of 6 radians is reached the
    short way round through the wrap, and a pad at rest changes nothing. *)
Example setDir_left :
  (Snake.Dir (Snake_setDir (NewSnake 0%Z) (mkPad (Fin (3 # 2)))) == maxDirDiff)%Q.
Proof. vm_compute. reflexivity. Qed.

Example setDir_short_way :
  (Snake.Dir (Snake_setDir (NewSnake 0%Z) (mkPad (Fin 6))) == 1620885 # 262144)%Q.
Proof. vm_compute. reflexivity. Qed.

Example setDir_at_rest :
  Snake_setDir (NewSnake 0) (mkPad NaN) = NewSnake 0.
Proof. reflexivity. Qed.

(** The first shift of a new snake: the head moves a segment's length to
    the right and the tail position is given up. *)
Lemma shift_normal_advances_witness :
  Snake.state (NewSnake 0) <> Growing
  /\ positions (Snake.Head (snekShift (NewSnake 0))) = [mkPoint 42 17; mkPoint 28 17].
Proof.
  split; [discriminate|].
  pose proof (shift_normal_advances fireflyWidth fireflyHeight approxCos approxSin
                (NewSnake 0) ltac:(discriminate)) as H.
  cbv zeta in H. destruct H as (_ & H & _). rewrite H. vm_compute. reflexivity.
Defined.

(** C3, as stated, fails: the positions after a normal shift are neither a
    rotation nor a rearrangement of the positions before it. *)
Lemma shift_normal_not_rotation :
  Snake.state (NewSnake 0) <> Growing
  /\ ~ rotation (positions (Snake.Head (NewSnake 0)))
               (positions (Snake.Head (snekShift (NewSnake 0))))
  /\ ~ Permutation (positions (Snake.Head (NewSnake 0)))
                   (positions (Snake.Head (snekShift (NewSnake 0)))).
Proof.
  split; [discriminate|].
  replace (positions (Snake.Head (snekShift (NewSnake 0))))
    with [mkPoint 42 17; mkPoint 28 17] by (vm_compute; reflexivity).
  change (positions (Snake.Head (NewSnake 0))) with [mkPoint 28 17; mkPoint 14 17].
  split.
  - intros [k Hk]. destruct k as [|[|[|k]]]; cbn in Hk; discriminate.
  - intros Hp. apply Permutation_sym in Hp.
    assert (Hin : In (mkPoint 42 17) [mkPoint 28 17; mkPoint 14 17])
      by (apply (Permutation_in _ Hp); left; reflexivity).
    destruct Hin as [E | [E | []]]; discriminate.
Qed.

(** A snake about to grow. *)
Lemma shift_growing_prepends_witness :
  Snake.state (Snake.set_state (NewSnake 0) Growing) = Growing
  /\ positions (Snake.Head (snekShift (Snake.set_state (NewSnake 0) Growing)))
     = [mkPoint 42 17; mkPoint 28 17; mkPoint 14 17]
  /\ Snake.state (snekShift (Snake.set_state (NewSnake 0) Growing)) = Moving.
Proof.
  split; [reflexivity|].
  pose proof (shift_growing_prepends fireflyWidth fireflyHeight approxCos approxSin
                (Snake.set_state (NewSnake 0) Growing) eq_refl) as H.
  cbv zeta in H. destruct H as (H & _ & _ & Hst). split; [|exact Hst].
  rewrite H. vm_compute. reflexivity.
Defined.



Lemma two_segments_never_collide_witness :
  length (positions (Snake.Head (NewSnake 0))) = 2%nat
  /\ snekCollides (NewSnake 0) (mkPoint 14 17) = false.
Proof.
  split; [reflexivity|].
  apply (two_segments_never_collide fireflyWidth fireflyHeight (NewSnake 0)).
  reflexivity.
Defined.

Lemma Score_Dec_penalty_witness :
  inInt 12
  /\ Score_Dec (Score.mk 12 0 HungerPeriod) = Score.mk 9 IFrames HungerPeriod.
Proof.
  assert (H : inInt 12) by (unfold inInt, intMin, intMax; lia).
  split; [exact H|].
  exact (proj2 (proj2 (proj2 (Score_Dec_penalty (Score.mk 12 0 HungerPeriod) H)))).
Defined.

(** The mouth of the grown snake reaches an apple four units ahead.  The
    first position drawn for the new apple, (20, 17), lies on the snake's
    body; the loop draws again and stops on a clear one. *)
Lemma TryEat_apple_clear_witness :
  eats approxHypot grownSnake
       (Apple.mk (mkPoint 46 17)) = true
  /\ snekCollides grownSnake (mkPoint 20 17) = true
  /\ match Snake_TryEat fireflyWidth fireflyHeight approxHypot riggedRandom 5
            grownSnake
            (Apple.mk (mkPoint 46 17)) NewScore 0 with
     | Some (s', a', sc', r') =>
         Snake.state s' = Eating
         /\ snekCollides s' (Apple.Pos a') = false
         /\ r' = 4%nat
     | None => False
     end.
Proof.
  assert (Heat : eats approxHypot grownSnake
                      (Apple.mk (mkPoint 46 17)) = true)
    by (vm_compute; reflexivity).
  split; [exact Heat|]. split; [vm_compute; reflexivity|].
  destruct (Snake_TryEat fireflyWidth fireflyHeight approxHypot riggedRandom 5
              grownSnake
              (Apple.mk (mkPoint 46 17)) NewScore 0)
    as [[[[s' a'] sc'] r']|] eqn:Ht.
  - destruct (proj1 (TryEat_apple_clear fireflyWidth fireflyHeight approxHypot
                       riggedRandom 5 _ _ NewScore 0%nat Heat) s' a' sc' r' Ht)
      as (Hst & Hclear & _).
    split; [exact Hst|]. split; [exact Hclear|].
    vm_compute in Ht. injection Ht as _ _ _ <-. reflexivity.
  - vm_compute in Ht. discriminate.
Defined.

(** Two players on the console's screen, thirty frames after boot. *)
Lemma reachable_coords_in_field_witness :
  Forall (spawnsInField fireflyHeight) [0; 1]
  /\ match snekFrames 10%nat idlePads 30 (snekBoot [0; 1]) with
     | Some g => coordsInField fireflyWidth fireflyHeight g
     | None => False
     end.
Proof.
  assert (Hp : Forall (spawnsInField fireflyHeight) [0; 1])
    by (repeat constructor; vm_compute; discriminate).
  split; [exact Hp|].
  destruct (snekFrames 10%nat idlePads 30 (snekBoot [0; 1])) as [g|] eqn:Hf.
  - apply (reachable_coords_in_field fireflyWidth fireflyHeight approxCos approxSin
             approxHypot lcgRandom firefly_Width_range firefly_Height_range
             approxCos_range approxSin_range approxHypot_dominates [0; 1] g Hp).
    exists 30%nat.
    exact (frames_AfterFrames _ _ _ _ _ _ _ _ _ 30%nat 0%nat _ _
             (After_boot _ _ _ _ _ _ _) Hf).
  - vm_compute in Hf. discriminate.
Defined.

(** C2, as stated, fails: the snake of a ninth player (peer 8) is spawned on
    row 177 of a screen of 160 rows. *)
Lemma ninth_player_off_field :
  snekReachable [8] (snekBoot [8])
  /\ map (fun s => positions (Snake.Head s)) (Game.snakes (snekBoot [8]))
     = [[mkPoint 28 177; mkPoint 14 177]]
  /\ ~ coordsInField fireflyWidth fireflyHeight (snekBoot [8]).
Proof.
  split; [exists O; constructor|]. split; [reflexivity|].
  intros [Hs _]. apply Forall_inv in Hs. destruct Hs as [Hpos _].
  apply Forall_inv in Hpos. destruct Hpos as [_ [_ Hy]].
  vm_compute in Hy. discriminate.
Qed.

(** ** Further properties on the console's screen *)

Lemma firefly_Width_seam : segmentLen + 30 < fireflyWidth < 2 ^ 30.
Proof. unfold segmentLen, fireflyWidth. lia. Qed.

Lemma firefly_Height_seam : segmentLen + 30 < fireflyHeight < 2 ^ 30.
Proof. unfold segmentLen, fireflyHeight. lia. Qed.

(** Three points asked for at boot. *)
Lemma cheat_reward_adds_witness :
  inInt (Score.val (Game.score (snekBoot [0])))
  /\ Game.score (fst (snekCheat 2 3 (snekBoot [0]))) = Score.mk 3 IFrames HungerPeriod
  /\ snd (snekCheat 2 3 (snekBoot [0])) = 3.
Proof.
  assert (H1 : inInt (Score.val (Game.score (snekBoot [0]))))
    by (vm_compute; split; discriminate).
  assert (H2 : Score.val (Game.score (snekBoot [0])) + 3 <= intMax)
    by (vm_compute; discriminate).
  split; [exact H1|].
  pose proof (cheat_reward_adds fireflyWidth fireflyHeight lcgRandom 3 (snekBoot [0]) H1 H2)
    as H.
  cbv zeta in H. destruct H as (Hs & Hr & _). rewrite Hr, Hs. split; reflexivity.
Defined.

Lemma scoreBounded_preserved_witness :
  scoreBounded NewScore
  /\ scoreBounded (Score_Update fireflyWidth fireflyHeight NewScore (NewSnake 0)).
Proof.
  assert (H : scoreBounded NewScore) by (vm_compute; intuition discriminate).
  split; [exact H|].
  exact (proj1 (proj2 (scoreBounded_preserved fireflyWidth fireflyHeight NewScore
                         (NewSnake 0) H))).
Defined.

(** Twelve points and a snake that never bites itself: the 361st update
    takes three of them. *)
Lemma hunger_penalty_period_witness :
  scoreBounded (Score.mk 12 0 HungerPeriod)
  /\ Score_Updates fireflyWidth fireflyHeight 361 (Score.mk 12 0 HungerPeriod) (NewSnake 0)
     = Score.mk 9 IFrames HungerPeriod.
Proof.
  assert (H : scoreBounded (Score.mk 12 0 HungerPeriod))
    by (vm_compute; intuition discriminate).
  split; [exact H|].
  exact (proj2 (hunger_penalty_period fireflyWidth fireflyHeight (NewSnake 0)
                  (Score.mk 12 0 HungerPeriod) eq_refl H eq_refl)).
Defined.

(** A new snake that has just eaten. *)
Lemma shift_grows_one_cycle_later_witness :
  Snake.state (Snake.set_state (NewSnake 0) Eating) = Eating
  /\ positions (Snake.Head (snekShift (snekShift (Snake.set_state (NewSnake 0) Eating))))
     = [mkPoint 56 17; mkPoint 42 17; mkPoint 28 17].
Proof.
  split; [reflexivity|].
  pose proof (shift_grows_one_cycle_later fireflyWidth fireflyHeight approxCos approxSin
                (Snake.set_state (NewSnake 0) Eating) eq_refl) as H.
  cbv zeta in H. destruct H as (_ & _ & _ & H & _). rewrite H. vm_compute. reflexivity.
Defined.

(** Two players, thirty frames after boot. *)
Lemma reachable_wellFormed_witness :
  match snekFrames 10%nat idlePads 30 (snekBoot [0; 1]) return Prop with
  | Some g =>
      map Snake.Peer (Game.snakes g) = [0; 1]
      /\ Forall snakeWellFormed (Game.snakes g)
      /\ countersBounded (Game.score g)
  | None => False
  end.
Proof.
  destruct (snekFrames 10%nat idlePads 30 (snekBoot [0; 1])) as [g|] eqn:Hf.
  - apply (reachable_wellFormed fireflyWidth fireflyHeight approxCos approxSin
             approxHypot lcgRandom [0; 1] g).
    exists 30%nat.
    exact (frames_AfterFrames _ _ _ _ _ _ _ _ _ 30%nat 0%nat _ _
             (After_boot _ _ _ _ _ _ _) Hf).
  - exfalso. revert Hf. vm_compute. discriminate.
Defined.

(** Three units off the left and off the bottom edge of the console's
    screen. *)
Lemma normalize_is_mod_witness :
  0 < fireflyWidth < 2 ^ 30
  /\ normalizeX fireflyWidth (-3) = 237
  /\ normalizeY fireflyHeight 163 = 3.
Proof.
  assert (HW : 0 < fireflyWidth < 2 ^ 30) by (unfold fireflyWidth; lia).
  assert (HH : 0 < fireflyHeight < 2 ^ 30) by (unfold fireflyHeight; lia).
  split; [exact HW|].
  destruct (normalize_is_mod fireflyWidth fireflyHeight (-3) 163 HW HH) as (Hx & Hy & _).
  rewrite Hx, Hy by (unfold fireflyWidth, fireflyHeight; lia).
  split; reflexivity.
Defined.

(** A segment from column 235 to column 3, across the right edge. *)
Lemma denormalize_normalize_witness :
  denormalizeX fireflyWidth 235 3 = (235, 243)
  /\ normalizeX fireflyWidth 243 = 3.
Proof.
  split; [reflexivity|].
  pose proof (denormalize_normalize fireflyWidth fireflyHeight 235 3 10 20
                ltac:(unfold fireflyWidth; lia) ltac:(unfold fireflyHeight; lia)
                ltac:(unfold fireflyWidth; lia) ltac:(unfold fireflyWidth; lia)
                ltac:(unfold fireflyHeight; lia) ltac:(unfold fireflyHeight; lia)) as H.
  change (denormalizeX fireflyWidth 235 3) with (235, 243) in H.
  change (denormalizeY fireflyHeight 10 20) with (10, 20) in H.
  exact (proj1 (proj2 H)).
Defined.

Lemma Apple_Move_within_margin_witness :
  2 * appleRadius < fireflyWidth < 2 ^ 30
  /\ inMargin fireflyWidth fireflyHeight
       (Apple.Pos (fst (Apple_Move fireflyWidth fireflyHeight lcgRandom
                          (Apple.mk (mkPoint 0 0)) 0))).
Proof.
  assert (HW : 2 * appleRadius < fireflyWidth < 2 ^ 30)
    by (unfold appleRadius, fireflyWidth; lia).
  assert (HH : 2 * appleRadius < fireflyHeight < 2 ^ 30)
    by (unfold appleRadius, fireflyHeight; lia).
  split; [exact HW|].
  exact (proj1 (Apple_Move_within_margin fireflyWidth fireflyHeight lcgRandom
                  (Apple.mk (mkPoint 0 0)) 0%nat HW HH)).
Defined.

(** The two ends of the second segment of the grown snake. *)
Lemma body_joints_collide_witness :
  qualifying grownSnake (mkPoint 28 17) (mkPoint 14 17)
  /\ snekCollides grownSnake (mkPoint 28 17) = true
  /\ snekCollides grownSnake (mkPoint 14 17) = true.
Proof.
  assert (Hq : qualifying grownSnake (mkPoint 28 17) (mkPoint 14 17))
    by (exists 1%nat; repeat split; lia).
  split; [exact Hq|].
  apply (body_joints_collide fireflyWidth fireflyHeight grownSnake _ _ Hq);
    cbn [X Y]; lia.
Defined.

Lemma updateMouth_on_head_witness :
  0 <= X (Segment.Head (Snake.Head (NewSnake 0))) < fireflyWidth
  /\ Snake.Mouth (Snake_updateMouth fireflyWidth fireflyHeight approxCos approxSin
                    (NewSnake 0) 0)
     = mkPoint 28 17.
Proof.
  assert (Hx : 0 <= X (Segment.Head (Snake.Head (NewSnake 0))) < fireflyWidth)
    by (vm_compute; split; [discriminate | reflexivity]).
  split; [exact Hx|].
  apply (updateMouth_on_head fireflyWidth fireflyHeight approxCos approxSin (NewSnake 0) Hx).
  - vm_compute. split; [discriminate | reflexivity].
  - unfold fireflyWidth. lia.
  - unfold fireflyHeight. lia.
Defined.

(** The grown snake, its mouth on (42, 17), looks at an apple down and to
    its right: the eye moves two units right and one down. *)
Lemma updateEye_near_mouth_witness :
  Snake.Eye (fst (Snake_updateEye approxHypot lcgRandom grownSnake (mkPoint 100 50) 0))
  = mkPoint 44 18
  /\ 1 <= Z.abs (X (Snake.Eye (fst (Snake_updateEye approxHypot lcgRandom grownSnake
                                      (mkPoint 100 50) 0))) - 42)
     <= 3.
Proof.
  split; [vm_compute; reflexivity|].
  pose proof (updateEye_near_mouth approxHypot lcgRandom grownSnake (mkPoint 100 50) 0%nat
                approxHypot_dominates
                ltac:(cbn; lia) ltac:(cbn; lia) ltac:(cbn; lia) ltac:(cbn; lia)) as H.
  cbv zeta in H. destruct H as (H1 & _ & _ & _ & H5 & _).
  split; [|exact H1].
  apply H5; [discriminate|]. vm_compute. discriminate.
Defined.

(** The last segment of a snake, from column 235 across the right edge to
    column 3, half-way through a cycle. *)
Lemma Render_tail_tapers_witness :
  0 <= 5 < period
  /\ renderEnds fireflyWidth fireflyHeight (mkPoint 235 17)
       (Segment.mk (mkPoint 3 17) None) 5 Moving
     = (mkPoint 235 17, mkPoint 239 17)
  /\ Z.min 235 243
     <= X (snd (renderEnds fireflyWidth fireflyHeight (mkPoint 235 17)
                  (Segment.mk (mkPoint 3 17) None) 5 Moving))
     <= Z.max 235 243.
Proof.
  assert (Hf : 0 <= 5 < period) by (unfold period; lia).
  split; [exact Hf|]. split; [reflexivity|].
  pose proof (Render_tail_tapers fireflyWidth fireflyHeight (mkPoint 235 17)
                (Segment.mk (mkPoint 3 17) None) 5 Moving
                ltac:(unfold fireflyWidth; lia) ltac:(unfold fireflyHeight; lia)
                ltac:(unfold fireflyWidth; cbn; lia) ltac:(unfold fireflyHeight; cbn; lia)
                ltac:(unfold fireflyWidth; cbn; lia) ltac:(unfold fireflyHeight; cbn; lia)
                Hf) as H.
  cbv zeta in H. destruct H as (_ & H & _). exact H.
Defined.

(** One player, 160 frames after boot: the head has crossed the right
    edge. *)
Lemma reachable_segments_contiguous_witness :
  Forall (spawnsInField fireflyHeight) [0]
  /\ match snekFrames 10%nat idlePads 160 (snekBoot [0]) return Prop with
     | Some g =>
         Forall (fun s =>
                   match positions (Snake.Head s) with
                   | ph :: pt :: _ =>
                       Z.abs (fst (denormalizeX fireflyWidth (X ph) (X pt))
                              - snd (denormalizeX fireflyWidth (X ph) (X pt)))
                       <= segmentLen
                   | _ => True
                   end) (Game.snakes g)
     | None => False
     end.
Proof.
  assert (Hp : Forall (spawnsInField fireflyHeight) [0])
    by (repeat constructor; vm_compute; discriminate).
  split; [exact Hp|].
  destruct (snekFrames 10%nat idlePads 160 (snekBoot [0])) as [g|] eqn:Hf.
  - apply Forall_forall. intros s Hin.
    destruct (positions (Snake.Head s)) as [|ph [|pt rest]] eqn:E; try exact I.
    refine (proj1 (reachable_segments_contiguous fireflyWidth fireflyHeight approxCos
                     approxSin approxHypot lcgRandom firefly_Width_seam
                     firefly_Height_seam approxCos_range approxSin_range
                     approxHypot_dominates [0] g s 0%nat ph pt Hp _ Hin _ _)).
    + exists 160%nat.
      exact (frames_AfterFrames _ _ _ _ _ _ _ _ _ 160%nat 0%nat _ _
               (After_boot _ _ _ _ _ _ _) Hf).
    + rewrite E. reflexivity.
    + rewrite E. reflexivity.
  - exfalso. revert Hf. vm_compute. discriminate.
Defined.

Lemma Render_lines_short_witness :
  Forall (spawnsInField fireflyHeight) [0]
  /\ match snekFrames 10%nat idlePads 160 (snekBoot [0]) return Prop with
     | Some g =>
         map (fun s => positions (Snake.Head s)) (Game.snakes g)
         = [[mkPoint 12 17; mkPoint 238 17]]
         /\ Forall (fun call =>
                      match call with
                      | DrawLine a b c w =>
                          c = ColorBlue /\ w = snakeWidth
                          /\ Z.abs (X a - X b) <= segmentLen
                          /\ Z.abs (Y a - Y b) <= segmentLen
                      | _ => True
                      end)
              (flat_map (fun s => Snake_Render fireflyWidth fireflyHeight s (Game.frame g))
                        (Game.snakes g))
     | None => False
     end.
Proof.
  assert (Hp : Forall (spawnsInField fireflyHeight) [0])
    by (repeat constructor; vm_compute; discriminate).
  split; [exact Hp|].
  destruct (snekFrames 10%nat idlePads 160 (snekBoot [0])) as [g|] eqn:Hf.
  - split; [revert Hf; vm_compute; intros [= <-]; reflexivity|].
    apply Forall_forall. intros call Hin.
    apply in_flat_map in Hin. destruct Hin as (s & Hs & Hin).
    destruct call as [a b c w|]; [|exact I].
    refine (Render_lines_short fireflyWidth fireflyHeight approxCos
              approxSin approxHypot lcgRandom firefly_Width_seam
              firefly_Height_seam approxCos_range approxSin_range
              approxHypot_dominates [0] 160%nat g s (Game.frame g) a b c w Hp _ _ Hs _ Hin).
    + exact (frames_AfterFrames _ _ _ _ _ _ _ _ _ 160%nat 0%nat _ _
               (After_boot _ _ _ _ _ _ _) Hf).
    + lia.
    + revert Hf. vm_compute. intros [= <-]. vm_compute. discriminate.
  - exfalso. revert Hf. vm_compute. discriminate.
Defined.

Lemma Apple_Render_on_screen_witness :
  Forall (spawnsInField fireflyHeight) [0; 1]
  /\ Forall (onScreen fireflyWidth fireflyHeight)
       (Apple_Render (Game.apple (snekBoot [0; 1]))).
Proof.
  assert (Hp : Forall (spawnsInField fireflyHeight) [0; 1])
    by (repeat constructor; vm_compute; discriminate).
  split; [exact Hp|].
  apply Forall_forall. intros call Hin.
  apply (Apple_Render_on_screen fireflyWidth fireflyHeight approxCos
           approxSin approxHypot lcgRandom firefly_Width_seam
           firefly_Height_seam approxCos_range approxSin_range
           approxHypot_dominates [0; 1] (snekBoot [0; 1]) call Hp); [|exact Hin].
  exists 0%nat. constructor.
Defined.
